(** * Clean Intent: the rule-based intent normalization pipeline

    A shallow embedding of the deterministic core of the backend
    (modules/intentParser, modules/conflictDetector, modules/irlGenerator,
    modules/promptCompiler, modules/normalizer) and the properties its
    specification states about it.

    Strings.  A JavaScript string is modelled by [string]; the embedding is
    exact on 7-bit ASCII text, which is where every pattern and table of
    the program lives.  The remaining values of [ascii] stand for code
    units that have no case and are neither white space nor word
    characters; a property that rests on the case of a character of the
    input is stated for 7-bit text ([asciiText]).

    Regular expressions.  The patterns of the program are written in a
    small abstract syntax and run by a backtracking matcher that follows
    the ECMAScript matching order (greedy and lazy quantifiers, ordered
    alternation, capture groups, the [i] and [g] flags, [lastIndex]).

    Loops.  [while ((match = regex.exec(text)) !== null)] is modelled with
    fuel, a bound on the turns of each loop; running out of fuel is
    [None].  A function that runs such a loop returns an [option], and
    [None] says that the call does not return.

    The service around the pipeline.  The file also embeds the renderers
    of modules/llmNormalizer on the intent of a reply, whose length is any
    text, the limiter of routes/demo, the key store of
    modules/apiKeys over the two tables of db, the key check of
    middleware/auth and the key mask of routes/admin.  The tables are
    lists of rows; [Date.now()] and the dates the code builds are
    arguments; a time stamp is the text SQLite and JavaScript print for a
    date given by its UTC fields.

    The file has three parts: the program, the vocabulary of the
    properties, and the properties with their proofs. *)

From Stdlib Require Import String Ascii List Bool Arith PeanoNat ZArith Lia.
Import ListNotations.

Local Open Scope string_scope.
Local Open Scope list_scope.
Local Open Scope nat_scope.

(* ------------------------------------------------------------------ *)
(** ** Characters *)

Module Char.

Definition code (c : ascii) : nat := nat_of_ascii c.

Definition isUpper (c : ascii) : bool := (65 <=? code c) && (code c <=? 90).
Definition isLower (c : ascii) : bool := (97 <=? code c) && (code c <=? 122).
Definition isDigit (c : ascii) : bool := (48 <=? code c) && (code c <=? 57).

(** [String.prototype.toLowerCase] and [toUpperCase] on one code unit. *)
Definition toLower (c : ascii) : ascii :=
  if isUpper c then ascii_of_nat (code c + 32) else c.

Definition toUpper (c : ascii) : ascii :=
  if isLower c then ascii_of_nat (code c - 32) else c.

(** White space as [\s] and [trim] see it: TAB, LF, VT, FF, CR, SP. *)
Definition isSpace (c : ascii) : bool :=
  ((9 <=? code c) && (code c <=? 13)) || (code c =? 32).

(** Line terminators, which [.] does not match: LF and CR. *)
Definition isLineTerminator (c : ascii) : bool :=
  (code c =? 10) || (code c =? 13).

(** Word characters of [\b]: letters, digits and the underscore. *)
Definition isWord (c : ascii) : bool :=
  isUpper c || isLower c || isDigit c || (code c =? 95).

End Char.

(* ------------------------------------------------------------------ *)
(** ** Strings *)

Module Str.

Fixpoint map (f : ascii -> ascii) (s : string) : string :=
  match s with
  | EmptyString => EmptyString
  | String c s' => String (f c) (map f s')
  end.

Definition toLowerCase (s : string) : string := map Char.toLower s.

Fixpoint forallb (p : ascii -> bool) (s : string) : bool :=
  match s with
  | EmptyString => true
  | String c s' => p c && forallb p s'
  end.

Fixpoint trimStart (s : string) : string :=
  match s with
  | EmptyString => EmptyString
  | String c s' => if Char.isSpace c then trimStart s' else s
  end.

Fixpoint trimEnd (s : string) : string :=
  match s with
  | EmptyString => EmptyString
  | String c s' =>
      match trimEnd s' with
      | EmptyString => if Char.isSpace c then EmptyString else String c EmptyString
      | t => String c t
      end
  end.

Definition trim (s : string) : string := trimEnd (trimStart s).

(** [s.includes(t)]: [t] occurs in [s] at some position. *)
Fixpoint includes (s t : string) : bool :=
  String.prefix t s ||
  match s with
  | EmptyString => false
  | String _ s' => includes s' t
  end.

(** [s.slice(n)] for [0 <= n]. *)
Fixpoint drop (n : nat) (s : string) : string :=
  match n, s with
  | O, _ => s
  | S n', String _ s' => drop n' s'
  | S _, EmptyString => EmptyString
  end.

(** [s.slice(0, n)]. *)
Fixpoint take (n : nat) (s : string) : string :=
  match n, s with
  | S n', String c s' => String c (take n' s')
  | _, _ => EmptyString
  end.

(** [parts.join(sep)]. *)
Fixpoint join (sep : string) (parts : list string) : string :=
  match parts with
  | [] => EmptyString
  | [p] => p
  | p :: rest => (p ++ sep ++ join sep rest)%string
  end.

(** [set.has(x)] for a set of strings kept as a list. *)
Definition has (seen : list string) (x : string) : bool :=
  existsb (String.eqb x) seen.

(** [!!s]: a string is truthy when it is not empty. *)
Definition truthy (s : string) : bool :=
  match s with EmptyString => false | _ => true end.

End Str.

(* ------------------------------------------------------------------ *)
(** ** Regular expressions *)

Module Re.

(** Character classes. *)
Inductive cset : Type :=
| Dot                       (** [.] *)
| Space                     (** [\s] *)
| OneOf (members : string)  (** the listed characters *)
| Union (a b : cset).

(** Patterns.  A non-capturing group [(?:r)] leaves no node of its own. *)
Inductive regex : Type :=
| Lit (s : string)          (** the characters of [s], in sequence *)
| One (cs : cset)
| Star (cs : cset)          (** [cs*], greedy *)
| Plus (cs : cset)          (** [cs+], greedy *)
| PlusLazy (cs : cset)      (** [cs+?] *)
| WordB                     (** [\b] *)
| Bos                       (** [^] *)
| Eos                       (** [$] *)
| Seq (a b : regex)
| Alt (a b : regex)
| Opt (a : regex)           (** [a?], greedy *)
| Group (n : nat) (a : regex).

Record RegExp : Type := mkRegExp {
  source : regex;
  global : bool;
  ignoreCase : bool
}.

(** The matcher's position in the input. *)
Record cursor : Type := mkCursor {
  prev : option ascii;          (** the character before the position *)
  rest : string;                (** the input from the position on *)
  pos : nat;                    (** the index of the position *)
  caps : list (nat * string)    (** the groups captured so far *)
}.

(** A successful match, as [exec] returns it. *)
Record rmatch : Type := mkMatch {
  index : nat;
  lastPos : nat;
  matched : string;
  groups : list (nat * string)
}.

Definition canonicalize (ic : bool) (c : ascii) : ascii :=
  if ic then Char.toUpper c else c.

Fixpoint charIn (ic : bool) (members : string) (c : ascii) : bool :=
  match members with
  | EmptyString => false
  | String d ms =>
      Ascii.eqb (canonicalize ic d) (canonicalize ic c) || charIn ic ms c
  end.

Fixpoint mem (ic : bool) (cs : cset) (c : ascii) : bool :=
  match cs with
  | Dot => negb (Char.isLineTerminator c)
  | Space => Char.isSpace c
  | OneOf ms => charIn ic ms c
  | Union a b => mem ic a c || mem ic b c
  end.

Definition isWordOpt (o : option ascii) : bool :=
  match o with Some c => Char.isWord c | None => false end.

Definition next (s : string) : option ascii :=
  match s with String c _ => Some c | EmptyString => None end.

Definition atWordBoundary (p : option ascii) (s : string) : bool :=
  xorb (isWordOpt p) (isWordOpt (next s)).

Section Matcher.

Variable ic : bool.

(** The continuation takes the position reached. *)
Definition cont : Type := option ascii -> string -> nat -> option cursor.

Fixpoint lit (s : string) (p : option ascii) (r : string) (i : nat)
    (k : cont) : option cursor :=
  match s with
  | EmptyString => k p r i
  | String a s' =>
      match r with
      | String c r' =>
          if Ascii.eqb (canonicalize ic a) (canonicalize ic c)
          then lit s' (Some c) r' (S i) k
          else None
      | EmptyString => None
      end
  end.

(** [cs*], greedy: take as many as possible, give back one at a time. *)
Fixpoint star (cs : cset) (p : option ascii) (r : string) (i : nat)
    (k : cont) : option cursor :=
  match r with
  | String c r' =>
      if mem ic cs c
      then
        match star cs (Some c) r' (S i) k with
        | Some res => Some res
        | None => k p r i
        end
      else k p r i
  | EmptyString => k p r i
  end.

Definition plus (cs : cset) (p : option ascii) (r : string) (i : nat)
    (k : cont) : option cursor :=
  match r with
  | String c r' => if mem ic cs c then star cs (Some c) r' (S i) k else None
  | EmptyString => None
  end.

(** [cs*?]: try the continuation first, take one more when it fails. *)
Fixpoint starLazy (cs : cset) (p : option ascii) (r : string) (i : nat)
    (k : cont) : option cursor :=
  match k p r i with
  | Some res => Some res
  | None =>
      match r with
      | String c r' =>
          if mem ic cs c then starLazy cs (Some c) r' (S i) k else None
      | EmptyString => None
      end
  end.

Definition plusLazy (cs : cset) (p : option ascii) (r : string) (i : nat)
    (k : cont) : option cursor :=
  match r with
  | String c r' =>
      if mem ic cs c then starLazy cs (Some c) r' (S i) k else None
  | EmptyString => None
  end.

Fixpoint run (re : regex) (st : cursor) (k : cursor -> option cursor)
    : option cursor :=
  let back := fun p r i => k (mkCursor p r i (caps st)) in
  match re with
  | Lit s => lit s (prev st) (rest st) (pos st) back
  | One cs =>
      match rest st with
      | String c r' =>
          if mem ic cs c then back (Some c) r' (S (pos st)) else None
      | EmptyString => None
      end
  | Star cs => star cs (prev st) (rest st) (pos st) back
  | Plus cs => plus cs (prev st) (rest st) (pos st) back
  | PlusLazy cs => plusLazy cs (prev st) (rest st) (pos st) back
  | WordB => if atWordBoundary (prev st) (rest st) then k st else None
  | Bos => if pos st =? 0 then k st else None
  | Eos => match rest st with EmptyString => k st | _ => None end
  | Seq a b => run a st (fun st' => run b st' k)
  | Alt a b =>
      match run a st k with
      | Some res => Some res
      | None => run b st k
      end
  | Opt a =>
      match run a st k with
      | Some res => Some res
      | None => k st
      end
  | Group n a =>
      run a st (fun st' =>
        k (mkCursor (prev st') (rest st') (pos st')
             ((n, Str.take (pos st' - pos st) (rest st)) :: caps st')))
  end.

(** Try the pattern at the position, then at each later one. *)
Fixpoint search (re : regex) (p : option ascii) (r : string) (i : nat)
    : option rmatch :=
  match run re (mkCursor p r i []) Some with
  | Some st => Some (mkMatch i (pos st) (Str.take (pos st - i) r) (caps st))
  | None =>
      match r with
      | String c r' => search re (Some c) r' (S i)
      | EmptyString => None
      end
  end.

End Matcher.

(** The position [i] of [text]: the character before it and what follows;
    [None] when [i] is past the end. *)
Fixpoint seek (p : option ascii) (text : string) (i : nat) {struct i}
    : option (option ascii * string) :=
  match i, text with
  | O, _ => Some (p, text)
  | S i', String c t' => seek (Some c) t' i'
  | S _, EmptyString => None
  end.

(** [regex.exec(text)] with the regex's [lastIndex] before the call; the
    result comes with [lastIndex] after it.  Without the [g] flag the
    search starts at 0 and [lastIndex] is left alone. *)
Definition exec (re : RegExp) (text : string) (lastIndex : nat)
    : option rmatch * nat :=
  if global re then
    match seek None text lastIndex with
    | Some (p, r) =>
        match search (ignoreCase re) (source re) p r lastIndex with
        | Some m => (Some m, lastPos m)
        | None => (None, 0)
        end
    | None => (None, 0)
    end
  else
    (search (ignoreCase re) (source re) None text 0, lastIndex).

(** [regex.test(text)] on a regex without the [g] flag. *)
Definition test (re : RegExp) (text : string) : bool :=
  match search (ignoreCase re) (source re) None text 0 with
  | Some _ => true
  | None => false
  end.

(** [m[n]]: the text of group [n]; the last capture recorded wins. *)
Fixpoint group (n : nat) (gs : list (nat * string)) : option string :=
  match gs with
  | [] => None
  | (j, s) :: gs' => if j =? n then Some s else group n gs'
  end.

(** [let match; while ((match = regex.exec(text)) !== null) { ... }]:
    the matches the loop body sees, in order, on a fresh regex when
    [lastIndex] is 0. *)
Fixpoint execLoop (fuel : nat) (re : RegExp) (text : string) (lastIndex : nat)
    : option (list rmatch) :=
  match fuel with
  | O => None
  | S fuel' =>
      match exec re text lastIndex with
      | (None, _) => Some []
      | (Some m, lastIndex') =>
          match execLoop fuel' re text lastIndex' with
          | Some ms => Some (m :: ms)
          | None => None
          end
      end
  end.

(** [s.replace(re, '')] for a regex without the [g] flag. *)
Definition removeFirst (re : RegExp) (s : string) : string :=
  match search (ignoreCase re) (source re) None s 0 with
  | Some m => (Str.take (index m) s ++ Str.drop (lastPos m) s)%string
  | None => s
  end.

(** Building blocks for the tables below. *)
Fixpoint seq (rs : list regex) : regex :=
  match rs with
  | [] => Lit ""
  | [r] => r
  | r :: rs' => Seq r (seq rs')
  end.

Fixpoint alt (rs : list regex) : regex :=
  match rs with
  | [] => One (OneOf "")
  | [r] => r
  | r :: rs' => Alt r (alt rs')
  end.

End Re.

(* ------------------------------------------------------------------ *)
(** ** Data model (types/intentSchema) *)

Definition SCHEMA_VERSION : string := "0.1.0".

Inductive ConstraintType : Type := Hard | Soft.
Inductive Severity : Type := Warning | Blocking.
Inductive ConflictType : Type := OfConstraint | OfGoal | OfOutput.
Inductive Length : Type := Short | Medium | Long | Any.

Module Constraint.
Record t : Type := mk { text : string; type : ConstraintType }.
End Constraint.

Module Conflict.
Record t : Type := mk {
  type : ConflictType;
  description : string;
  severity : Severity;
  terms : string * string
}.
End Conflict.

Module OutputExpectation.
Record t : Type := mk {
  length : option Length;
  format : option string;
  structure : option (list string)
}.
End OutputExpectation.

Module Constraints.
Record t : Type := mk { hard : list Constraint.t; soft : list Constraint.t }.
End Constraints.

Module Intent.
Record t : Type := mk {
  version : string;
  primaryGoal : string;
  taskType : option string;
  audience : option string;
  domain : option string;
  constraints : Constraints.t;
  outputExpectations : option OutputExpectation.t;
  conflicts : list Conflict.t;
  requiresClarification : bool;
  rawInput : string;
  assumptions : list string
}.
End Intent.

Module NormalizeResponse.
Record t : Type := mk { intent : Intent.t; irl : string; compiled : string }.
End NormalizeResponse.

Definition isBlocking (c : Conflict.t) : bool :=
  match Conflict.severity c with Blocking => true | Warning => false end.

(** The text of a length tag, as a template string prints it. *)
Definition lengthName (l : Length) : string :=
  match l with
  | Short => "short"
  | Medium => "medium"
  | Long => "long"
  | Any => "any"
  end.

(** Truthiness of a nullable string: neither null nor empty. *)
Definition given (o : option string) : bool :=
  match o with Some s => Str.truthy s | None => false end.

(* ------------------------------------------------------------------ *)
(** ** Conflict detection (modules/conflictDetector) *)

Module ConflictRule.
Record t : Type := mk {
  terms : string * string;
  description : string;
  severity : Severity;
  type : ConflictType
}.
End ConflictRule.

Definition CONFLICT_RULES : list ConflictRule.t := [
  ConflictRule.mk ("simple", "detailed")
    "Request asks for both simple and detailed output" Warning OfConstraint;
  ConflictRule.mk ("short", "comprehensive")
    "Request asks for both short and comprehensive output" Warning OfOutput;
  ConflictRule.mk ("short", "in-depth")
    "Request asks for both short and in-depth content" Warning OfOutput;
  ConflictRule.mk ("brief", "thorough")
    "Request asks for both brief and thorough output" Warning OfOutput;
  ConflictRule.mk ("creative", "strict")
    "Request asks for both creative and strict approach" Warning OfConstraint;
  ConflictRule.mk ("creative", "formal")
    "Creative tone conflicts with formal style requirement" Warning OfConstraint;
  ConflictRule.mk ("casual", "professional")
    "Casual tone conflicts with professional style" Warning OfConstraint;
  ConflictRule.mk ("fast", "perfect")
    "Prioritizing speed may conflict with perfectionism" Warning OfConstraint;
  ConflictRule.mk ("minimal", "feature-rich")
    "Minimal design conflicts with feature-rich requirements" Blocking OfGoal;
  ConflictRule.mk ("concise", "exhaustive")
    "Concise output conflicts with exhaustive coverage" Warning OfOutput
].

(** The entry a rule pushes when it fires. *)
Definition conflictOf (rule : ConflictRule.t) : Conflict.t :=
  Conflict.mk (ConflictRule.type rule) (ConflictRule.description rule)
    (ConflictRule.severity rule) (ConflictRule.terms rule).

(** The test of one rule: both terms occur in the lowered text. *)
Definition fires (lowerText : string) (rule : ConflictRule.t) : bool :=
  let (term1, term2) := ConflictRule.terms rule in
  let hasTerm1 := Str.includes lowerText term1 in
  let hasTerm2 := Str.includes lowerText term2 in
  hasTerm1 && hasTerm2.

Fixpoint detectIn (lowerText : string) (rules : list ConflictRule.t)
    : list Conflict.t :=
  match rules with
  | [] => []
  | rule :: rules' =>
      if fires lowerText rule
      then conflictOf rule :: detectIn lowerText rules'
      else detectIn lowerText rules'
  end.

Definition detectConflicts (text : string) : list Conflict.t :=
  let lowerText := Str.toLowerCase text in
  detectIn lowerText CONFLICT_RULES.

(* ------------------------------------------------------------------ *)
(** ** Pattern library (modules/intentParser) *)

Import Re.

(** The flags of a regex literal: [/r/], [/r/i] and [/r/gi]. *)
Definition noFlags (r : regex) : RegExp := mkRegExp r false false.
Definition flagI (r : regex) : RegExp := mkRegExp r false true.
Definition flagGI (r : regex) : RegExp := mkRegExp r true true.

(** [ws?] for a word [w] and a last letter [s]. *)
Definition plural (w : string) : regex := Seq (Lit w) (Opt (Lit "s")).

(** [\b(w1|w2|...)\b] *)
Definition wholeWord (alternatives : list regex) : regex :=
  seq [WordB; Group 1 (alt alternatives); WordB].

(** [\bfor\s+(w1|w2|...)\b] *)
Definition forWhom (alternatives : list regex) : regex :=
  seq [WordB; Lit "for"; Plus Space; Group 1 (alt alternatives); WordB].

Definition TASK_TYPE_PATTERNS : list (string * list RegExp) := [
  ("generate", [flagI (wholeWord (List.map Lit
     ["create"; "generate"; "build"; "make"; "write"; "produce"; "design"]))]);
  ("analyze", [flagI (wholeWord (List.map Lit
     ["analyze"; "examine"; "review"; "evaluate"; "assess"; "audit"]))]);
  ("explain", [flagI (wholeWord (List.map Lit
     ["explain"; "describe"; "clarify"; "elaborate"; "break down"]))]);
  ("fix", [flagI (wholeWord (List.map Lit
     ["fix"; "repair"; "debug"; "solve"; "resolve"; "correct"]))]);
  ("optimize", [flagI (wholeWord (List.map Lit
     ["optimize"; "improve"; "enhance"; "refactor"; "streamline"]))]);
  ("convert", [flagI (wholeWord (List.map Lit
     ["convert"; "transform"; "translate"; "migrate"; "port"]))]);
  ("summarize", [flagI (wholeWord (List.map Lit
     ["summarize"; "condense"; "tldr"; "brief"; "overview"]))])
].

Definition AUDIENCE_PATTERNS : list (RegExp * string) := [
  (flagI (forWhom [plural "beginner"; plural "newbie"; plural "novice"]),
   "beginners");
  (flagI (forWhom [plural "expert"; plural "advanced user";
                   plural "professional"]),
   "experts");
  (flagI (forWhom [plural "developer"; plural "dev"; plural "engineer";
                   plural "programmer"]),
   "developers");
  (flagI (forWhom [plural "manager"; plural "executive"; Lit "leadership"]),
   "managers");
  (flagI (forWhom [plural "designer"; Lit "ux"; Lit "ui"]), "designers");
  (flagI (forWhom [plural "student"; plural "learner"]), "students");
  (flagI (forWhom [plural "customer"; plural "user"; plural "client"]),
   "end users");
  (flagI (forWhom [plural "founder"; plural "startup";
                   plural "entrepreneur"]),
   "startup founders");
  (flagI (forWhom [Lit "children"; Lit "kids"]), "children");
  (flagI (seq [WordB; Lit "technical"; Plus Space; Lit "audience"; WordB]),
   "technical audience");
  (flagI (seq [WordB; Lit "non-technical"; WordB]), "non-technical audience")
].

Definition DOMAIN_PATTERNS : list (RegExp * string) := [
  (flagI (wholeWord (List.map Lit
     ["web"; "website"; "frontend"; "react"; "vue"; "angular"])),
   "web development");
  (flagI (wholeWord (List.map Lit ["mobile"; "ios"; "android"; "app"])),
   "mobile development");
  (flagI (wholeWord (List.map Lit ["api"; "backend"; "server"; "database"])),
   "backend development");
  (flagI (wholeWord (List.map Lit
     ["ml"; "machine learning"; "ai"; "data science"])),
   "machine learning");
  (flagI (wholeWord (List.map Lit
     ["devops"; "ci/cd"; "deployment"; "infrastructure"])),
   "devops");
  (flagI (wholeWord (List.map Lit ["marketing"; "seo"; "growth"; "analytics"])),
   "marketing");
  (flagI (wholeWord (List.map Lit
     ["finance"; "banking"; "trading"; "investment"])),
   "finance");
  (flagI (wholeWord (List.map Lit ["healthcare"; "medical"; "health"])),
   "healthcare");
  (flagI (wholeWord [seq [Lit "e"; Opt (Lit "-"); Lit "commerce"];
                     Lit "shopping"; Lit "retail"]),
   "e-commerce");
  (flagI (wholeWord (List.map Lit ["education"; "learning"; "teaching"])),
   "education")
].

(** A constraint rule: the pattern and what it makes of a match. *)
Module ConstraintPattern.
Record t : Type := mk {
  pattern : RegExp;
  extract : rmatch -> option string
}.
End ConstraintPattern.

(** [m[1].trim()], which throws when group 1 did not take part. *)
Definition trimmed1 (m : rmatch) : option string :=
  option_map Str.trim (group 1 (groups m)).

(** [`${word} ${m[1].trim()}`] *)
Definition prefixed1 (word : string) (m : rmatch) : option string :=
  option_map (fun s => (word ++ " " ++ s)%string) (trimmed1 m).

(** [(.+?)] and the [(?:\.|,|$)] that closes it. *)
Definition clause : regex := Group 1 (PlusLazy Dot).
Definition clauseEnd : regex := alt [Lit "."; Lit ","; Eos].

Definition HARD_CONSTRAINT_PATTERNS : list ConstraintPattern.t := [
  ConstraintPattern.mk
    (flagGI (seq [WordB; Lit "must"; Plus Space;
                  Opt (seq [Lit "be"; Plus Space]); clause; clauseEnd]))
    trimmed1;
  ConstraintPattern.mk
    (flagGI (seq [WordB; Lit "require"; Opt (Lit "d");
                  Opt (seq [Plus Space; Lit "to"]); Plus Space;
                  clause; clauseEnd]))
    trimmed1;
  ConstraintPattern.mk
    (flagGI (seq [WordB; Lit "has"; Plus Space; Lit "to"; Plus Space;
                  clause; clauseEnd]))
    trimmed1;
  ConstraintPattern.mk
    (flagGI (seq [WordB; Lit "need"; Opt (Lit "s"); Plus Space; Lit "to";
                  Plus Space; clause; clauseEnd]))
    trimmed1;
  ConstraintPattern.mk
    (flagGI (seq [WordB; Lit "ensure"; Plus Space; clause; clauseEnd]))
    trimmed1;
  ConstraintPattern.mk
    (flagGI (seq [WordB; Lit "no"; Plus Space; clause; clauseEnd]))
    (prefixed1 "no");
  ConstraintPattern.mk
    (flagGI (seq [WordB; Lit "without"; Plus Space; clause; clauseEnd]))
    (prefixed1 "without")
].

Definition SOFT_CONSTRAINT_PATTERNS : list ConstraintPattern.t := [
  ConstraintPattern.mk
    (flagGI (seq [WordB; Lit "preferably"; Plus Space; clause; clauseEnd]))
    trimmed1;
  ConstraintPattern.mk
    (flagGI (seq [WordB; Lit "ideally"; Plus Space; clause; clauseEnd]))
    trimmed1;
  ConstraintPattern.mk
    (flagGI (seq [WordB; Lit "should"; Plus Space;
                  Opt (seq [Lit "be"; Plus Space]); clause; clauseEnd]))
    trimmed1;
  ConstraintPattern.mk
    (flagGI (seq [WordB; Lit "would"; Plus Space; Lit "be"; Plus Space;
                  Lit "nice"; Plus Space; Opt (seq [Lit "to"; Plus Space]);
                  clause; clauseEnd]))
    trimmed1;
  ConstraintPattern.mk
    (flagGI (seq [WordB; Lit "if"; Plus Space; Lit "possible";
                  Plus (Union (OneOf ",") Space); clause; clauseEnd]))
    trimmed1;
  ConstraintPattern.mk
    (flagGI (seq [WordB; Lit "optionally"; Plus Space; clause; clauseEnd]))
    trimmed1
].

Definition LENGTH_PATTERNS : list (RegExp * Length) := [
  (flagI (wholeWord (List.map Lit
     ["brief"; "short"; "concise"; "quick"; "simple"])),
   Short);
  (flagI (wholeWord (List.map Lit
     ["detailed"; "comprehensive"; "thorough"; "in-depth"; "exhaustive";
      "long"])),
   Long);
  (flagI (wholeWord (List.map Lit ["moderate"; "medium"; "balanced"])), Medium)
].

Definition formatPatterns : list (RegExp * string) := [
  (noFlags (wholeWord [Lit "json"; Lit "JSON"]), "JSON");
  (flagI (wholeWord [Lit "markdown"; Lit "md"]), "Markdown");
  (noFlags (wholeWord [Lit "html"; Lit "HTML"]), "HTML");
  (flagI (wholeWord [seq [Lit "bullet"; Star Space; plural "point"];
                     plural "bullet"; Lit "list"]),
   "bullet points");
  (flagI (wholeWord [Lit "table"; Lit "tabular"]), "table");
  (flagI (wholeWord [Lit "code"; Lit "snippet"]), "code")
].

(** The two structure patterns; the first has no [g] flag. *)
Definition withSections : RegExp :=
  flagI (seq [WordB; Lit "with"; Plus Space;
              Group 1 (alt [plural "section"; plural "part";
                            plural "chapter"]);
              WordB]).

Definition includeClause : RegExp :=
  flagGI (seq [WordB; Lit "include"; Plus Space; clause;
               alt [Lit "."; Lit ","; Lit "and"; Eos]]).

Definition structurePatterns : list RegExp := [withSections; includeClause].

(** The filler phrases [extractPrimaryGoal] removes, in its order. *)
Definition fillerPatterns : list RegExp := [
  flagI (seq [Bos; Group 1 (seq [Lit "i"; Plus Space; Lit "want"; Plus Space;
                Opt (Group 2 (seq [Lit "you"; Plus Space]));
                Lit "to"; Plus Space])]);
  flagI (seq [Bos; Group 1 (seq [Lit "please"; Plus Space])]);
  flagI (seq [Bos; Group 1 (seq [Lit "can"; Plus Space; Lit "you";
                                 Plus Space])]);
  flagI (seq [Bos; Group 1 (seq [Lit "help"; Plus Space; Lit "me";
                                 Plus Space])]);
  flagI (seq [Bos; Group 1 (seq [Lit "i"; Plus Space; Lit "need"; Plus Space;
                Opt (Group 2 (seq [Lit "you"; Plus Space]));
                Lit "to"; Plus Space])])
].

(* ------------------------------------------------------------------ *)
(** ** Field extractors (modules/intentParser) *)

Module ParsedIntent.
Record t : Type := mk {
  primaryGoal : string;
  taskType : option string;
  audience : option string;
  domain : option string;
  hardConstraints : list Constraint.t;
  softConstraints : list Constraint.t;
  outputExpectations : option OutputExpectation.t;
  assumptions : list string
}.
End ParsedIntent.

Definition isSentenceEnd (c : ascii) : bool := mem false (OneOf ".!?") c.

(** [text.split(/[.!?]+/)]: [cur] is the piece being read and [inRun] says
    that the character before was part of a separator. *)
Fixpoint splitFrom (s : string) (cur : string) (inRun : bool) : list string :=
  match s with
  | EmptyString => [cur]
  | String c s' =>
      if isSentenceEnd c
      then if inRun then splitFrom s' "" true else cur :: splitFrom s' "" true
      else splitFrom s' (cur ++ String c "")%string false
  end.

Definition splitSentences (text : string) : list string :=
  splitFrom text "" false.

(** [goal.charAt(0).toUpperCase() + goal.slice(1)], as it is on a goal
    that starts with a 7-bit character: one code unit for one code unit.
    ([toUpperCase] turns some characters beyond into two or three.) *)
Definition capitalize (goal : string) : string :=
  match goal with
  | EmptyString => EmptyString
  | String c goal' => String (Char.toUpper c) goal'
  end.

Definition extractPrimaryGoal (text : string) : string :=
  let sentences :=
    List.filter Str.truthy (List.map Str.trim (splitSentences text)) in
  match sentences with
  | sentence :: _ =>
      let goal :=
        List.fold_left (fun goal re => removeFirst re goal)
          fillerPatterns sentence in
      capitalize goal
  | [] => Str.trim text
  end.

(** The first label of a table whose pattern matches. *)
Fixpoint firstMatch {A : Type} (table : list (RegExp * A)) (text : string)
    : option A :=
  match table with
  | [] => None
  | (pattern, label) :: table' =>
      if test pattern text then Some label else firstMatch table' text
  end.

Fixpoint extractTaskTypeFrom (table : list (string * list RegExp))
    (text : string) : option string :=
  match table with
  | [] => None
  | (type, patterns) :: table' =>
      if List.existsb (fun pattern => test pattern text) patterns
      then Some type
      else extractTaskTypeFrom table' text
  end.

Definition extractTaskType (text : string) : option string :=
  extractTaskTypeFrom TASK_TYPE_PATTERNS text.

Definition extractAudience (text : string) : option string :=
  firstMatch AUDIENCE_PATTERNS text.

Definition extractDomain (text : string) : option string :=
  firstMatch DOMAIN_PATTERNS text.

(** The state of [extractConstraints]: the set [seen] and the list
    [constraints]. *)
Definition collected : Type := (list string * list Constraint.t)%type.

(** The body of the [while] loop for one extracted text. *)
Definition keep (type : ConstraintType) (acc : collected)
    (constraintText : string) : collected :=
  let (seen, constraints) := acc in
  if (3 <? String.length constraintText)
     && (String.length constraintText <? 100)
     && negb (Str.has seen (Str.toLowerCase constraintText))
  then (seen ++ [Str.toLowerCase constraintText],
        constraints ++ [Constraint.mk constraintText type])
  else acc.

(** The loop body over the matches of one pattern; [None] when [extract]
    throws. *)
Fixpoint keepAll (extract : rmatch -> option string) (type : ConstraintType)
    (ms : list rmatch) (acc : collected) : option collected :=
  match ms with
  | [] => Some acc
  | m :: ms' =>
      match extract m with
      | Some constraintText =>
          keepAll extract type ms' (keep type acc constraintText)
      | None => None
      end
  end.

(** The [for] loop over the patterns. *)
Fixpoint collect (fuel : nat) (text : string)
    (patterns : list ConstraintPattern.t) (type : ConstraintType)
    (acc : collected) : option collected :=
  match patterns with
  | [] => Some acc
  | p :: patterns' =>
      let regex := ConstraintPattern.pattern p in
      match execLoop fuel regex text 0 with
      | Some ms =>
          match keepAll (ConstraintPattern.extract p) type ms acc with
          | Some acc' => collect fuel text patterns' type acc'
          | None => None
          end
      | None => None
      end
  end.

(** [None]: the call does not return. *)
Definition extractConstraints (fuel : nat) (text : string)
    (patterns : list ConstraintPattern.t) (type : ConstraintType)
    : option (list Constraint.t) :=
  option_map snd (collect fuel text patterns type ([], [])).

(** The structure loop body: [if (match[1]) structures.push(match[1].trim())] *)
Definition pushStructure (structures : list string) (m : rmatch)
    : list string :=
  match group 1 (groups m) with
  | Some s => if Str.truthy s then structures ++ [Str.trim s] else structures
  | None => structures
  end.

Fixpoint collectStructures (fuel : nat) (text : string)
    (patterns : list RegExp) (structures : list string)
    : option (list string) :=
  match patterns with
  | [] => Some structures
  | pattern :: patterns' =>
      match execLoop fuel pattern text 0 with
      | Some ms =>
          collectStructures fuel text patterns'
            (List.fold_left pushStructure ms structures)
      | None => None
      end
  end.

Definition nonEmpty {A : Type} (l : list A) : bool :=
  match l with [] => false | _ => true end.

Definition extractOutputExpectations (fuel : nat) (text : string)
    : option (option OutputExpectation.t) :=
  let length := firstMatch LENGTH_PATTERNS text in
  let format := firstMatch formatPatterns text in
  match collectStructures fuel text structurePatterns [] with
  | Some structures =>
      Some
        (if match length with Some _ => true | None => false end
            || given format || nonEmpty structures
         then Some (OutputExpectation.mk
                (Some match length with Some l => l | None => Any end)
                format
                (if nonEmpty structures then Some structures else None))
         else None)
  | None => None
  end.

(** [!parsed.outputExpectations?.length] *)
Definition lengthUnset (o : option OutputExpectation.t) : bool :=
  match o with
  | Some e =>
      match OutputExpectation.length e with Some _ => false | None => true end
  | None => true
  end.

Definition generateAssumptions (audience domain : option string)
    (outputExpectations : option OutputExpectation.t) : list string :=
  (if given audience then []
   else ["Assuming general audience with moderate technical knowledge"])
  ++ (if lengthUnset outputExpectations
      then ["Assuming medium-length output is acceptable"] else [])
  ++ (if given domain then []
      else ["No specific domain context detected"]).

Definition parseIntent (fuel : nat) (text : string)
    : option ParsedIntent.t :=
  let primaryGoal := extractPrimaryGoal text in
  let taskType := extractTaskType text in
  let audience := extractAudience text in
  let domain := extractDomain text in
  match extractConstraints fuel text HARD_CONSTRAINT_PATTERNS Hard with
  | Some hardConstraints =>
    match extractConstraints fuel text SOFT_CONSTRAINT_PATTERNS Soft with
    | Some softConstraints =>
      match extractOutputExpectations fuel text with
      | Some outputExpectations =>
          Some (ParsedIntent.mk primaryGoal taskType audience domain
                  hardConstraints softConstraints outputExpectations
                  (generateAssumptions audience domain outputExpectations))
      | None => None
      end
    | None => None
    end
  | None => None
  end.

(* ------------------------------------------------------------------ *)
(** ** Notation renderer (modules/irlGenerator) *)

Definition dashed (s : string) : string := ("- " ++ s)%string.

Definition generateIRL (intent : Intent.t) : string :=
  let hard := Constraints.hard (Intent.constraints intent) in
  let soft := Constraints.soft (Intent.constraints intent) in
  let lines :=
    [("@goal " ++ Intent.primaryGoal intent)%string]
    ++ match Intent.taskType intent with
       | Some t => if Str.truthy t then [("@task " ++ t)%string] else []
       | None => []
       end
    ++ match Intent.audience intent with
       | Some a => if Str.truthy a then [("@audience " ++ a)%string] else []
       | None => []
       end
    ++ match Intent.domain intent with
       | Some d => if Str.truthy d then [("@domain " ++ d)%string] else []
       | None => []
       end
    ++ (if nonEmpty hard
        then [""; "@constraints hard"]
             ++ List.map (fun c => dashed (Constraint.text c)) hard
        else [])
    ++ (if nonEmpty soft
        then [""; "@preferences"]
             ++ List.map (fun c => dashed (Constraint.text c)) soft
        else [])
    ++ match Intent.outputExpectations intent with
       | Some e =>
           [""; "@output"]
           ++ match OutputExpectation.length e with
              | Some l => [("- Length: " ++ lengthName l)%string]
              | None => []
              end
           ++ match OutputExpectation.format e with
              | Some f =>
                  if Str.truthy f then [("- Format: " ++ f)%string] else []
              | None => []
              end
           ++ match OutputExpectation.structure e with
              | Some ss =>
                  if nonEmpty ss
                  then [("- Structure: " ++ Str.join ", " ss)%string]
                  else []
              | None => []
              end
       | None => []
       end
    ++ (if nonEmpty (Intent.conflicts intent)
        then [""; "@conflicts"]
             ++ List.map (fun c =>
                  dashed ((if isBlocking c then "[BLOCKING]" else "[WARNING]")
                          ++ " " ++ Conflict.description c)%string)
                  (Intent.conflicts intent)
        else [])
    ++ (if nonEmpty (Intent.assumptions intent)
        then [""; "@assumptions"] ++ List.map dashed (Intent.assumptions intent)
        else [])
  in
  Str.join (String "010" "") lines.

(* ------------------------------------------------------------------ *)
(** ** Instruction compiler (modules/promptCompiler) *)

Definition lengthMap (l : Length) : string :=
  match l with
  | Short => "Keep the response concise"
  | Medium => "Provide a balanced, moderate-length response"
  | Long => "Provide a comprehensive, detailed response"
  | Any => ""
  end.

Definition compilePrompt (intent : Intent.t) : string :=
  let contextParts :=
    match Intent.audience intent with
    | Some a =>
        if Str.truthy a then [("Target audience: " ++ a)%string] else []
    | None => []
    end
    ++ match Intent.domain intent with
       | Some d => if Str.truthy d then [("Domain: " ++ d)%string] else []
       | None => []
       end in
  let allConstraints :=
    List.map Constraint.text (Constraints.hard (Intent.constraints intent))
    ++ List.map Constraint.text (Constraints.soft (Intent.constraints intent))
  in
  let outputParts :=
    match Intent.outputExpectations intent with
    | Some e =>
        match OutputExpectation.length e with
        | Some Any => []
        | Some l => [lengthMap l]
        | None => []
        end
        ++ match OutputExpectation.format e with
           | Some f =>
               if Str.truthy f
               then [("Format the output as " ++ f)%string] else []
           | None => []
           end
        ++ match OutputExpectation.structure e with
           | Some ss =>
               if nonEmpty ss
               then [("Include: " ++ Str.join ", " ss)%string] else []
           | None => []
           end
    | None => []
    end in
  let sections :=
    [Intent.primaryGoal intent]
    ++ (if nonEmpty contextParts
        then [""; (Str.join ". " contextParts ++ ".")%string] else [])
    ++ (if nonEmpty allConstraints
        then [""; "Requirements:"] ++ List.map dashed allConstraints else [])
    ++ (if nonEmpty outputParts
        then [""; (Str.join ". " outputParts ++ ".")%string] else [])
  in
  Str.trim (Str.join (String "010" "") sections).

(* ------------------------------------------------------------------ *)
(** ** Assembler (modules/normalizer) *)

Definition normalize (fuel : nat) (input : string)
    : option NormalizeResponse.t :=
  match parseIntent fuel input with
  | Some parsed =>
      let conflicts := detectConflicts input in
      let requiresClarification := List.existsb isBlocking conflicts in
      let intent :=
        Intent.mk SCHEMA_VERSION
          (ParsedIntent.primaryGoal parsed)
          (ParsedIntent.taskType parsed)
          (ParsedIntent.audience parsed)
          (ParsedIntent.domain parsed)
          (Constraints.mk (ParsedIntent.hardConstraints parsed)
                          (ParsedIntent.softConstraints parsed))
          (ParsedIntent.outputExpectations parsed)
          conflicts
          requiresClarification
          input
          (ParsedIntent.assumptions parsed) in
      let irl := generateIRL intent in
      let compiled := compilePrompt intent in
      Some (NormalizeResponse.mk intent irl compiled)
  | None => None
  end.

(* ------------------------------------------------------------------ *)
(** ** The demo limiter (routes/demo) *)

Module Demo.

(** A value of the map [ipRequests]. *)
Record record : Type := mkRecord { count : nat; resetAt : Z }.

(** [Map<string, { count; resetAt }>]; [get] is application. *)
Definition requests : Type := string -> option record.

Definition empty : requests := fun _ => None.

(** [ipRequests.set(ip, r)] *)
Definition set (ipRequests : requests) (ip : string) (r : record)
    : requests :=
  fun k => if String.eqb k ip then Some r else ipRequests k.

Definition DEMO_RATE_LIMIT : nat := 10.
Definition WINDOW_MS : Z := 60000.

(** [now] is the value of [Date.now()].  The answer comes with the map as
    the call leaves it; [record.count++] writes to the object that the
    map holds. *)
Definition checkDemoRateLimit (now : Z) (ip : string)
    (ipRequests : requests) : bool * requests :=
  match ipRequests ip with
  | None => (true, set ipRequests ip (mkRecord 1 (now + WINDOW_MS)%Z))
  | Some record =>
      if (resetAt record <? now)%Z
      then (true, set ipRequests ip (mkRecord 1 (now + WINDOW_MS)%Z))
      else if DEMO_RATE_LIMIT <=? count record
      then (false, ipRequests)
      else (true,
            set ipRequests ip (mkRecord (count record + 1) (resetAt record)))
  end.

End Demo.

(* ------------------------------------------------------------------ *)
(** ** The key store (modules/apiKeys over db) *)

(** A row of the table [api_keys]. *)
Module ApiKey.
Record t : Type := mk {
  id : nat;
  key : string;
  name : string;
  created_at : string;
  revoked_at : option string;
  rate_limit : Z;
  monthly_limit : Z
}.
End ApiKey.

(** A row of the table [usage_logs]. *)
Module UsageLog.
Record t : Type := mk {
  id : nat;
  api_key_id : nat;
  timestamp : string;
  endpoint : string;
  input_tokens : Z;
  output_tokens : Z;
  latency_ms : Z;
  success : Z
}.
End UsageLog.

(** The two tables, rows in the order of insertion. *)
Module Db.
Record t : Type := mk {
  api_keys : list ApiKey.t;
  usage_logs : list UsageLog.t
}.
End Db.

(** A point in time by its UTC fields, the month counted from 1. *)
Module Date.

Record t : Type := mk {
  year : nat; month : nat; day : nat;
  hours : nat; minutes : nat; seconds : nat; milliseconds : nat
}.

Definition digit (n : nat) : ascii := ascii_of_nat (48 + n).

(** [n] in [w] decimal digits, zeros in front. *)
Fixpoint digits (w n : nat) : string :=
  match w with
  | O => EmptyString
  | S w' => (digits w' (n / 10) ++ String (digit (n mod 10)) "")%string
  end.

(** [Date.prototype.toISOString], for the years 0 to 9999:
    [YYYY-MM-DDTHH:mm:ss.sssZ]. *)
Definition toISOString (d : t) : string :=
  (digits 4 (year d) ++ "-" ++ digits 2 (month d) ++ "-" ++ digits 2 (day d)
   ++ "T" ++ digits 2 (hours d) ++ ":" ++ digits 2 (minutes d) ++ ":"
   ++ digits 2 (seconds d) ++ "." ++ digits 3 (milliseconds d) ++ "Z")%string.

(** SQLite's [CURRENT_TIMESTAMP], the default of the two time columns:
    [YYYY-MM-DD HH:MM:SS]. *)
Definition CURRENT_TIMESTAMP (d : t) : string :=
  (digits 4 (year d) ++ "-" ++ digits 2 (month d) ++ "-" ++ digits 2 (day d)
   ++ " " ++ digits 2 (hours d) ++ ":" ++ digits 2 (minutes d) ++ ":"
   ++ digits 2 (seconds d))%string.

End Date.

Module Sql.

(** [a >= b] on two values of type TEXT: the comparison of the bytes. *)
Definition textGe (a b : string) : bool :=
  match String.compare a b with
  | Lt => false
  | _ => true
  end.

End Sql.

Module ApiKeys.

(** [SELECT * FROM api_keys WHERE id = ?] *)
Definition getApiKeyById (db : Db.t) (id : nat) : option ApiKey.t :=
  List.find (fun row => ApiKey.id row =? id) (Db.api_keys db).

(** [SELECT * FROM api_keys WHERE key = ? AND revoked_at IS NULL] *)
Definition validateApiKey (db : Db.t) (key : string) : option ApiKey.t :=
  List.find
    (fun row =>
       String.eqb (ApiKey.key row) key
       && match ApiKey.revoked_at row with None => true | Some _ => false end)
    (Db.api_keys db).

(** [UPDATE api_keys SET revoked_at = CURRENT_TIMESTAMP WHERE id = ?], at
    the time [now]; the answer is [result.changes > 0]. *)
Definition revokeApiKey (db : Db.t) (now : Date.t) (id : nat)
    : bool * Db.t :=
  let hit (row : ApiKey.t) := ApiKey.id row =? id in
  let changes := List.length (List.filter hit (Db.api_keys db)) in
  (0 <? changes,
   Db.mk
     (List.map
        (fun row =>
           if hit row
           then ApiKey.mk (ApiKey.id row) (ApiKey.key row) (ApiKey.name row)
                  (ApiKey.created_at row)
                  (Some (Date.CURRENT_TIMESTAMP now))
                  (ApiKey.rate_limit row) (ApiKey.monthly_limit row)
           else row)
        (Db.api_keys db))
     (Db.usage_logs db)).

(** [SELECT * FROM api_keys ORDER BY created_at DESC] is left out: the
    order of rows with equal [created_at] is not fixed by the query. *)

(** [INSERT INTO usage_logs (api_key_id, endpoint, input_tokens,
    output_tokens, latency_ms, success) VALUES (?, ?, ?, ?, ?, ?)], at the
    time [now]: the row gets the next id and the default time stamp. *)
Definition logUsage (db : Db.t) (now : Date.t) (apiKeyId : nat)
    (endpoint : string) (inputTokens outputTokens latencyMs : Z)
    (success : bool) : Db.t :=
  let id :=
    S (List.fold_right Nat.max 0 (List.map UsageLog.id (Db.usage_logs db)))
  in
  Db.mk (Db.api_keys db)
    (Db.usage_logs db
     ++ [UsageLog.mk id apiKeyId (Date.CURRENT_TIMESTAMP now) endpoint
           inputTokens outputTokens latencyMs (if success then 1 else 0)%Z]).

Record verdict : Type := mkVerdict { allowed : bool; remaining : Z }.

(** [SELECT COUNT( * ) FROM usage_logs WHERE api_key_id = ? AND
    timestamp >= ?] *)
Definition countSince (db : Db.t) (apiKeyId : nat) (since : string) : Z :=
  Z.of_nat
    (List.length
       (List.filter
          (fun log =>
             (UsageLog.api_key_id log =? apiKeyId)
             && Sql.textGe (UsageLog.timestamp log) since)
          (Db.usage_logs db))).

(** [window] is the value of [new Date(Date.now() - windowMs)]. *)
Definition checkRateLimit (db : Db.t) (window : Date.t) (apiKeyId : nat)
    : verdict :=
  match getApiKeyById db apiKeyId with
  | None => mkVerdict false 0
  | Some apiKey =>
      let windowStart := Date.toISOString window in
      let count := countSince db apiKeyId windowStart in
      let remaining := Z.max 0 (ApiKey.rate_limit apiKey - count) in
      mkVerdict (count <? ApiKey.rate_limit apiKey)%Z remaining
  end.

(** The answer of [getUsageStats]. *)
Record stats : Type := mkStats {
  total_calls : Z;
  total_input_tokens : Z;
  total_output_tokens : Z;
  calls_this_month : Z
}.

(** [COALESCE(SUM(column), 0)] over the rows [logs]. *)
Definition sumOf (column : UsageLog.t -> Z) (logs : list UsageLog.t) : Z :=
  List.fold_right (fun log n => (column log + n)%Z) 0%Z logs.

(** [startOfMonth] is the value of the date built in the function: the
    first of the month at midnight, local time. *)
Definition getUsageStats (db : Db.t) (startOfMonth : Date.t)
    (apiKeyId : nat) : stats :=
  let logs :=
    List.filter (fun log => UsageLog.api_key_id log =? apiKeyId)
      (Db.usage_logs db) in
  mkStats
    (Z.of_nat (List.length logs))
    (sumOf UsageLog.input_tokens logs)
    (sumOf UsageLog.output_tokens logs)
    (countSince db apiKeyId (Date.toISOString startOfMonth)).

Definition checkMonthlyLimit (db : Db.t) (startOfMonth : Date.t)
    (apiKeyId : nat) : verdict :=
  match getApiKeyById db apiKeyId with
  | None => mkVerdict false 0
  | Some apiKey =>
      let stats := getUsageStats db startOfMonth apiKeyId in
      let remaining :=
        Z.max 0 (ApiKey.monthly_limit apiKey - calls_this_month stats) in
      mkVerdict (calls_this_month stats <? ApiKey.monthly_limit apiKey)%Z
        remaining
  end.

End ApiKeys.

(* ------------------------------------------------------------------ *)
(** ** The key check of the API routes (middleware/auth) *)

Module Auth.

(** The headers the middleware reads and the two fields it writes. *)
Record request : Type := mkRequest {
  authorization : option string;
  x_api_key : option string;
  apiKey : option ApiKey.t;
  startTime : option Z
}.

(** The middleware calls [next], or it answers with a status and a body
    of the fields [error] and [message]. *)
Inductive outcome : Type :=
| Next (req : request)
| Json (status : nat) (error message : string).

(** [now] is the value of [Date.now()]. *)
Definition requireApiKey (db : Db.t) (now : Z) (req : request) : outcome :=
  let authHeader := authorization req in
  let apiKeyHeader := x_api_key req in
  let key : option string :=
    if match authHeader with
       | Some h => String.prefix "Bearer " h
       | None => false
       end
    then option_map (Str.drop 7) authHeader
    else match apiKeyHeader with
         | Some k => if Str.truthy k then Some k else None
         | None => None
         end in
  match key with
  | Some k =>
      if Str.truthy k
      then match ApiKeys.validateApiKey db k with
           | Some apiKey =>
               Next (mkRequest (authorization req) (x_api_key req)
                       (Some apiKey) (Some now))
           | None =>
               Json 401 "Unauthorized" "Invalid or revoked API key."
           end
      else Json 401 "Unauthorized"
             "API key required. Pass via Authorization: Bearer <key> or X-API-Key header."
  | None =>
      Json 401 "Unauthorized"
        "API key required. Pass via Authorization: Bearer <key> or X-API-Key header."
  end.

End Auth.

(* ------------------------------------------------------------------ *)
(** ** The key list of the admin routes (routes/admin) *)

Module Admin.

(** [s.slice(-n)] for [0 < n]. *)
Definition sliceLast (n : nat) (s : string) : string :=
  Str.drop (String.length s - n) s.

(** [k.key.slice(0, 8) + '...' + k.key.slice(-4)] *)
Definition maskKey (key : string) : string :=
  (Str.take 8 key ++ "..." ++ sliceLast 4 key)%string.

End Admin.

(* ------------------------------------------------------------------ *)
(** ** The renderers on the intent of a reply

    [normalize] of modules/llmNormalizer builds its intent from the reply
    of the language model and checks nothing: the length of the output
    expectations is whatever text the reply has there.  The records below
    are the intent with this one field left free; [generateIRL] and
    [compilePrompt] of modules/llmNormalizer take it, and so do, under the
    names [Reply.generateIRL] and [Reply.compilePrompt], the functions of
    modules/irlGenerator and modules/promptCompiler, which JavaScript runs
    on the same objects. *)

Module Reply.

Module OutputExpectation.
Record t : Type := mk {
  length : option string;
  format : option string;
  structure : option (list string)
}.
End OutputExpectation.

Module Intent.
Record t : Type := mk {
  version : string;
  primaryGoal : string;
  taskType : option string;
  audience : option string;
  domain : option string;
  constraints : Constraints.t;
  outputExpectations : option OutputExpectation.t;
  conflicts : list Conflict.t;
  requiresClarification : bool;
  rawInput : string;
  assumptions : list string
}.
End Intent.

(** [lengthMap[x]]: the three keys of the object literal; any other name
    is looked up in [Object.prototype], for which [inherited] stands: the
    text that [join] prints for what is found under the name, if
    anything. *)
Definition lengthMapAt (inherited : string -> option string) (x : string)
    : option string :=
  if String.eqb x "short" then Some "Keep the response concise"
  else if String.eqb x "medium"
  then Some "Provide a balanced, moderate-length response"
  else if String.eqb x "long"
  then Some "Provide a comprehensive, detailed response"
  else inherited x.

(** [lengthMap[x] || ''] *)
Definition lengthPart (inherited : string -> option string) (x : string)
    : string :=
  match lengthMapAt inherited x with
  | Some text => text
  | None => ""
  end.

(** [generateIRL] of modules/irlGenerator. *)
Definition generateIRL (intent : Intent.t) : string :=
  let hard := Constraints.hard (Intent.constraints intent) in
  let soft := Constraints.soft (Intent.constraints intent) in
  let lines :=
    [("@goal " ++ Intent.primaryGoal intent)%string]
    ++ match Intent.taskType intent with
       | Some t => if Str.truthy t then [("@task " ++ t)%string] else []
       | None => []
       end
    ++ match Intent.audience intent with
       | Some a => if Str.truthy a then [("@audience " ++ a)%string] else []
       | None => []
       end
    ++ match Intent.domain intent with
       | Some d => if Str.truthy d then [("@domain " ++ d)%string] else []
       | None => []
       end
    ++ (if nonEmpty hard
        then [""; "@constraints hard"]
             ++ List.map (fun c => dashed (Constraint.text c)) hard
        else [])
    ++ (if nonEmpty soft
        then [""; "@preferences"]
             ++ List.map (fun c => dashed (Constraint.text c)) soft
        else [])
    ++ match Intent.outputExpectations intent with
       | Some e =>
           [""; "@output"]
           ++ match OutputExpectation.length e with
              | Some l =>
                  if Str.truthy l then [("- Length: " ++ l)%string] else []
              | None => []
              end
           ++ match OutputExpectation.format e with
              | Some f =>
                  if Str.truthy f then [("- Format: " ++ f)%string] else []
              | None => []
              end
           ++ match OutputExpectation.structure e with
              | Some ss =>
                  if nonEmpty ss
                  then [("- Structure: " ++ Str.join ", " ss)%string]
                  else []
              | None => []
              end
       | None => []
       end
    ++ (if nonEmpty (Intent.conflicts intent)
        then [""; "@conflicts"]
             ++ List.map (fun c =>
                  dashed ((if isBlocking c then "[BLOCKING]" else "[WARNING]")
                          ++ " " ++ Conflict.description c)%string)
                  (Intent.conflicts intent)
        else [])
    ++ (if nonEmpty (Intent.assumptions intent)
        then [""; "@assumptions"] ++ List.map dashed (Intent.assumptions intent)
        else [])
  in
  Str.join (String "010" "") lines.

(** [compilePrompt] of modules/promptCompiler. *)
Definition compilePrompt (inherited : string -> option string)
    (intent : Intent.t) : string :=
  let contextParts :=
    match Intent.audience intent with
    | Some a =>
        if Str.truthy a then [("Target audience: " ++ a)%string] else []
    | None => []
    end
    ++ match Intent.domain intent with
       | Some d => if Str.truthy d then [("Domain: " ++ d)%string] else []
       | None => []
       end in
  let allConstraints :=
    List.map Constraint.text (Constraints.hard (Intent.constraints intent))
    ++ List.map Constraint.text (Constraints.soft (Intent.constraints intent))
  in
  let outputParts :=
    match Intent.outputExpectations intent with
    | Some e =>
        match OutputExpectation.length e with
        | Some l =>
            if Str.truthy l && negb (String.eqb l "any")
            then [lengthPart inherited l] else []
        | None => []
        end
        ++ match OutputExpectation.format e with
           | Some f =>
               if Str.truthy f
               then [("Format the output as " ++ f)%string] else []
           | None => []
           end
        ++ match OutputExpectation.structure e with
           | Some ss =>
               if nonEmpty ss
               then [("Include: " ++ Str.join ", " ss)%string] else []
           | None => []
           end
    | None => []
    end in
  let sections :=
    [Intent.primaryGoal intent]
    ++ (if nonEmpty contextParts
        then [""; (Str.join ". " contextParts ++ ".")%string] else [])
    ++ (if nonEmpty allConstraints
        then [""; "Requirements:"] ++ List.map dashed allConstraints else [])
    ++ (if nonEmpty outputParts
        then [""; (Str.join ". " outputParts ++ ".")%string] else [])
  in
  Str.trim (Str.join (String "010" "") sections).

End Reply.

(** An intent of the schema as such an object. *)
Definition replyOf (intent : Intent.t) : Reply.Intent.t :=
  Reply.Intent.mk
    (Intent.version intent)
    (Intent.primaryGoal intent)
    (Intent.taskType intent)
    (Intent.audience intent)
    (Intent.domain intent)
    (Intent.constraints intent)
    (option_map
       (fun e =>
          Reply.OutputExpectation.mk
            (option_map lengthName (OutputExpectation.length e))
            (OutputExpectation.format e)
            (OutputExpectation.structure e))
       (Intent.outputExpectations intent))
    (Intent.conflicts intent)
    (Intent.requiresClarification intent)
    (Intent.rawInput intent)
    (Intent.assumptions intent).

Module Llm.

(** [generateIRL] of modules/llmNormalizer: no length line for the length
    "any". *)
Definition generateIRL (intent : Reply.Intent.t) : string :=
  let hard := Constraints.hard (Reply.Intent.constraints intent) in
  let soft := Constraints.soft (Reply.Intent.constraints intent) in
  let lines :=
    [("@goal " ++ Reply.Intent.primaryGoal intent)%string]
    ++ match Reply.Intent.taskType intent with
       | Some t => if Str.truthy t then [("@task " ++ t)%string] else []
       | None => []
       end
    ++ match Reply.Intent.audience intent with
       | Some a => if Str.truthy a then [("@audience " ++ a)%string] else []
       | None => []
       end
    ++ match Reply.Intent.domain intent with
       | Some d => if Str.truthy d then [("@domain " ++ d)%string] else []
       | None => []
       end
    ++ (if nonEmpty hard
        then [""; "@constraints hard"]
             ++ List.map (fun c => dashed (Constraint.text c)) hard
        else [])
    ++ (if nonEmpty soft
        then [""; "@preferences"]
             ++ List.map (fun c => dashed (Constraint.text c)) soft
        else [])
    ++ match Reply.Intent.outputExpectations intent with
       | Some e =>
           [""; "@output"]
           ++ match Reply.OutputExpectation.length e with
              | Some l =>
                  if Str.truthy l && negb (String.eqb l "any")
                  then [("- Length: " ++ l)%string] else []
              | None => []
              end
           ++ match Reply.OutputExpectation.format e with
              | Some f =>
                  if Str.truthy f then [("- Format: " ++ f)%string] else []
              | None => []
              end
           ++ match Reply.OutputExpectation.structure e with
              | Some ss =>
                  if nonEmpty ss
                  then [("- Structure: " ++ Str.join ", " ss)%string]
                  else []
              | None => []
              end
       | None => []
       end
    ++ (if nonEmpty (Reply.Intent.conflicts intent)
        then [""; "@conflicts"]
             ++ List.map (fun c =>
                  dashed ((if isBlocking c then "[BLOCKING]" else "[WARNING]")
                          ++ " " ++ Conflict.description c)%string)
                  (Reply.Intent.conflicts intent)
        else [])
    ++ (if nonEmpty (Reply.Intent.assumptions intent)
        then [""; "@assumptions"]
             ++ List.map dashed (Reply.Intent.assumptions intent)
        else [])
  in
  Str.join (String "010" "") lines.

(** [compilePrompt] of modules/llmNormalizer: the output parts go through
    [filter(Boolean)] before they are joined. *)
Definition compilePrompt (inherited : string -> option string)
    (intent : Reply.Intent.t) : string :=
  let contextParts :=
    match Reply.Intent.audience intent with
    | Some a =>
        if Str.truthy a then [("Target audience: " ++ a)%string] else []
    | None => []
    end
    ++ match Reply.Intent.domain intent with
       | Some d => if Str.truthy d then [("Domain: " ++ d)%string] else []
       | None => []
       end in
  let allConstraints :=
    List.map Constraint.text
      (Constraints.hard (Reply.Intent.constraints intent))
    ++ List.map Constraint.text
         (Constraints.soft (Reply.Intent.constraints intent))
  in
  let outputParts :=
    match Reply.Intent.outputExpectations intent with
    | Some e =>
        match Reply.OutputExpectation.length e with
        | Some l =>
            if Str.truthy l && negb (String.eqb l "any")
            then [Reply.lengthPart inherited l] else []
        | None => []
        end
        ++ match Reply.OutputExpectation.format e with
           | Some f =>
               if Str.truthy f
               then [("Format the output as " ++ f)%string] else []
           | None => []
           end
        ++ match Reply.OutputExpectation.structure e with
           | Some ss =>
               if nonEmpty ss
               then [("Include: " ++ Str.join ", " ss)%string] else []
           | None => []
           end
    | None => []
    end in
  let sections :=
    [Reply.Intent.primaryGoal intent]
    ++ (if nonEmpty contextParts
        then [""; (Str.join ". " contextParts ++ ".")%string] else [])
    ++ (if nonEmpty allConstraints
        then [""; "Requirements:"] ++ List.map dashed allConstraints else [])
    ++ (if nonEmpty outputParts
        then [""; (Str.join ". " (List.filter Str.truthy outputParts)
                   ++ ".")%string]
        else [])
  in
  Str.trim (Str.join (String "010" "") sections).

End Llm.

(* ------------------------------------------------------------------ *)
(** * Vocabulary of the properties *)

(** ** Conflicts *)

(** [text] contains [term] in some casing, at some position. *)
Definition containsCI (text term : string) : Prop :=
  exists a u b, text = (a ++ u ++ b)%string /\ Str.toLowerCase u = term.

(** The conflict [c] has the two terms of [rule]. *)
Definition sameTerms (rule : ConflictRule.t) (c : Conflict.t) : bool :=
  (fst (Conflict.terms c) =? fst (ConflictRule.terms rule))%string
  && (snd (Conflict.terms c) =? snd (ConflictRule.terms rule))%string.

(** ** Matches *)

Module Scan.

Local Open Scope string_scope.

(** The character before the position reached by reading [w]. *)
Fixpoint after (p : option ascii) (w : string) : option ascii :=
  match w with
  | EmptyString => p
  | String c w' => after (Some c) w'
  end.

(** The least number of characters a pattern takes. *)
Fixpoint minLen (re : regex) : nat :=
  match re with
  | Lit s => String.length s
  | One _ | Plus _ | PlusLazy _ => 1
  | Star _ | WordB | Bos | Eos | Opt _ => 0
  | Seq a b => minLen a + minLen b
  | Alt a b => Nat.min (minLen a) (minLen b)
  | Group _ a => minLen a
  end.

(** The pattern tried at position [i] of [text]. *)
Definition matchAt (ic : bool) (re : regex) (text : string) (i : nat)
    : option cursor :=
  match seek None text i with
  | Some (p, r) => run ic re (mkCursor p r i []) Some
  | None => None
  end.

(** What a match that [exec] returns from [lastIndex] on is: the pattern
    matches at [index m], up to [lastPos m], and at no position from
    [lastIndex] up to there. *)
Definition found (re : RegExp) (text : string) (lastIndex : nat) (m : rmatch)
    : Prop :=
  exists st,
    matchAt (ignoreCase re) (source re) text (index m) = Some st
    /\ lastPos m = pos st /\ groups m = caps st
    /\ lastIndex <= index m
    /\ index m + minLen (source re) <= lastPos m <= String.length text
    /\ forall j, lastIndex <= j < index m ->
         matchAt (ignoreCase re) (source re) text j = None.

(** The matches of the loop, from [lastIndex] on: each is the first match
    at or after the end of the one before. *)
Fixpoint chained (re : RegExp) (text : string) (lastIndex : nat)
    (ms : list rmatch) : Prop :=
  match ms with
  | [] => True
  | m :: ms' => found re text lastIndex m /\ chained re text (lastPos m) ms'
  end.

(** The matches of the loop are in order and do not overlap. *)
Fixpoint ordered (from : nat) (ms : list rmatch) : Prop :=
  match ms with
  | [] => True
  | m :: ms' =>
      from <= index m /\ index m < lastPos m /\ ordered (lastPos m) ms'
  end.

End Scan.

(** ** Constraints *)

(** The texts the loop body of [extractConstraints] is run on, in scan
    order: every match of the first pattern, then of the second, ... *)
Fixpoint extracted (extract : rmatch -> option string) (ms : list rmatch)
    : option (list string) :=
  match ms with
  | [] => Some []
  | m :: ms' =>
      match extract m, extracted extract ms' with
      | Some t, Some ts => Some (t :: ts)
      | _, _ => None
      end
  end.

(** The same over all the patterns of a list: the candidates. *)
Fixpoint candidates (fuel : nat) (text : string)
    (patterns : list ConstraintPattern.t) : option (list string) :=
  match patterns with
  | [] => Some []
  | p :: patterns' =>
      match execLoop fuel (ConstraintPattern.pattern p) text 0 with
      | Some ms =>
          match extracted (ConstraintPattern.extract p) ms,
                candidates fuel text patterns' with
          | Some ts, Some ts' => Some (ts ++ ts')
          | _, _ => None
          end
      | None => None
      end
  end.

(** The length test of the loop body. *)
Definition inBounds (t : string) : Prop :=
  4 <= String.length t <= 99.

(** The key under which a constraint is remembered in [seen]. *)
Definition lowerText (c : Constraint.t) : string :=
  Str.toLowerCase (Constraint.text c).

(** The two constraint lists of a response. *)
Definition hardOf (r : NormalizeResponse.t) : list Constraint.t :=
  Constraints.hard (Intent.constraints (NormalizeResponse.intent r)).

Definition softOf (r : NormalizeResponse.t) : list Constraint.t :=
  Constraints.soft (Intent.constraints (NormalizeResponse.intent r)).

(** Every entry of [cs] is a candidate, and no candidate before it has
    the same text up to case. *)
Definition keepsFirst (ts : list string) (cs : list Constraint.t) : Prop :=
  forall c, In c cs ->
    exists before later,
      ts = before ++ Constraint.text c :: later
      /\ forall t, In t before -> Str.toLowerCase t <> lowerText c.

Module Kept.

(** What holds of [seen] and [constraints] after the loop body ran on the
    candidates [done]. *)
Record invariant (type : ConstraintType) (done : list string)
    (acc : collected) : Prop := {
  seen_lowered : fst acc = List.map lowerText (snd acc);
  seen_NoDup : NoDup (fst acc);
  kept_ok : forall c, In c (snd acc) ->
    inBounds (Constraint.text c) /\ Constraint.type c = type;
  all_seen : forall t, In t done -> inBounds t ->
    In (Str.toLowerCase t) (fst acc);
  kept_first : forall c, In c (snd acc) ->
    exists before later,
      done = before ++ Constraint.text c :: later
      /\ forall t, In t before -> Str.toLowerCase t <> lowerText c
}.

End Kept.

(** ** Clauses *)

Module Clause.

Import Scan.
Local Open Scope string_scope.

(** The characters that [clauseEnd] takes. *)
Definition isStop (c : ascii) : bool :=
  Ascii.eqb c "." || Ascii.eqb c ",".

(** The text right after a clause: the end of the input, or a full stop or
    a comma. *)
Definition stopped (right : string) : Prop :=
  match right with
  | EmptyString => True
  | String c _ => isStop c = true
  end.

(** The number of characters [clauseEnd] takes. *)
Definition stopWidth (right : string) : nat :=
  match right with EmptyString => 0 | String _ _ => 1 end.

(** A clause read from [rest]: at least one character, none of them a
    line terminator, none after the first a full stop or a comma, and a
    stop right after it. *)
Record clauseAt (cl right : string) : Prop := {
  clause_nonempty : cl <> "";
  clause_one_line :
    Str.forallb (fun c => negb (Char.isLineTerminator c)) cl = true;
  clause_unbroken :
    Str.forallb (fun c => negb (isStop c)) (Str.drop 1 cl) = true;
  clause_stopped : stopped right
}.

(** A pattern that ends in [(.+?)(?:\.|,|$)], after a part that takes at
    least [n] characters. *)
Inductive clausal : nat -> regex -> Prop :=
| clausal_end : clausal 0 (Seq clause clauseEnd)
| clausal_seq (a b : regex) (n : nat) :
    clausal n b -> clausal (minLen a + n) (Seq a b).

(** What a clause becomes in the list: trimmed, and led by the trigger
    word for the rules of "no" and "without". *)
Definition phrased (cl t : string) : Prop :=
  t = Str.trim cl
  \/ t = "no " ++ Str.trim cl
  \/ t = "without " ++ Str.trim cl.

(** What the thirteen rules have in common. *)
Record ruleOk (p : ConstraintPattern.t) : Prop := {
  rule_global : global (ConstraintPattern.pattern p) = true;
  rule_clausal : exists n,
    3 <= n
    /\ clausal n (source (ConstraintPattern.pattern p));
  rule_extract : forall m cl,
    group 1 (groups m) = Some cl ->
    exists t, ConstraintPattern.extract p m = Some t /\ phrased cl t
}.

(** A match [m] of rule [p] in [text] and the text [t] made of it: the
    clause lies after the trigger, which takes three characters or more. *)
Definition clauseOf (p : ConstraintPattern.t) (text : string) (m : rmatch)
    (t : string) : Prop :=
  exists left cl right,
    text = left ++ cl ++ right
    /\ index m + 3 <= String.length left
    /\ clauseAt cl right
    /\ group 1 (groups m) = Some cl
    /\ lastPos m = String.length left + String.length cl + stopWidth right
    /\ ConstraintPattern.extract p m = Some t
    /\ phrased cl t.

End Clause.

(** The clause as the specification words it: from the end of the
    trigger up to the next of [.], [!], [?] or the end, trimmed. *)
Fixpoint upToSentenceEnd (s : string) : string :=
  match s with
  | EmptyString => EmptyString
  | String c s' =>
      if isSentenceEnd c then EmptyString else String c (upToSentenceEnd s')
  end.

Definition clauseAsStated (afterTrigger : string) : string :=
  Str.trim (upToSentenceEnd afterTrigger).

(** The scan of one rule [p] over [input], against the list [cs] it
    feeds: the matches are in order and do not overlap, every position at
    which the pattern matches is the start of one of them or lies inside
    one, and the text of each match is in [cs], up to case, when its
    length is in bounds. *)
Definition scanned (fuel : nat) (input : string) (p : ConstraintPattern.t)
    (cs : list Constraint.t) : Prop :=
  exists ms,
    execLoop fuel (ConstraintPattern.pattern p) input 0 = Some ms
    /\ Scan.ordered 0 ms
    /\ (forall j,
          Scan.matchAt (ignoreCase (ConstraintPattern.pattern p))
            (source (ConstraintPattern.pattern p)) input j <> None ->
          exists m, In m ms /\ index m <= j < lastPos m)
    /\ (forall m, In m ms ->
          exists t,
            Clause.clauseOf p input m t
            /\ (inBounds t ->
                In (Str.toLowerCase t) (List.map lowerText cs))).

(** ** The primary goal *)

(** The non-empty trimmed pieces of the input between runs of [.], [!]
    and [?]. *)
Definition sentences (text : string) : list string :=
  List.filter Str.truthy (List.map Str.trim (splitSentences text)).

(** The goal as the specification words it: at most one filler phrase is
    removed, the first of the list that the sentence starts with. *)
Fixpoint removeFirstMatching (patterns : list RegExp) (s : string) : string :=
  match patterns with
  | [] => s
  | re :: patterns' =>
      if test re s then removeFirst re s else removeFirstMatching patterns' s
  end.

Definition goalAsStated (text : string) : string :=
  match sentences text with
  | sentence :: _ => capitalize (removeFirstMatching fillerPatterns sentence)
  | [] => Str.trim text
  end.

(** The filler phrases in words.  Two letters are the same up to case: *)
Definition sameLetter (a c : ascii) : bool :=
  Ascii.eqb (Char.toUpper a) (Char.toUpper c).

(** [s] starts with the word [w] in some casing: what follows it. *)
Fixpoint afterWord (w s : string) : option string :=
  match w, s with
  | EmptyString, _ => Some s
  | String a w', String c s' =>
      if sameLetter a c then afterWord w' s' else None
  | String _ _, EmptyString => None
  end.

(** [s] starts with white space: what follows all of it. *)
Definition afterSpaces (s : string) : option string :=
  match s with
  | String c s' => if Char.isSpace c then Some (Str.trimStart s') else None
  | EmptyString => None
  end.

(** [s] starts with the words [ws], each followed by white space. *)
Fixpoint afterPhrase (ws : list string) (s : string) : option string :=
  match ws with
  | [] => Some s
  | w :: ws' =>
      match afterWord w s with
      | Some s1 =>
          match afterSpaces s1 with
          | Some s2 => afterPhrase ws' s2
          | None => None
          end
      | None => None
      end
  end.

(** Remove the first of the [phrases] that [s] starts with. *)
Fixpoint dropFiller (phrases : list (list string)) (s : string) : string :=
  match phrases with
  | [] => s
  | ws :: phrases' =>
      match afterPhrase ws s with
      | Some s' => s'
      | None => dropFiller phrases' s
      end
  end.

(** The five fillers, in the order of [extractPrimaryGoal]; the first and
    the last have a long and a short form. *)
Definition fillers : list (list (list string)) := [
  [["i"; "want"; "you"; "to"]; ["i"; "want"; "to"]];
  [["please"]];
  [["can"; "you"]];
  [["help"; "me"]];
  [["i"; "need"; "you"; "to"]; ["i"; "need"; "to"]]
].

(** One pass over the fillers: each is removed from what the ones before
    it left. *)
Definition dropFillers (sentence : string) : string :=
  List.fold_left (fun goal phrases => dropFiller phrases goal)
    fillers sentence.

(** Continuations of the matcher, seen from the remaining input. *)
Module Track.

Definition bind (o : option string) (f : string -> option string)
    : option string :=
  match o with Some s => f s | None => None end.

(** A continuation whose outcome depends on the remaining input only. *)
Definition tracks (k : cursor -> option cursor)
    (f : string -> option string) : Prop :=
  forall st, option_map rest (k st) = f (rest st).

(** [f] fails on a string that starts with white space. *)
Definition rejectsSpace (f : string -> option string) : Prop :=
  forall c r, Char.isSpace c = true -> f (String c r) = None.

(** Giving back white space does not help [f]. *)
Definition lenient (f : string -> option string) : Prop :=
  forall c r, Char.isSpace c = true ->
    f (Str.trimStart r) = None -> f (String c r) = None.

(** A word that does not start with white space. *)
Definition wordy (w : string) : Prop :=
  match w with
  | String a _ => Char.isSpace a = false
  | EmptyString => False
  end.

End Track.

(** ** What a pattern matches *)

Module Sem.

Import Scan.
Local Open Scope string_scope.

(** [w] is [s], letter for letter, up to case when [ic] is set. *)
Fixpoint spells (ic : bool) (s w : string) : bool :=
  match s, w with
  | EmptyString, EmptyString => true
  | String a s', String c w' =>
      Ascii.eqb (canonicalize ic a) (canonicalize ic c) && spells ic s' w'
  | _, _ => false
  end.

(** [matches ic re p i w r]: the pattern [re] can take exactly [w], at
    index [i], after the character [p] and before the text [r]. *)
Inductive matches (ic : bool)
    : regex -> option ascii -> nat -> string -> string -> Prop :=
| m_Lit s p i w r :
    spells ic s w = true -> matches ic (Lit s) p i w r
| m_One cs c p i r :
    mem ic cs c = true -> matches ic (One cs) p i (String c "") r
| m_Star cs p i w r :
    Str.forallb (mem ic cs) w = true -> matches ic (Star cs) p i w r
| m_Plus cs p i c w r :
    Str.forallb (mem ic cs) (String c w) = true ->
    matches ic (Plus cs) p i (String c w) r
| m_PlusLazy cs p i c w r :
    Str.forallb (mem ic cs) (String c w) = true ->
    matches ic (PlusLazy cs) p i (String c w) r
| m_WordB p i r :
    atWordBoundary p r = true -> matches ic WordB p i "" r
| m_Bos p r : matches ic Bos p 0 "" r
| m_Eos p i : matches ic Eos p i "" ""
| m_Seq a b p i w1 w2 r :
    matches ic a p i w1 (w2 ++ r) ->
    matches ic b (after p w1) (i + String.length w1) w2 r ->
    matches ic (Seq a b) p i (w1 ++ w2) r
| m_AltL a b p i w r : matches ic a p i w r -> matches ic (Alt a b) p i w r
| m_AltR a b p i w r : matches ic b p i w r -> matches ic (Alt a b) p i w r
| m_OptNone a p i r : matches ic (Opt a) p i "" r
| m_OptSome a p i w r : matches ic a p i w r -> matches ic (Opt a) p i w r
| m_Group n a p i w r : matches ic a p i w r -> matches ic (Group n a) p i w r.

(** The pattern matches somewhere in [text]. *)
Definition matchesIn (re : RegExp) (text : string) : Prop :=
  exists pre w post,
    text = pre ++ w ++ post
    /\ matches (ignoreCase re) (source re) (after None pre)
         (String.length pre) w post.

(** [text] has [s] as a whole word: spelled out at some position, with a
    word boundary on either side. *)
Definition occursAsWord (ic : bool) (text s : string) : Prop :=
  exists pre w post,
    text = pre ++ w ++ post
    /\ spells ic s w = true
    /\ atWordBoundary (after None pre) (w ++ post) = true
    /\ atWordBoundary (after None (pre ++ w)) post = true.

End Sem.

(** ** The word tables *)

(** One of the words [ws] occurs in [text] as a whole word. *)
Definition triggered (ic : bool) (text : string) (ws : list string) : Prop :=
  exists s, In s ws /\ Sem.occursAsWord ic text s.

(** The trigger words of the task types, in priority order. *)
Definition TASK_WORDS : list (string * list string) := [
  ("generate",
   ["create"; "generate"; "build"; "make"; "write"; "produce"; "design"]);
  ("analyze", ["analyze"; "examine"; "review"; "evaluate"; "assess"; "audit"]);
  ("explain", ["explain"; "describe"; "clarify"; "elaborate"; "break down"]);
  ("fix", ["fix"; "repair"; "debug"; "solve"; "resolve"; "correct"]);
  ("optimize", ["optimize"; "improve"; "enhance"; "refactor"; "streamline"]);
  ("convert", ["convert"; "transform"; "translate"; "migrate"; "port"]);
  ("summarize", ["summarize"; "condense"; "tldr"; "brief"; "overview"])
].

(** The trigger words of the output lengths. *)
Definition SHORT_WORDS : list string :=
  ["brief"; "short"; "concise"; "quick"; "simple"].
Definition LONG_WORDS : list string :=
  ["detailed"; "comprehensive"; "thorough"; "in-depth"; "exhaustive"; "long"].
Definition MEDIUM_WORDS : list string := ["moderate"; "medium"; "balanced"].

(** The trigger words of the domains, in priority order; "e-?commerce" is
    spelled out. *)
Definition DOMAIN_WORDS : list (list string * string) := [
  (["web"; "website"; "frontend"; "react"; "vue"; "angular"],
   "web development");
  (["mobile"; "ios"; "android"; "app"], "mobile development");
  (["api"; "backend"; "server"; "database"], "backend development");
  (["ml"; "machine learning"; "ai"; "data science"], "machine learning");
  (["devops"; "ci/cd"; "deployment"; "infrastructure"], "devops");
  (["marketing"; "seo"; "growth"; "analytics"], "marketing");
  (["finance"; "banking"; "trading"; "investment"], "finance");
  (["healthcare"; "medical"; "health"], "healthcare");
  (["ecommerce"; "e-commerce"; "shopping"; "retail"], "e-commerce");
  (["education"; "learning"; "teaching"], "education")
].

(** A row of a table: its pattern tests true on the texts that have one
    of its words. *)
Definition rowOf (re : RegExp) (ws : list string) : Prop :=
  forall text, test re text = true <-> triggered (ignoreCase re) text ws.

(** The pattern of a task type is made of the words of its row. *)
Definition taskRow (row : string * list string) : string * list RegExp :=
  (fst row, [flagI (wholeWord (List.map Lit (snd row)))]).

(** [text] has [word], white space and then [s], as whole words. *)
Definition occursAfter (word : string) (ic : bool) (text s : string)
    : Prop :=
  exists pre f sp u post,
    text = (pre ++ f ++ sp ++ u ++ post)%string
    /\ Sem.spells ic word f = true
    /\ sp <> EmptyString /\ Str.forallb Char.isSpace sp = true
    /\ Sem.spells ic s u = true
    /\ atWordBoundary (Scan.after None pre) (f ++ sp ++ u ++ post) = true
    /\ atWordBoundary (Scan.after None (pre ++ f ++ sp ++ u)) post = true.

(** One of the words [ws] occurs in [text] after [word]. *)
Definition triggeredAfter (word : string) (text : string) (ws : list string)
    : Prop :=
  exists s, In s ws /\ occursAfter word true text s.

Definition triggeredAfterFor : string -> list string -> Prop :=
  triggeredAfter "for".

(** [\bword\s+(a1|a2|...)\b], the shape of [forWhom] and of
    [withSections]. *)
Definition afterThe (word : string) (alternatives : list regex) : regex :=
  seq [WordB; Lit word; Plus Space; Group 1 (alt alternatives); WordB].

(** The words that name a structure after "with". *)
Definition SECTION_WORDS : list string :=
  ["section"; "sections"; "part"; "parts"; "chapter"; "chapters"].

(** The audiences that are named after "for", in priority order, with
    the plurals spelled out. *)
Definition AUDIENCE_WORDS : list (list string * string) := [
  (["beginner"; "beginners"; "newbie"; "newbies"; "novice"; "novices"],
   "beginners");
  (["expert"; "experts"; "advanced user"; "advanced users";
    "professional"; "professionals"],
   "experts");
  (["developer"; "developers"; "dev"; "devs"; "engineer"; "engineers";
    "programmer"; "programmers"],
   "developers");
  (["manager"; "managers"; "executive"; "executives"; "leadership"],
   "managers");
  (["designer"; "designers"; "ux"; "ui"], "designers");
  (["student"; "students"; "learner"; "learners"], "students");
  (["customer"; "customers"; "user"; "users"; "client"; "clients"],
   "end users");
  (["founder"; "founders"; "startup"; "startups"; "entrepreneur";
    "entrepreneurs"],
   "startup founders");
  (["children"; "kids"], "children")
].

(** [text] has exactly [s] as a whole word. *)
Definition occursExactly (text s : string) : Prop :=
  exists pre post,
    text = (pre ++ s ++ post)%string
    /\ atWordBoundary (Scan.after None pre) (s ++ post) = true
    /\ atWordBoundary (Scan.after None (pre ++ s)) post = true.

(** The three notes of [generateAssumptions]. *)
Definition NOTE_AUDIENCE : string :=
  "Assuming general audience with moderate technical knowledge".
Definition NOTE_LENGTH : string :=
  "Assuming medium-length output is acceptable".
Definition NOTE_DOMAIN : string := "No specific domain context detected".

(** The labels of the tables. *)
Definition TASK_LABELS : list string :=
  ["generate"; "analyze"; "explain"; "fix"; "optimize"; "convert";
   "summarize"].
Definition FORMAT_LABELS : list string :=
  ["JSON"; "Markdown"; "HTML"; "bullet points"; "table"; "code"].

(** ** Trimmed strings *)

(** [s] does not start with white space. *)
Definition startsClean (s : string) : Prop :=
  match s with
  | EmptyString => True
  | String c _ => Char.isSpace c = false
  end.

(** [s] has none of [.], [!] and [?]. *)
Definition plain (s : string) : Prop :=
  Str.forallb (fun c => negb (isSentenceEnd c)) s = true.

(** [s] is made of white space, [.], [!] and [?] only. *)
Definition blank (s : string) : Prop :=
  Str.forallb (fun c => Char.isSpace c || isSentenceEnd c) s = true.

(** A string that is not empty and has no white space at either end. *)
Definition clean (s : string) : Prop :=
  s <> EmptyString /\ startsClean s /\ Str.trimEnd s = s.

(** ** The two renderers *)

(** The characters of the lines of a text. *)
Definition total (lines : list string) : nat :=
  List.fold_right (fun l n => String.length l + n) 0 lines.

(** ** Runs of the demo limiter *)

(** The answers to a run of calls, each a time and an address, in the
    order of the calls. *)
Fixpoint serve (calls : list (Z * string)) (ipRequests : Demo.requests)
    : list (Z * string * bool) :=
  match calls with
  | [] => []
  | (now, ip) :: calls' =>
      let (ok, ipRequests') := Demo.checkDemoRateLimit now ip ipRequests in
      (now, ip, ok) :: serve calls' ipRequests'
  end.

(** The calls of one address. *)
Definition fromAddress (ip : string) (call : Z * string) : bool :=
  String.eqb (snd call) ip.

(** No window of [ip] is open at the time [now]. *)
Definition noWindow (ipRequests : Demo.requests) (ip : string) (now : Z)
    : Prop :=
  match ipRequests ip with
  | None => True
  | Some record => (Demo.resetAt record < now)%Z
  end.

(** ** Dates and keys *)

(** Fields in the ranges of a date of the years 0 to 9999. *)
Definition validDate (d : Date.t) : Prop :=
  Date.year d < 100 * 100
  /\ 1 <= Date.month d <= 12 /\ 1 <= Date.day d <= 31
  /\ Date.hours d <= 23 /\ Date.minutes d <= 59 /\ Date.seconds d <= 59
  /\ Date.milliseconds d <= 999.

(** The calendar day of [a] is after the calendar day of [b]. *)
Definition laterDay (a b : Date.t) : bool :=
  (Date.year b <? Date.year a)
  || ((Date.year a =? Date.year b)
      && ((Date.month b <? Date.month a)
          || ((Date.month a =? Date.month b)
              && (Date.day b <? Date.day a)))).

(** The constraints of the table [api_keys]: [id] is the primary key and
    [key] is unique. *)
Definition keysUnique (db : Db.t) : Prop :=
  NoDup (List.map ApiKey.id (Db.api_keys db))
  /\ NoDup (List.map ApiKey.key (Db.api_keys db)).

(** The header [Authorization] is of the form [Bearer ...]. *)
Definition bearer (authorization : option string) : Prop :=
  exists token, authorization = Some ("Bearer " ++ token)%string.

(** The request presents [key]: as the bearer token, or in the header
    [X-API-Key] when [Authorization] is not of the bearer form. *)
Definition presents (req : Auth.request) (key : string) : Prop :=
  Auth.authorization req = Some ("Bearer " ++ key)%string
  \/ (~ bearer (Auth.authorization req) /\ Auth.x_api_key req = Some key).

(** The row [k] with the time of revocation [now]. *)
Definition revokedAt (now : Date.t) (k : ApiKey.t) : ApiKey.t :=
  ApiKey.mk (ApiKey.id k) (ApiKey.key k) (ApiKey.name k)
    (ApiKey.created_at k) (Some (Date.CURRENT_TIMESTAMP now))
    (ApiKey.rate_limit k) (ApiKey.monthly_limit k).

(** The update of [revokeApiKey] on one row. *)
Definition revokeRow (now : Date.t) (id : nat) (row : ApiKey.t) : ApiKey.t :=
  if ApiKey.id row =? id then revokedAt now row else row.

(** ** Trigger phrases *)

Module Trigger.

Import Scan.
Local Open Scope string_scope.

(** An item of a trigger phrase: a word, or the white space after a
    word; after "possible" commas go with the white space. *)
Inductive item : Type :=
| Word (w : string)
| Blank
| BlankOrComma.

Definition isBlankOrComma (c : ascii) : bool :=
  Char.isSpace c || Ascii.eqb c ",".

(** [trig] reads the items one after the other: a word letter for letter
    in any casing, and white space as one character of it or more. *)
Fixpoint reads (items : list item) (trig : string) : Prop :=
  match items with
  | [] => trig = ""
  | Word w :: items' =>
      exists u rest,
        trig = u ++ rest /\ Sem.spells true w u = true /\ reads items' rest
  | Blank :: items' =>
      exists sp rest,
        trig = sp ++ rest /\ sp <> ""
        /\ Str.forallb Char.isSpace sp = true /\ reads items' rest
  | BlankOrComma :: items' =>
      exists sp rest,
        trig = sp ++ rest /\ sp <> ""
        /\ Str.forallb isBlankOrComma sp = true /\ reads items' rest
  end.

(** A rule in words: the forms of its trigger phrase, and what it puts
    in front of the trimmed clause. *)
Record rule : Type := mkRule {
  phrases : list (list item);
  lead : string
}.

(** The seven rules of the hard constraints, in the order of the table. *)
Definition HARD_RULES : list rule := [
  mkRule [[Word "must"; Blank];
          [Word "must"; Blank; Word "be"; Blank]] "";
  mkRule [[Word "require"; Blank];
          [Word "require"; Blank; Word "to"; Blank];
          [Word "required"; Blank];
          [Word "required"; Blank; Word "to"; Blank]] "";
  mkRule [[Word "has"; Blank; Word "to"; Blank]] "";
  mkRule [[Word "need"; Blank; Word "to"; Blank];
          [Word "needs"; Blank; Word "to"; Blank]] "";
  mkRule [[Word "ensure"; Blank]] "";
  mkRule [[Word "no"; Blank]] "no ";
  mkRule [[Word "without"; Blank]] "without "
].

(** The six rules of the soft constraints. *)
Definition SOFT_RULES : list rule := [
  mkRule [[Word "preferably"; Blank]] "";
  mkRule [[Word "ideally"; Blank]] "";
  mkRule [[Word "should"; Blank];
          [Word "should"; Blank; Word "be"; Blank]] "";
  mkRule [[Word "would"; Blank; Word "be"; Blank; Word "nice"; Blank];
          [Word "would"; Blank; Word "be"; Blank; Word "nice"; Blank;
           Word "to"; Blank]] "";
  mkRule [[Word "if"; Blank; Word "possible"; BlankOrComma]] "";
  mkRule [[Word "optionally"; Blank]] ""
].

(** The rule makes the text [t] of a clause of [input]: the trigger
    phrase starts at a word boundary, the clause comes right after it,
    and [t] is the clause trimmed, after the lead of the rule. *)
Definition makes (r : rule) (input t : string) : Prop :=
  exists before trig cl right phrase,
    input = before ++ trig ++ cl ++ right
    /\ atWordBoundary (after None before) (trig ++ cl ++ right) = true
    /\ In phrase (phrases r) /\ reads phrase trig
    /\ Clause.clauseAt cl right
    /\ t = lead r ++ Str.trim cl.

(** The white space of a pattern as an item. *)
Definition separator (cs : cset) : option item :=
  match cs with
  | Space => Some Blank
  | Union (OneOf s) Space =>
      if String.eqb s "," then Some BlankOrComma else None
  | _ => None
  end.

(** The forms that the parts of a pattern before the clause can take. *)
Fixpoint expand (re : regex) : list (list item) :=
  match re with
  | Lit w => [[Word w]]
  | Plus cs =>
      match separator cs with Some it => [[it]] | None => [] end
  | Opt a => [] :: expand a
  | Seq a b =>
      List.flat_map (fun x => List.map (fun y => x ++ y)%list (expand b))
        (expand a)
  | _ => []
  end.

(** The patterns [expand] knows. *)
Fixpoint plainTrigger (re : regex) : bool :=
  match re with
  | Lit _ => true
  | Plus cs => match separator cs with Some _ => true | None => false end
  | Opt a => plainTrigger a
  | Seq a b => plainTrigger a && plainTrigger b
  | _ => false
  end.

(** A pattern of the program against a rule in words: the pattern is
    [\b], then parts that read as a phrase of the rule, then the clause
    and its end; the text is made as the rule says. *)
Definition sameRule (p : ConstraintPattern.t) (r : rule) : Prop :=
  exists parts,
    parts <> []
    /\ source (ConstraintPattern.pattern p)
       = seq (WordB :: parts ++ [clause; clauseEnd])
    /\ ignoreCase (ConstraintPattern.pattern p) = true
    /\ global (ConstraintPattern.pattern p) = true
    /\ plainTrigger (seq parts) = true
    /\ (forall items trig,
          In items (expand (seq parts)) -> reads items trig ->
          exists phrase, In phrase (phrases r) /\ reads phrase trig)
    /\ (forall m cl,
          group 1 (groups m) = Some cl ->
          ConstraintPattern.extract p m = Some (lead r ++ Str.trim cl)).

End Trigger.

(** ** The two pairs of renderers *)

(** The output expectations of the reply have the length [x]. *)
Definition lengthIs (x : string) (intent : Reply.Intent.t) : Prop :=
  exists e,
    Reply.Intent.outputExpectations intent = Some e
    /\ Reply.OutputExpectation.length e = Some x.

(** The length of the reply is a text that [lengthMap] has nothing for:
    it is not empty, not "any", none of the three keys, and no name that
    is inherited. *)
Definition strayLength (inherited : string -> option string)
    (intent : Reply.Intent.t) : Prop :=
  exists x,
    lengthIs x intent
    /\ x <> EmptyString /\ x <> "any"%string
    /\ Reply.lengthMapAt inherited x = None.

(** The reply asks for a format or for a structure. *)
Definition otherParts (intent : Reply.Intent.t) : Prop :=
  exists e,
    Reply.Intent.outputExpectations intent = Some e
    /\ ((exists f, Reply.OutputExpectation.format e = Some f
                   /\ f <> EmptyString)
        \/ (exists s ss, Reply.OutputExpectation.structure e
                         = Some (s :: ss))).

(** ** Text of 7-bit characters *)

(** Every character of the text is a 7-bit ASCII character: the texts on
    which [toUpperCase] maps one code unit to one code unit. *)
Definition asciiText (s : string) : Prop :=
  Str.forallb (fun c => (Char.code c <? 128)%nat) s = true.

(* ------------------------------------------------------------------ *)
(** * Properties *)

(** ** Strings *)

Module StrFacts.

Lemma app_nil_r (a : string) : (a ++ "")%string = a.
Proof. induction a as [|c a IH]; simpl; [reflexivity | now rewrite IH]. Qed.

Lemma app_assoc (a b c : string) : ((a ++ b) ++ c)%string = (a ++ b ++ c)%string.
Proof. induction a as [|x a IH]; simpl; [reflexivity | now rewrite IH]. Qed.

Lemma length_app (a b : string) :
  String.length (a ++ b) = String.length a + String.length b.
Proof. induction a as [|x a IH]; simpl; [reflexivity | now rewrite IH]. Qed.

Lemma map_app (f : ascii -> ascii) (a b : string) :
  Str.map f (a ++ b) = (Str.map f a ++ Str.map f b)%string.
Proof. induction a as [|x a IH]; simpl; [reflexivity | now rewrite IH]. Qed.

Lemma length_map (f : ascii -> ascii) (s : string) :
  String.length (Str.map f s) = String.length s.
Proof. induction s as [|x s IH]; simpl; [reflexivity | now rewrite IH]. Qed.

(** A mapped string splits where its image does. *)
Lemma map_app_inv (f : ascii -> ascii) (s x y : string) :
  Str.map f s = (x ++ y)%string ->
  exists s1 s2, s = (s1 ++ s2)%string /\ Str.map f s1 = x /\ Str.map f s2 = y.
Proof.
  revert s; induction x as [|c x IH]; intros s H.
  - exists "", s. auto.
  - destruct s as [|d s]; [discriminate|].
    simpl in H. injection H as Hc Hs.
    destruct (IH _ Hs) as (s1 & s2 & -> & <- & <-).
    exists (String d s1), s2. simpl. now rewrite Hc.
Qed.

Lemma prefix_iff (t s : string) :
  String.prefix t s = true <-> exists b, s = (t ++ b)%string.
Proof.
  revert t; induction s as [|c s IH]; intros [|d t]; simpl.
  - split; [exists ""; reflexivity | reflexivity].
  - split; [discriminate | intros [b H]; discriminate].
  - split; [exists (String c s); reflexivity | reflexivity].
  - destruct (ascii_dec d c) as [->|Hne].
    + rewrite IH. split; intros [b H]; exists b; congruence.
    + split; [discriminate | intros [b H]; congruence].
Qed.

(** [includes] finds exactly the occurrences at some position. *)
Lemma includes_iff (s t : string) :
  Str.includes s t = true <-> exists a b, s = (a ++ t ++ b)%string.
Proof.
  induction s as [|c s IH].
  - cbn [Str.includes]. rewrite orb_false_r, prefix_iff. split.
    + intros [b H]. exists "", b. exact H.
    + intros (a & b & H). destruct a; [exists b; exact H|discriminate].
  - cbn [Str.includes]. rewrite orb_true_iff, prefix_iff, IH. split.
    + intros [[b H] | (a & b & H)].
      * exists "", b. exact H.
      * exists (String c a), b. simpl. now rewrite H.
    + intros (a & b & H). destruct a as [|x a].
      * left. exists b. exact H.
      * right. simpl in H. injection H as _ H. exists a, b. exact H.
Qed.

(** A string splits at every index inside it. *)
Lemma split_at (n : nat) (s : string) :
  n < String.length s ->
  exists s1 s2, s = (s1 ++ s2)%string /\ String.length s1 = n /\ s2 <> "".
Proof.
  revert s; induction n as [|n IH]; intros [|c s] H; simpl in H; try lia.
  - exists "", (String c s). repeat split. discriminate.
  - destruct (IH s ltac:(lia)) as (s1 & s2 & -> & <- & Hne).
    now exists (String c s1), s2.
Qed.

(** Two splits of one string: the shorter left part is a prefix of the
    longer. *)
Lemma app_eq_app (a b c d : string) :
  (a ++ b)%string = (c ++ d)%string -> String.length a <= String.length c ->
  exists e, c = (a ++ e)%string /\ b = (e ++ d)%string.
Proof.
  revert c; induction a as [|x a IH]; intros c H Hle; simpl in *.
  - now exists c.
  - destruct c as [|y c]; simpl in *; [lia|].
    injection H as -> H. destruct (IH c H ltac:(lia)) as (e & -> & ->).
    now exists e.
Qed.

End StrFacts.

(* ------------------------------------------------------------------ *)
(** ** The conflict detector *)

Lemma includes_lower_iff (text term : string) :
  Str.includes (Str.toLowerCase text) term = true <-> containsCI text term.
Proof.
  rewrite StrFacts.includes_iff. unfold containsCI, Str.toLowerCase. split.
  - intros (a & b & H).
    apply StrFacts.map_app_inv in H as (s1 & s2 & -> & _ & H).
    apply StrFacts.map_app_inv in H as (u & s3 & -> & Hu & _).
    now exists s1, u, s3.
  - intros (a & u & b & -> & <-).
    exists (Str.map Char.toLower a), (Str.map Char.toLower b).
    now rewrite !StrFacts.map_app.
Qed.

Lemma sameTerms_iff (rule : ConflictRule.t) (c : Conflict.t) :
  sameTerms rule c = true <-> Conflict.terms c = ConflictRule.terms rule.
Proof.
  unfold sameTerms. rewrite andb_true_iff, !String.eqb_eq.
  destruct (Conflict.terms c), (ConflictRule.terms rule); simpl.
  split; [intros [-> ->]; reflexivity | intros H; injection H; auto].
Qed.

(** The detector's output is the table filtered by [fires], in order. *)
Lemma detectIn_filter (lowerText : string) (rules : list ConflictRule.t) :
  detectIn lowerText rules
  = List.map conflictOf (List.filter (fires lowerText) rules).
Proof.
  induction rules as [|r rules IH]; simpl; [reflexivity|].
  destruct (fires lowerText r); simpl; now rewrite IH.
Qed.

Lemma detectIn_other_terms (lowerText : string) (rule : ConflictRule.t)
    (rules : list ConflictRule.t) :
  ~ In (ConflictRule.terms rule) (List.map ConflictRule.terms rules) ->
  List.filter (sameTerms rule) (detectIn lowerText rules) = [].
Proof.
  induction rules as [|r rules IH]; simpl; intros Hnot; [reflexivity|].
  destruct (fires lowerText r); simpl.
  - destruct (sameTerms rule (conflictOf r)) eqn:E.
    + apply sameTerms_iff in E. simpl in E. exfalso. apply Hnot. now left.
    + apply IH. intros H. apply Hnot. now right.
  - apply IH. intros H. apply Hnot. now right.
Qed.

Lemma detectIn_one_rule (lowerText : string) (rule : ConflictRule.t)
    (rules : list ConflictRule.t) :
  NoDup (List.map ConflictRule.terms rules) ->
  In rule rules ->
  List.filter (sameTerms rule) (detectIn lowerText rules)
  = if fires lowerText rule then [conflictOf rule] else [].
Proof.
  induction rules as [|r rules IH]; simpl; intros Hnd Hin; [contradiction|].
  inversion Hnd as [|? ? Hnot Hnd']; subst.
  destruct Hin as [-> | Hin].
  - destruct (fires lowerText rule); simpl.
    + replace (sameTerms rule (conflictOf rule)) with true
        by (symmetry; now apply sameTerms_iff).
      now rewrite detectIn_other_terms.
    + now apply detectIn_other_terms.
  - assert (Hne : sameTerms rule (conflictOf r) = false).
    { destruct (sameTerms rule (conflictOf r)) eqn:E; [|reflexivity].
      apply sameTerms_iff in E. simpl in E. exfalso. apply Hnot.
      rewrite E. now apply in_map. }
    destruct (fires lowerText r); simpl; [rewrite Hne|]; now apply IH.
Qed.

Lemma CONFLICT_RULES_terms_NoDup :
  NoDup (List.map ConflictRule.terms CONFLICT_RULES).
Proof.
  simpl. repeat (constructor; [simpl; intuition discriminate|]). constructor.
Qed.

Lemma fires_iff (text : string) (rule : ConflictRule.t) :
  fires (Str.toLowerCase text) rule = true
  <-> containsCI text (fst (ConflictRule.terms rule))
      /\ containsCI text (snd (ConflictRule.terms rule)).
Proof.
  unfold fires. destruct (ConflictRule.terms rule) as [t1 t2]. simpl.
  now rewrite andb_true_iff, !includes_lower_iff.
Qed.

(** C2.  For every rule of the conflict table and every input: when the
    input contains both terms of the rule, in any casing and at any
    position, the detector's output holds exactly one conflict with these
    terms, and it carries the rule's type, description, severity and terms;
    when the input does not contain both, the output holds no conflict with
    these terms.  Rules fire independently: the output is the list of the
    entries of all rules whose two terms occur, in table order, with
    nothing merged. *)
Theorem detectConflicts_per_rule (rule : ConflictRule.t) (text : string) :
  In rule CONFLICT_RULES ->
  (containsCI text (fst (ConflictRule.terms rule))
   /\ containsCI text (snd (ConflictRule.terms rule)) ->
   List.filter (sameTerms rule) (detectConflicts text)
   = [Conflict.mk (ConflictRule.type rule) (ConflictRule.description rule)
        (ConflictRule.severity rule) (ConflictRule.terms rule)])
  /\ (~ (containsCI text (fst (ConflictRule.terms rule))
         /\ containsCI text (snd (ConflictRule.terms rule))) ->
      List.filter (sameTerms rule) (detectConflicts text) = [])
  /\ detectConflicts text
     = List.map conflictOf
         (List.filter (fires (Str.toLowerCase text)) CONFLICT_RULES).
Proof.
  intros Hin. unfold detectConflicts.
  rewrite (detectIn_one_rule _ _ _ CONFLICT_RULES_terms_NoDup Hin).
  split; [|split].
  - intros H. apply fires_iff in H. now rewrite H.
  - intros H. destruct (fires (Str.toLowerCase text) rule) eqn:E;
      [|reflexivity].
    apply fires_iff in E. contradiction.
  - apply detectIn_filter.
Qed.

Lemma detectConflicts_per_rule_witness :
  List.filter
    (sameTerms (ConflictRule.mk ("short", "comprehensive")
       "Request asks for both short and comprehensive output"
       Warning OfOutput))
    (detectConflicts "Write something SHORT but Comprehensive")
  = [Conflict.mk OfOutput
       "Request asks for both short and comprehensive output"
       Warning ("short", "comprehensive")].
Proof.
  refine (proj1 (detectConflicts_per_rule
           (ConflictRule.mk ("short", "comprehensive")
              "Request asks for both short and comprehensive output"
              Warning OfOutput)
           "Write something SHORT but Comprehensive" _) _).
  - simpl. tauto.
  - split.
    + exists "Write something ", "SHORT", " but Comprehensive".
      split; reflexivity.
    + exists "Write something SHORT but ", "Comprehensive", "".
      split; reflexivity.
Defined.

Lemma existsb_map_filter {A B : Type} (p : B -> bool) (f : A -> B)
    (q : A -> bool) (l : list A) :
  List.existsb p (List.map f (List.filter q l))
  = List.existsb (fun x => q x && p (f x)) l.
Proof.
  induction l as [|x l IH]; simpl; [reflexivity|].
  destruct (q x); simpl; now rewrite IH.
Qed.

(** The only rule of [CONFLICT_RULES] that can set the flag. *)
Lemma blocking_detected (text : string) :
  List.existsb isBlocking (detectConflicts text) = true
  <-> containsCI text "minimal" /\ containsCI text "feature-rich".
Proof.
  unfold detectConflicts. rewrite detectIn_filter, existsb_map_filter.
  rewrite <- !includes_lower_iff, <- andb_true_iff.
  cbn [List.existsb CONFLICT_RULES isBlocking conflictOf Conflict.severity
       ConflictRule.severity].
  rewrite !andb_false_r, andb_true_r, !orb_false_r. simpl. reflexivity.
Qed.

(** C1.  In the intent [normalize] returns, [requiresClarification] is
    true exactly when the conflicts list has an entry of blocking
    severity.  The rule "minimal"/"feature-rich" is the only blocking rule
    of the table, so the flag is true exactly when the input contains both
    of these terms. *)
Theorem requiresClarification_iff_blocking (fuel : nat) (input : string)
    (r : NormalizeResponse.t) :
  normalize fuel input = Some r ->
  (Intent.requiresClarification (NormalizeResponse.intent r) = true
   <-> exists c, In c (Intent.conflicts (NormalizeResponse.intent r))
                 /\ Conflict.severity c = Blocking)
  /\ (forall rule, In rule CONFLICT_RULES ->
        ConflictRule.severity rule = Blocking ->
        ConflictRule.terms rule = ("minimal", "feature-rich"))
  /\ (Intent.requiresClarification (NormalizeResponse.intent r) = true
      <-> containsCI input "minimal" /\ containsCI input "feature-rich").
Proof.
  unfold normalize. destruct (parseIntent fuel input) as [parsed|];
    [|discriminate].
  intros H. injection H as <-. cbn [NormalizeResponse.intent
    Intent.requiresClarification Intent.conflicts].
  split; [|split].
  - rewrite existsb_exists. unfold isBlocking.
    split; intros (c & Hin & Hc); exists c; split; try assumption;
      destruct (Conflict.severity c); congruence.
  - intros rule Hin Hsev. simpl in Hin.
    repeat (destruct Hin as [<- | Hin];
            [try discriminate Hsev; reflexivity|]).
    contradiction.
  - apply blocking_detected.
Qed.

Lemma requiresClarification_iff_blocking_witness :
  exists r,
    normalize 50 "Design a minimal but feature-rich dashboard" = Some r
    /\ (Intent.requiresClarification (NormalizeResponse.intent r) = true
        <-> exists c, In c (Intent.conflicts (NormalizeResponse.intent r))
                      /\ Conflict.severity c = Blocking).
Proof.
  eexists. split; [vm_compute; reflexivity|].
  eapply (requiresClarification_iff_blocking 50
            "Design a minimal but feature-rich dashboard").
  vm_compute. reflexivity.
Defined.

(** C9.  The intent keeps the input as it was given. *)
Theorem normalize_rawInput (fuel : nat) (input : string)
    (r : NormalizeResponse.t) :
  normalize fuel input = Some r ->
  Intent.rawInput (NormalizeResponse.intent r) = input.
Proof.
  unfold normalize. destruct (parseIntent fuel input); [|discriminate].
  intros H. injection H as <-. reflexivity.
Qed.

Lemma normalize_rawInput_witness :
  exists r,
    normalize 50 "  Please, summarize this.  " = Some r
    /\ Intent.rawInput (NormalizeResponse.intent r)
       = "  Please, summarize this.  ".
Proof.
  eexists. split; [vm_compute; reflexivity|].
  apply (normalize_rawInput 50 "  Please, summarize this.  ").
  vm_compute. reflexivity.
Defined.

(** C7.  On the empty input, with fuel for one turn of each loop,
    [normalize] returns an intent with an empty goal, no constraints, no
    conflicts and no request for clarification. *)
Theorem normalize_empty (fuel : nat) :
  exists r,
    normalize (S fuel) "" = Some r
    /\ Intent.primaryGoal (NormalizeResponse.intent r) = ""
    /\ Constraints.hard (Intent.constraints (NormalizeResponse.intent r)) = []
    /\ Constraints.soft (Intent.constraints (NormalizeResponse.intent r)) = []
    /\ Intent.conflicts (NormalizeResponse.intent r) = []
    /\ Intent.requiresClarification (NormalizeResponse.intent r) = false.
Proof.
  eexists. split; [vm_compute; reflexivity|].
  repeat split.
Qed.

(* ------------------------------------------------------------------ *)
(** ** The matcher *)

Module ReFacts.

Import Scan.

Local Open Scope string_scope.

Lemma after_app (p : option ascii) (w1 w2 : string) :
  after p (w1 ++ w2) = after (after p w1) w2.
Proof. revert p; induction w1 as [|c w1 IH]; intros p; simpl; auto. Qed.

Section Inversion.

Variable ic : bool.

(** Whatever a matcher returns, its continuation returned it, at a
    position reached by reading some [w]. *)
Lemma lit_inv (s : string) (p : option ascii) (r : string) (i : nat)
    (k : cont) (res : cursor) :
  lit ic s p r i k = Some res ->
  exists w r', r = w ++ r' /\ String.length w = String.length s
               /\ k (after p w) r' (i + String.length w) = Some res.
Proof.
  revert p r i; induction s as [|a s IH]; intros p r i H; simpl in H.
  - exists "", r. simpl. now rewrite Nat.add_0_r.
  - destruct r as [|c r]; [discriminate|].
    destruct (Ascii.eqb _ _); [|discriminate].
    apply IH in H as (w & r' & -> & Hlen & Hk).
    exists (String c w), r'. simpl. rewrite Hlen, <- Hlen.
    now rewrite Nat.add_succ_r.
Qed.

Lemma star_inv (cs : cset) (p : option ascii) (r : string) (i : nat)
    (k : cont) (res : cursor) :
  star ic cs p r i k = Some res ->
  exists w r', r = w ++ r' /\ Str.forallb (mem ic cs) w = true
               /\ k (after p w) r' (i + String.length w) = Some res.
Proof.
  revert p i; induction r as [|c r IH]; intros p i H; simpl in H.
  - exists "", "". simpl. now rewrite Nat.add_0_r.
  - destruct (mem ic cs c) eqn:Hc.
    + destruct (star ic cs (Some c) r (S i) k) eqn:E.
      * injection H as ->. apply IH in E as (w & r' & -> & Hw & Hk).
        exists (String c w), r'. simpl. rewrite Hc, Hw.
        now rewrite Nat.add_succ_r.
      * exists "", (String c r). simpl. now rewrite Nat.add_0_r.
    + exists "", (String c r). simpl. now rewrite Nat.add_0_r.
Qed.

Lemma plus_inv (cs : cset) (p : option ascii) (r : string) (i : nat)
    (k : cont) (res : cursor) :
  plus ic cs p r i k = Some res ->
  exists w r', r = w ++ r' /\ Str.forallb (mem ic cs) w = true
               /\ 1 <= String.length w
               /\ k (after p w) r' (i + String.length w) = Some res.
Proof.
  unfold plus. destruct r as [|c r]; [discriminate|].
  destruct (mem ic cs c) eqn:Hc; [|discriminate].
  intros H. apply star_inv in H as (w & r' & -> & Hw & Hk).
  exists (String c w), r'. simpl. rewrite Hc, Hw.
  rewrite Nat.add_succ_r. repeat split; [lia | exact Hk].
Qed.

(** The lazy loop stops at the first position its continuation accepts. *)
Lemma starLazy_inv (cs : cset) (p : option ascii) (r : string) (i : nat)
    (k : cont) (res : cursor) :
  starLazy ic cs p r i k = Some res ->
  exists w r', r = w ++ r' /\ Str.forallb (mem ic cs) w = true
    /\ k (after p w) r' (i + String.length w) = Some res
    /\ forall w1 w2, w = w1 ++ w2 -> w2 <> "" ->
         k (after p w1) (w2 ++ r') (i + String.length w1) = None.
Proof.
  revert p i; induction r as [|c r IH]; intros p i H; simpl in H.
  - destruct (k p "" i) eqn:E; [|discriminate]. injection H as ->.
    exists "", "". simpl. rewrite Nat.add_0_r. repeat split; auto.
    intros [|] [|]; simpl; try discriminate. congruence.
  - destruct (k p (String c r) i) eqn:E.
    + injection H as ->. exists "", (String c r). simpl.
      rewrite Nat.add_0_r. repeat split; auto.
      intros [|] [|]; simpl; try discriminate. congruence.
    + destruct (mem ic cs c) eqn:Hc; [|discriminate].
      apply IH in H as (w & r' & -> & Hw & Hk & Hmin).
      exists (String c w), r'. simpl. rewrite Hc, Hw, Nat.add_succ_r.
      repeat split; auto.
      intros [|d w1] w2 Hsplit Hne; simpl in *.
      * subst w2. simpl. now rewrite Nat.add_0_r.
      * injection Hsplit as <- ->. rewrite Nat.add_succ_r.
        now apply Hmin.
Qed.

Lemma plusLazy_inv (cs : cset) (p : option ascii) (r : string) (i : nat)
    (k : cont) (res : cursor) :
  plusLazy ic cs p r i k = Some res ->
  exists c w r', r = String c (w ++ r')
    /\ Str.forallb (mem ic cs) (String c w) = true
    /\ k (after p (String c w)) r' (i + String.length (String c w)) = Some res
    /\ forall w1 w2, w = w1 ++ w2 -> w2 <> "" ->
         k (after p (String c w1)) (w2 ++ r')
           (i + String.length (String c w1)) = None.
Proof.
  unfold plusLazy. destruct r as [|c r]; [discriminate|].
  destruct (mem ic cs c) eqn:Hc; [|discriminate].
  intros H. apply starLazy_inv in H as (w & r' & -> & Hw & Hk & Hmin).
  exists c, w, r'. simpl. rewrite Hc, Hw, Nat.add_succ_r.
  repeat split; auto.
  intros w1 w2 Hsplit Hne. rewrite Nat.add_succ_r. now apply Hmin.
Qed.

Lemma run_inv (re : regex) (st : cursor) (k : cursor -> option cursor)
    (res : cursor) :
  run ic re st k = Some res ->
  exists w r' caps',
    rest st = w ++ r' /\ minLen re <= String.length w
    /\ k (mkCursor (after (prev st) w) r' (pos st + String.length w) caps')
       = Some res.
Proof.
  revert st k; induction re as
    [s|cs|cs|cs|cs| | | |a IHa b IHb|a IHa b IHb|a IHa|n a IHa];
    intros st k H; simpl in H.
  - apply lit_inv in H as (w & r' & Hr & Hlen & Hk).
    exists w, r', (caps st). simpl. rewrite <- Hlen. auto.
  - destruct (rest st) as [|c r'] eqn:Hr; [discriminate|].
    destruct (mem ic cs c); [|discriminate].
    exists (String c ""), r', (caps st). simpl.
    rewrite Nat.add_1_r. auto.
  - apply star_inv in H as (w & r' & Hr & _ & Hk).
    exists w, r', (caps st). simpl. cbn [minLen]. repeat split; auto; lia.
  - apply plus_inv in H as (w & r' & Hr & _ & Hlen & Hk).
    exists w, r', (caps st). auto.
  - apply plusLazy_inv in H as (c & w & r' & Hr & _ & Hk & _).
    exists (String c w), r', (caps st). simpl. cbn [minLen]. repeat split; auto; lia.
  - destruct (atWordBoundary _ _); [|discriminate].
    exists "", (rest st), (caps st). simpl. rewrite Nat.add_0_r.
    destruct st; auto.
  - destruct (pos st =? 0)%nat; [|discriminate].
    exists "", (rest st), (caps st). simpl. rewrite Nat.add_0_r.
    destruct st; auto.
  - destruct (rest st) eqn:Hr; [|discriminate].
    exists "", "", (caps st). simpl. rewrite Nat.add_0_r.
    destruct st; simpl in *; subst; auto.
  - apply IHa in H as (w1 & r1 & caps1 & Hr1 & Hl1 & H).
    apply IHb in H as (w2 & r2 & caps2 & Hr2 & Hl2 & H). simpl in *.
    exists (w1 ++ w2), r2, caps2. subst r1.
    rewrite StrFacts.app_assoc, after_app, StrFacts.length_app, Nat.add_assoc.
    cbn [minLen]. repeat split; auto; lia.
  - destruct (run ic a st k) eqn:E.
    + injection H as ->. apply IHa in E as (w & r' & caps' & ? & ? & ?).
      exists w, r', caps'. cbn [minLen]. repeat split; auto; lia.
    + apply IHb in H as (w & r' & caps' & ? & ? & ?).
      exists w, r', caps'. cbn [minLen]. repeat split; auto; lia.
  - destruct (run ic a st k) eqn:E.
    + injection H as ->. apply IHa in E as (w & r' & caps' & ? & ? & ?).
      exists w, r', caps'. cbn [minLen]. repeat split; auto; lia.
    + exists "", (rest st), (caps st). simpl. rewrite Nat.add_0_r.
      destruct st; auto.
  - apply IHa in H as (w & r' & caps' & Hr & Hl & H). simpl in H.
    eexists w, r', _. repeat split; eauto.
Qed.

Lemma seek_inv (p : option ascii) (text : string) (i : nat)
    (p' : option ascii) (r : string) :
  seek p text i = Some (p', r) ->
  exists pre, text = pre ++ r /\ String.length pre = i /\ p' = after p pre.
Proof.
  revert p text; induction i as [|i IH]; intros p text H; simpl in H.
  - injection H as <- <-. now exists "".
  - destruct text as [|c text]; [discriminate|].
    apply IH in H as (pre & -> & <- & ->). now exists (String c pre).
Qed.

Lemma seek_app (p : option ascii) (pre r : string) :
  seek p (pre ++ r) (String.length pre) = Some (after p pre, r).
Proof. revert p; induction pre as [|c pre IH]; intros p; simpl; auto. Qed.

Lemma seek_past (p : option ascii) (text : string) (i : nat) :
  String.length text < i -> seek p text i = None.
Proof.
  revert p text; induction i as [|i IH]; intros p text H; [lia|].
  destruct text as [|c text]; simpl in *; [reflexivity | apply IH; lia].
Qed.

(** [search] returns the match at the first position that has one. *)
Lemma search_inv (re : regex) (p : option ascii) (r : string) (i : nat)
    (m : rmatch) :
  search ic re p r i = Some m ->
  exists skipped r0 st,
    r = skipped ++ r0 /\ index m = i + String.length skipped
    /\ run ic re (mkCursor (after p skipped) r0 (index m) []) Some = Some st
    /\ lastPos m = pos st /\ groups m = caps st
    /\ forall s1 s2, skipped = s1 ++ s2 -> s2 <> "" ->
         run ic re (mkCursor (after p s1) (s2 ++ r0)
                      (i + String.length s1) []) Some = None.
Proof.
  revert p i; induction r as [|c r IH]; intros p i H; simpl in H.
  - destruct (run ic re (mkCursor p "" i []) Some) as [st|] eqn:E;
      [|discriminate].
    injection H as <-. exists "", "", st. simpl. rewrite Nat.add_0_r.
    repeat split; auto.
    intros [|] [|]; simpl; try discriminate. congruence.
  - destruct (run ic re (mkCursor p (String c r) i []) Some) as [st|] eqn:E.
    + injection H as <-. exists "", (String c r), st. simpl.
      rewrite Nat.add_0_r. repeat split; auto.
      intros [|] [|]; simpl; try discriminate. congruence.
    + apply IH in H as (sk & r0 & st & -> & Hi & Hrun & Hl & Hg & Hmin).
      exists (String c sk), r0, st. simpl. rewrite Nat.add_succ_r.
      repeat split; auto.
      intros [|d s1] s2 Hsplit Hne; simpl in *.
      * subst s2. simpl. now rewrite Nat.add_0_r.
      * injection Hsplit as <- ->. rewrite Nat.add_succ_r. now apply Hmin.
Qed.

Lemma search_none (re : regex) (p : option ascii) (r : string) (i : nat) :
  search ic re p r i = None ->
  forall s1 s2, r = s1 ++ s2 ->
    run ic re (mkCursor (after p s1) s2 (i + String.length s1) []) Some
    = None.
Proof.
  revert p i; induction r as [|c r IH]; intros p i H s1 s2 Hsplit;
    simpl in H.
  - destruct (run ic re (mkCursor p "" i []) Some) eqn:E; [discriminate|].
    destruct s1, s2; try discriminate. simpl. now rewrite Nat.add_0_r.
  - destruct (run ic re (mkCursor p (String c r) i []) Some) eqn:E;
      [discriminate|].
    destruct s1 as [|d s1]; simpl in *.
    + subst s2. now rewrite Nat.add_0_r.
    + injection Hsplit as <- ->. rewrite Nat.add_succ_r.
      exact (IH (Some c) (S i) H s1 s2 eq_refl).
Qed.

End Inversion.

(** *** [exec] on a regex with the [g] flag *)

Section Global.

Variable re : RegExp.
Variable text : string.
Hypothesis re_global : global re = true.

Local Abbreviation at_ i := (matchAt (ignoreCase re) (source re) text i).

Lemma exec_some (lastIndex : nat) (m : rmatch) (lastIndex' : nat) :
  exec re text lastIndex = (Some m, lastIndex') ->
  lastIndex' = lastPos m /\ found re text lastIndex m.
Proof.
  unfold exec. rewrite re_global.
  destruct (seek None text lastIndex) as [[p r]|] eqn:Hseek; [|discriminate].
  destruct (search _ _ p r lastIndex) as [m'|] eqn:Hs; [|discriminate].
  intros H. injection H as -> <-. split; [reflexivity|].
  apply seek_inv in Hseek as (pre & Htext & Hpre & ->).
  apply search_inv in Hs as (sk & r0 & st & -> & Hi & Hrun & Hl & Hg & Hmin).
  exists st. unfold matchAt.
  assert (Hat : seek None text (index m)
                = Some (after (after None pre) sk, r0)).
  { rewrite Htext, <- StrFacts.app_assoc, Hi, <- Hpre,
      <- StrFacts.length_app, <- after_app. apply seek_app. }
  rewrite Hat. repeat split; auto; try lia.
  - apply run_inv in Hrun as (w & r' & caps' & Hr & Hlen & Hst).
    injection Hst as <-. simpl in *. lia.
  - apply run_inv in Hrun as (w & r' & caps' & Hr & Hlen & Hst).
    injection Hst as <-. simpl in *. subst r0 text.
    rewrite !StrFacts.length_app. lia.
  - intros j [Hlo Hhi].
    destruct (StrFacts.split_at (j - lastIndex) sk ltac:(lia))
      as (s1 & s2 & Hsk & Hs1 & Hne).
    assert (Hj : j = lastIndex + String.length s1) by lia.
    revert Hmin. rewrite Hj, Hsk. intros Hmin.
    specialize (Hmin s1 s2 eq_refl Hne).
    replace (seek None text (lastIndex + String.length s1))
      with (Some (after (after None pre) s1, s2 ++ r0)); [exact Hmin|].
    rewrite Htext, Hsk, StrFacts.app_assoc, <- (StrFacts.app_assoc pre),
      <- Hpre, <- StrFacts.length_app, <- after_app.
    symmetry. apply seek_app.
Qed.

Lemma exec_none (lastIndex lastIndex' : nat) :
  exec re text lastIndex = (None, lastIndex') ->
  forall j, lastIndex <= j -> at_ j = None.
Proof.
  unfold exec. rewrite re_global. intros H j Hj. unfold matchAt.
  destruct (seek None text j) as [[p r]|] eqn:Hsj; [|reflexivity].
  apply seek_inv in Hsj as (prej & Htj & Hlj & ->).
  destruct (seek None text lastIndex) as [[p0 r0]|] eqn:Hseek.
  - destruct (search _ _ p0 r0 lastIndex) eqn:Hs; [discriminate|].
    apply seek_inv in Hseek as (pre & Htext & Hpre & ->).
    assert (Hsplit : exists s1, prej = pre ++ s1 /\ r0 = s1 ++ r).
    { apply StrFacts.app_eq_app; [congruence | lia]. }
    destruct Hsplit as (s1 & -> & ->).
    rewrite after_app, <- Hlj, StrFacts.length_app, Hpre.
    now apply (search_none _ _ _ _ _ Hs).
  - exfalso.
    destruct (Nat.lt_ge_cases (String.length text) lastIndex) as [Hlt|Hle].
    2:{ destruct (Nat.eq_dec lastIndex (String.length text)) as [He|Hne].
        - rewrite He, <- (StrFacts.app_nil_r text), StrFacts.length_app in Hseek.
          simpl in Hseek. rewrite Nat.add_0_r, seek_app in Hseek. discriminate.
        - destruct (StrFacts.split_at lastIndex text ltac:(lia))
            as (s1 & s2 & Ht & Hl & _).
          rewrite Ht, <- Hl, seek_app in Hseek. discriminate. }
    rewrite Htj, StrFacts.length_app in Hlt. lia.
Qed.

Lemma execLoop_chained (fuel lastIndex : nat) (ms : list rmatch) :
  execLoop fuel re text lastIndex = Some ms ->
  chained re text lastIndex ms.
Proof.
  revert lastIndex ms; induction fuel as [|fuel IH]; intros li ms H;
    simpl in H; [discriminate|].
  destruct (exec re text li) as [[m|] li'] eqn:E.
  - destruct (execLoop fuel re text li') as [ms'|] eqn:E'; [|discriminate].
    injection H as <-. apply exec_some in E as [-> Hm].
    simpl. split; [exact Hm | now apply IH].
  - injection H as <-. exact I.
Qed.

(** No match is left out: a position where the pattern matches is the
    start of a collected match or lies inside one. *)
Lemma execLoop_complete (fuel lastIndex : nat) (ms : list rmatch) :
  0 < minLen (source re) ->
  execLoop fuel re text lastIndex = Some ms ->
  forall j, lastIndex <= j -> at_ j <> None ->
    exists m, In m ms /\ index m <= j < lastPos m.
Proof.
  intros Hpos.
  revert lastIndex ms; induction fuel as [|fuel IH]; intros li ms H j Hj Hat;
    simpl in H; [discriminate|].
  destruct (exec re text li) as [[m|] li'] eqn:E.
  - destruct (execLoop fuel re text li') as [ms'|] eqn:E'; [|discriminate].
    injection H as <-. apply exec_some in E as [-> Hm].
    destruct Hm as (st & _ & _ & _ & Hli & Hlen & Hnone).
    destruct (Nat.lt_ge_cases j (index m)) as [Hlt|Hge].
    { exfalso. apply Hat, Hnone. lia. }
    destruct (Nat.lt_ge_cases j (lastPos m)) as [Hin|Hout].
    + exists m. split; [now left | lia].
    + destruct (IH _ _ E' j Hout Hat) as (m' & Hin' & Hm').
      exists m'. split; [now right | exact Hm'].
  - exfalso. apply Hat. eapply exec_none; eauto.
Qed.

(** The loop ends: there is fuel enough for every text. *)
Lemma execLoop_total (lastIndex : nat) :
  0 < minLen (source re) ->
  exists ms, forall fuel,
    String.length text - lastIndex < fuel ->
    execLoop fuel re text lastIndex = Some ms.
Proof.
  intros Hpos.
  remember (String.length text - lastIndex) as n eqn:Hn.
  revert lastIndex Hn; induction n as [n IH] using lt_wf_ind; intros li Hn.
  destruct (exec re text li) as [[m|] li'] eqn:E.
  - pose proof E as E0. apply exec_some in E0 as [-> Hm].
    destruct Hm as (st & _ & _ & _ & Hli & Hlen & _).
    destruct (IH (String.length text - lastPos m) ltac:(lia) (lastPos m)
                eq_refl) as [ms Hms].
    exists (m :: ms). intros [|fuel] Hf; [lia|]. simpl. rewrite E.
    rewrite Hms; [reflexivity | lia].
  - exists []. intros [|fuel] Hf; [lia|]. simpl. now rewrite E.
Qed.

End Global.

End ReFacts.

(* ------------------------------------------------------------------ *)
(** ** Constraint extraction *)

Module ExtractFacts.

Import Kept.

Lemma keepAll_fold (extract : rmatch -> option string) (type : ConstraintType)
    (ms : list rmatch) (acc acc' : collected) :
  keepAll extract type ms acc = Some acc' ->
  exists ts, extracted extract ms = Some ts
             /\ acc' = List.fold_left (keep type) ts acc.
Proof.
  revert acc; induction ms as [|m ms IH]; intros acc H; simpl in H.
  - injection H as <-. now exists [].
  - destruct (extract m) as [t|] eqn:E; [|discriminate].
    apply IH in H as (ts & Hts & ->).
    exists (t :: ts). simpl. now rewrite E, Hts.
Qed.

(** [extractConstraints] runs its loop body over the candidates. *)
Lemma collect_fold (fuel : nat) (text : string)
    (patterns : list ConstraintPattern.t) (type : ConstraintType)
    (acc acc' : collected) :
  collect fuel text patterns type acc = Some acc' ->
  exists ts, candidates fuel text patterns = Some ts
             /\ acc' = List.fold_left (keep type) ts acc.
Proof.
  revert acc; induction patterns as [|p ps IH]; intros acc H; simpl in H.
  - injection H as <-. now exists [].
  - simpl. destruct (execLoop fuel _ text 0) as [ms|]; [|discriminate].
    destruct (keepAll _ type ms acc) as [acc1|] eqn:E; [|discriminate].
    apply keepAll_fold in E as (ts & -> & ->).
    apply IH in H as (ts' & -> & ->).
    exists (ts ++ ts'). now rewrite fold_left_app.
Qed.

Lemma has_iff (seen : list string) (x : string) :
  Str.has seen x = true <-> In x seen.
Proof.
  unfold Str.has. rewrite existsb_exists. split.
  - intros (y & Hy & E). apply String.eqb_eq in E. now subst.
  - intros H. exists x. split; [exact H | apply String.eqb_refl].
Qed.

Lemma NoDup_snoc {A : Type} (l : list A) (x : A) :
  NoDup l -> ~ In x l -> NoDup (l ++ [x]).
Proof.
  intros Hnd Hx. induction Hnd as [|y l Hy Hnd IH]; simpl.
  - constructor; [intros [] | constructor].
  - constructor.
    + rewrite in_app_iff. simpl. intros [H | [H | []]]; [now apply Hy|].
      subst. apply Hx. now left.
    + apply IH. intros H. apply Hx. now right.
Qed.

Lemma invariant_start (type : ConstraintType) : invariant type [] ([], []).
Proof.
  split; simpl; try tauto. constructor.
Qed.

Lemma inBounds_lower (t u : string) :
  Str.toLowerCase t = Str.toLowerCase u -> inBounds u -> inBounds t.
Proof.
  unfold inBounds, Str.toLowerCase. intros E.
  rewrite <- (StrFacts.length_map Char.toLower t), E, StrFacts.length_map.
  auto.
Qed.

Lemma keep_invariant (type : ConstraintType) (done : list string)
    (acc : collected) (t : string) :
  invariant type done acc -> invariant type (done ++ [t]) (keep type acc t).
Proof.
  intros [Hseen Hnd Hok Hall Hfirst]. destruct acc as [seen cs].
  simpl in *. unfold keep.
  assert (Hlater : forall c, In c cs ->
    exists before later,
      done ++ [t] = before ++ Constraint.text c :: later
      /\ forall u, In u before -> Str.toLowerCase u <> lowerText c).
  { intros c Hc. destruct (Hfirst c Hc) as (b & l & -> & Hb).
    exists b, (l ++ [t]). split; [|exact Hb].
    now rewrite <- app_assoc. }
  destruct (3 <? String.length t) eqn:E1;
    [destruct (String.length t <? 100) eqn:E2;
       [destruct (Str.has seen (Str.toLowerCase t)) eqn:E3|]|];
    cbn [andb negb fst snd].
  - split; simpl; auto.
    intros u Hu Hb. apply in_app_iff in Hu as [Hu | [<- | []]]; auto.
    now apply has_iff.
  - apply Nat.ltb_lt in E1, E2.
    assert (Hnew : ~ In (Str.toLowerCase t) seen).
    { intros H. apply has_iff in H. congruence. }
    split; simpl.
    + rewrite map_app. simpl. now rewrite Hseen.
    + now apply NoDup_snoc.
    + intros c Hc. apply in_app_iff in Hc as [Hc | [<- | []]]; auto.
      simpl. unfold inBounds. split; [lia | reflexivity].
    + intros u Hu Hb. rewrite in_app_iff.
      apply in_app_iff in Hu as [Hu | [<- | []]]; [left; auto|].
      right. now left.
    + intros c Hc. apply in_app_iff in Hc as [Hc | [<- | []]]; auto.
      exists done, []. split; [reflexivity|].
      intros u Hu E. apply Hnew. unfold lowerText in E. simpl in E.
      rewrite <- E. apply Hall; [exact Hu|].
      apply (inBounds_lower u t E). unfold inBounds. lia.
  - apply Nat.ltb_ge in E2. split; simpl; auto.
    intros u Hu Hb. apply in_app_iff in Hu as [Hu | [<- | []]]; auto.
    unfold inBounds in Hb. lia.
  - apply Nat.ltb_ge in E1. split; simpl; auto.
    intros u Hu Hb. apply in_app_iff in Hu as [Hu | [<- | []]]; auto.
    unfold inBounds in Hb. lia.
Qed.

Lemma fold_keep_invariant (type : ConstraintType) (ts done : list string)
    (acc : collected) :
  invariant type done acc ->
  invariant type (done ++ ts) (List.fold_left (keep type) ts acc).
Proof.
  revert done acc; induction ts as [|t ts IH]; intros done acc H; simpl.
  - now rewrite app_nil_r.
  - replace (done ++ t :: ts) with ((done ++ [t]) ++ ts)
      by now rewrite <- app_assoc.
    apply IH. now apply keep_invariant.
Qed.

(** The list [extractConstraints] returns, against its candidates. *)
Lemma extractConstraints_invariant (fuel : nat) (text : string)
    (patterns : list ConstraintPattern.t) (type : ConstraintType)
    (cs : list Constraint.t) :
  extractConstraints fuel text patterns type = Some cs ->
  exists ts,
    candidates fuel text patterns = Some ts
    /\ (forall c, In c cs ->
          inBounds (Constraint.text c) /\ Constraint.type c = type)
    /\ NoDup (List.map lowerText cs)
    /\ (forall c, In c cs ->
          exists before later,
            ts = before ++ Constraint.text c :: later
            /\ forall t, In t before -> Str.toLowerCase t <> lowerText c)
    /\ (forall t, In t ts -> inBounds t ->
          In (Str.toLowerCase t) (List.map lowerText cs)).
Proof.
  unfold extractConstraints.
  destruct (collect fuel text patterns type ([], [])) as [acc|] eqn:E;
    [|discriminate].
  intros H. injection H as <-.
  apply collect_fold in E as (ts & Hts & ->). exists ts.
  destruct (fold_keep_invariant type ts [] _ (invariant_start type))
    as [Hseen Hnd Hok Hall Hfirst].
  simpl in *. rewrite <- Hseen. auto.
Qed.

End ExtractFacts.

(** What [normalize] puts into the intent. *)
Lemma normalize_inv (fuel : nat) (input : string) (r : NormalizeResponse.t) :
  normalize fuel input = Some r ->
  extractConstraints fuel input HARD_CONSTRAINT_PATTERNS Hard
  = Some (Constraints.hard (Intent.constraints (NormalizeResponse.intent r)))
  /\ extractConstraints fuel input SOFT_CONSTRAINT_PATTERNS Soft
     = Some (Constraints.soft (Intent.constraints (NormalizeResponse.intent r)))
  /\ Intent.primaryGoal (NormalizeResponse.intent r) = extractPrimaryGoal input
  /\ Intent.conflicts (NormalizeResponse.intent r) = detectConflicts input.
Proof.
  unfold normalize, parseIntent.
  destruct (extractConstraints fuel input HARD_CONSTRAINT_PATTERNS Hard);
    [|discriminate].
  destruct (extractConstraints fuel input SOFT_CONSTRAINT_PATTERNS Soft);
    [|discriminate].
  destruct (extractOutputExpectations fuel input); [|discriminate].
  intros H. injection H as <-. simpl. auto.
Qed.

(** C10.  In the intent [normalize] returns, every constraint of the hard
    list is tagged hard and every constraint of the soft list is tagged
    soft. *)
Theorem constraint_type_agrees (fuel : nat) (input : string)
    (r : NormalizeResponse.t) :
  normalize fuel input = Some r ->
  (forall c,
     In c (Constraints.hard (Intent.constraints (NormalizeResponse.intent r)))
     -> Constraint.type c = Hard)
  /\ (forall c,
        In c (Constraints.soft (Intent.constraints (NormalizeResponse.intent r)))
        -> Constraint.type c = Soft).
Proof.
  intros H. apply normalize_inv in H as (Hh & Hs & _).
  apply ExtractFacts.extractConstraints_invariant in Hh as (_ & _ & Hh & _).
  apply ExtractFacts.extractConstraints_invariant in Hs as (_ & _ & Hs & _).
  split; intros c Hc; [now apply Hh | now apply Hs].
Qed.

Lemma constraint_type_agrees_witness :
  exists r,
    normalize 70
      "This must include code examples and should ideally be concise"
    = Some r
    /\ forall c,
         In c (Constraints.hard
                 (Intent.constraints (NormalizeResponse.intent r)))
         -> Constraint.type c = Hard.
Proof.
  eexists. split; [vm_compute; reflexivity|].
  eapply (constraint_type_agrees 70
    "This must include code examples and should ideally be concise").
  vm_compute. reflexivity.
Defined.

(* ------------------------------------------------------------------ *)
(** ** The clause of a constraint *)

Module ClauseFacts.

Import Scan Clause ReFacts.
Local Open Scope string_scope.

Lemma lit_char (ic : bool) (d c : ascii) :
  Char.isLower d = false -> Char.isUpper d = false ->
  Ascii.eqb (canonicalize ic d) (canonicalize ic c) = true -> c = d.
Proof.
  intros Hl Hu. unfold canonicalize. destruct ic.
  - unfold Char.toUpper at 1. rewrite Hl. intros H.
    apply Ascii.eqb_eq in H. unfold Char.toUpper in H.
    destruct (Char.isLower c) eqn:Hc; [|congruence].
    exfalso. subst d. revert Hc Hu.
    destruct c as [[] [] [] [] [] [] [] []]; vm_compute; congruence.
  - intros H. apply Ascii.eqb_eq in H. congruence.
Qed.

Lemma take_app (a b : string) : Str.take (String.length a) (a ++ b) = a.
Proof. induction a as [|c a IH]; simpl; [now destruct b | now rewrite IH]. Qed.

Lemma forallb_positions (P : ascii -> bool) (w : string) :
  (forall w1 d w2, w = w1 ++ String d w2 -> P d = true) ->
  Str.forallb P w = true.
Proof.
  induction w as [|c w IH]; intros H; simpl; [reflexivity|].
  rewrite (H "" c w eq_refl). simpl. apply IH.
  intros w1 d w2 ->. apply (H (String c w1) d w2). reflexivity.
Qed.

Section Clause.

Variable ic : bool.

Lemma clauseEnd_some (st res : cursor) :
  run ic clauseEnd st Some = Some res ->
  stopped (rest st) /\ caps res = caps st
  /\ pos res = pos st + stopWidth (rest st).
Proof.
  unfold clauseEnd. simpl. destruct (rest st) as [|c r'] eqn:Hr.
  - intros H. injection H as <-. simpl. rewrite Nat.add_0_r. auto.
  - destruct (Ascii.eqb (canonicalize ic ".") (canonicalize ic c)) eqn:E1.
    + apply lit_char in E1; [|reflexivity..]. subst c.
      intros H. injection H as <-. simpl. rewrite Nat.add_1_r. auto.
    + destruct (Ascii.eqb (canonicalize ic ",") (canonicalize ic c)) eqn:E2;
        [|discriminate].
      apply lit_char in E2; [|reflexivity..]. subst c.
      intros H. injection H as <-. simpl. rewrite Nat.add_1_r. auto.
Qed.

Lemma clauseEnd_none (st : cursor) :
  run ic clauseEnd st Some = None ->
  exists c r', rest st = String c r' /\ isStop c = false.
Proof.
  unfold clauseEnd. simpl. destruct (rest st) as [|c r'] eqn:Hr;
    [discriminate|].
  intros H. exists c, r'. split; [reflexivity|].
  unfold isStop. destruct (Ascii.eqb c ".") eqn:E1.
  - apply Ascii.eqb_eq in E1. subst c.
    now rewrite Ascii.eqb_refl in H.
  - destruct (Ascii.eqb c ",") eqn:E2; [|reflexivity].
    apply Ascii.eqb_eq in E2. subst c.
    rewrite Ascii.eqb_refl in H.
    destruct (Ascii.eqb (canonicalize ic ".") (canonicalize ic ","));
      discriminate.
Qed.

(** [(.+?)(?:\.|,|$)] at a position. *)
Lemma clause_run (st res : cursor) :
  run ic (Seq clause clauseEnd) st Some = Some res ->
  exists cl right,
    rest st = cl ++ right /\ clauseAt cl right
    /\ group 1 (caps res) = Some cl
    /\ pos res = pos st + String.length cl + stopWidth right.
Proof.
  unfold clause. cbn [run]. intros H.
  apply plusLazy_inv in H as (c & w & r' & Hr & Hw & Hk & Hmin).
  exists (String c w), r'.
  apply clauseEnd_some in Hk as (Hstop & Hcaps & Hpos).
  cbn [rest caps pos] in *.
  split; [exact Hr|]. split; [|split].
  - split.
    + discriminate.
    + exact Hw.
    + cbn [Str.drop]. apply forallb_positions. intros w1 d w2 Hsplit.
      specialize (Hmin w1 (String d w2) Hsplit ltac:(discriminate)).
      apply clauseEnd_none in Hmin as (d' & r'' & Hd & Hstopd).
      cbn [rest] in Hd. simpl in Hd. injection Hd as <- _.
      now rewrite Hstopd.
    + exact Hstop.
  - rewrite Hcaps. cbn [group]. rewrite Nat.eqb_refl. f_equal.
    replace (pos st + String.length (String c w) - pos st)
      with (String.length (String c w)) by lia.
    rewrite Hr. change (String c (w ++ r')) with (String c w ++ r').
    apply take_app.
  - rewrite Hpos. reflexivity.
Qed.

Lemma clausal_run (n : nat) (re : regex) (st res : cursor) :
  clausal n re ->
  run ic re st Some = Some res ->
  exists before cl right,
    rest st = before ++ cl ++ right /\ n <= String.length before
    /\ clauseAt cl right
    /\ group 1 (caps res) = Some cl
    /\ pos res
       = pos st + String.length before + String.length cl + stopWidth right.
Proof.
  intros Hc. revert st. induction Hc as [|a b n Hc IH]; intros st H.
  - apply clause_run in H as (cl & right & Hr & Hcl & Hg & Hp).
    exists "", cl, right. simpl. rewrite Nat.add_0_r. auto.
  - cbn [run] in H. apply run_inv in H as (w & r' & caps' & Hr & Hlen & H).
    apply IH in H as (before & cl & right & Hr' & Hn & Hcl & Hg & Hp).
    cbn [rest pos] in *. exists (w ++ before), cl, right.
    rewrite Hr, Hr', StrFacts.app_assoc, StrFacts.length_app.
    split; [reflexivity|]. split; [lia|]. split; [exact Hcl|].
    split; [exact Hg | lia].
Qed.

End Clause.

End ClauseFacts.

(* ------------------------------------------------------------------ *)
(** ** The constraint rules *)

Module RuleFacts.

Import Scan Clause ReFacts ClauseFacts.
Local Open Scope string_scope.

Lemma trimmed1_ok (m : rmatch) (cl : string) :
  group 1 (groups m) = Some cl ->
  exists t, trimmed1 m = Some t /\ phrased cl t.
Proof.
  intros H. exists (Str.trim cl). unfold trimmed1, phrased. rewrite H.
  simpl. auto.
Qed.

Lemma prefixed1_no_ok (m : rmatch) (cl : string) :
  group 1 (groups m) = Some cl ->
  exists t, prefixed1 "no" m = Some t /\ phrased cl t.
Proof.
  intros H. exists ("no " ++ Str.trim cl).
  unfold prefixed1, trimmed1, phrased. rewrite H. simpl. auto.
Qed.

Lemma prefixed1_without_ok (m : rmatch) (cl : string) :
  group 1 (groups m) = Some cl ->
  exists t, prefixed1 "without" m = Some t /\ phrased cl t.
Proof.
  intros H. exists ("without " ++ Str.trim cl).
  unfold prefixed1, trimmed1, phrased. rewrite H. simpl. auto.
Qed.

Ltac rule_ok :=
  split;
  [ reflexivity
  | eexists; split; [|cbn; repeat econstructor]; cbn; lia
  | first [ exact trimmed1_ok | exact prefixed1_no_ok
          | exact prefixed1_without_ok ] ].

Lemma HARD_rules_ok : Forall ruleOk HARD_CONSTRAINT_PATTERNS.
Proof. repeat (constructor; [rule_ok|]). constructor. Qed.

Lemma SOFT_rules_ok : Forall ruleOk SOFT_CONSTRAINT_PATTERNS.
Proof. repeat (constructor; [rule_ok|]). constructor. Qed.

Lemma rule_minLen (p : ConstraintPattern.t) :
  ruleOk p -> 0 < minLen (source (ConstraintPattern.pattern p)).
Proof.
  intros [_ (n & Hn & Hc) _].
  assert (H : forall k re, clausal k re -> k < minLen re).
  { clear. intros k re H. induction H; simpl; lia. }
  apply H in Hc. lia.
Qed.

Lemma found_clauseOf (p : ConstraintPattern.t) (text : string)
    (lastIndex : nat) (m : rmatch) :
  ruleOk p ->
  found (ConstraintPattern.pattern p) text lastIndex m ->
  exists t, clauseOf p text m t.
Proof.
  intros [_ (n & Hn & Hc) Hex] (st & Hat & Hl & Hg & _).
  unfold matchAt in Hat.
  destruct (seek None text (index m)) as [[q r]|] eqn:Hseek; [|discriminate].
  apply seek_inv in Hseek as (pre & Htext & Hpre & _).
  apply (clausal_run _ _ _ _ _ Hc) in Hat
    as (before & cl & right & Hr & Hb & Hcl & Hg1 & Hp).
  cbn [rest pos] in *. rewrite <- Hg in Hg1.
  destruct (Hex m cl Hg1) as (t & Ht & Hph).
  exists t, (pre ++ before), cl, right.
  rewrite StrFacts.length_app, StrFacts.app_assoc, Htext, Hr, Hl, Hp, Hpre.
  repeat (split; [first [reflexivity | assumption | lia]|]). assumption.
Qed.

Lemma chained_facts (p : ConstraintPattern.t) (text : string)
    (ms : list rmatch) (lastIndex : nat) :
  ruleOk p ->
  chained (ConstraintPattern.pattern p) text lastIndex ms ->
  ordered lastIndex ms
  /\ forall m, In m ms -> exists t, clauseOf p text m t.
Proof.
  intros Hp. pose proof (rule_minLen p Hp) as Hmin.
  revert lastIndex; induction ms as [|m ms IH]; intros li H; simpl in *.
  - split; [exact I | intros m []].
  - destruct H as [Hm Hms]. destruct (IH _ Hms) as [Hord Hall].
    split.
    + destruct Hm as (st & _ & _ & _ & Hli & Hlen & _). repeat split; auto.
      lia.
    + intros m' [<- | Hin]; [|now apply Hall].
      eapply found_clauseOf; eauto.
Qed.

(** Where a candidate comes from. *)
Lemma extracted_In (extract : rmatch -> option string) (ms : list rmatch)
    (ts : list string) :
  extracted extract ms = Some ts ->
  (forall t, In t ts -> exists m, In m ms /\ extract m = Some t)
  /\ (forall m, In m ms -> exists t, In t ts /\ extract m = Some t).
Proof.
  revert ts; induction ms as [|m ms IH]; intros ts H; simpl in H.
  - injection H as <-. split; intros ? [].
  - destruct (extract m) as [t|] eqn:E; [|discriminate].
    destruct (extracted extract ms) as [ts'|]; [|discriminate].
    injection H as <-. destruct (IH ts' eq_refl) as [H1 H2]. split.
    + intros u [<- | Hu].
      * exists m. split; [now left | exact E].
      * destruct (H1 u Hu) as (m' & Hm' & E'). exists m'. split; auto.
        now right.
    + intros m' [<- | Hm'].
      * exists t. split; [now left | exact E].
      * destruct (H2 m' Hm') as (u & Hu & E'). exists u. split; auto.
        now right.
Qed.

Lemma candidates_In (fuel : nat) (text : string)
    (patterns : list ConstraintPattern.t) (ts : list string) :
  candidates fuel text patterns = Some ts ->
  (forall t, In t ts ->
     exists p ms m,
       In p patterns
       /\ execLoop fuel (ConstraintPattern.pattern p) text 0 = Some ms
       /\ In m ms /\ ConstraintPattern.extract p m = Some t)
  /\ (forall p, In p patterns ->
        exists ms,
          execLoop fuel (ConstraintPattern.pattern p) text 0 = Some ms
          /\ forall m, In m ms ->
               exists t, In t ts /\ ConstraintPattern.extract p m = Some t).
Proof.
  revert ts; induction patterns as [|p ps IH]; intros ts H; simpl in H.
  - injection H as <-. split; [intros ? [] | intros ? []].
  - destruct (execLoop fuel _ text 0) as [ms|] eqn:E; [|discriminate].
    destruct (extracted _ ms) as [ts1|] eqn:E1; [|discriminate].
    destruct (candidates fuel text ps) as [ts2|]; [|discriminate].
    injection H as <-. destruct (IH ts2 eq_refl) as [H1 H2].
    apply extracted_In in E1 as [G1 G2]. split.
    + intros t Ht. apply in_app_iff in Ht as [Ht | Ht].
      * destruct (G1 t Ht) as (m & Hm & Em).
        exists p, ms, m. repeat split; auto. now left.
      * destruct (H1 t Ht) as (q & ms' & m & Hq & Eq & Hm & Em).
        exists q, ms', m. repeat split; auto. now right.
    + intros q [<- | Hq].
      * exists ms. split; [exact E|]. intros m Hm.
        destruct (G2 m Hm) as (t & Ht & Em). exists t.
        split; [apply in_app_iff; now left | exact Em].
      * destruct (H2 q Hq) as (ms' & Eq & Hms'). exists ms'.
        split; [exact Eq|]. intros m Hm.
        destruct (Hms' m Hm) as (t & Ht & Em). exists t.
        split; [apply in_app_iff; now right | exact Em].
Qed.

(** [extractConstraints] returns, whatever the text. *)
Lemma collect_total (text : string) (patterns : list ConstraintPattern.t)
    (type : ConstraintType) :
  Forall ruleOk patterns ->
  forall acc, exists acc', forall fuel,
    String.length text < fuel ->
    collect fuel text patterns type acc = Some acc'.
Proof.
  induction 1 as [|p ps Hp _ IH]; intros acc.
  - exists acc. reflexivity.
  - destruct (execLoop_total (ConstraintPattern.pattern p) text
                (rule_global p Hp) 0 (rule_minLen p Hp)) as [ms Hms].
    assert (Hch : chained (ConstraintPattern.pattern p) text 0 ms).
    { apply (execLoop_chained _ _ (rule_global p Hp) (S (String.length text))).
      apply Hms. lia. }
    apply (chained_facts p text ms 0 Hp) in Hch as [_ Hall].
    assert (Hk : forall acc0, exists acc1,
               keepAll (ConstraintPattern.extract p) type ms acc0 = Some acc1).
    { clear - Hall. induction ms as [|m ms IHms]; intros acc0; simpl.
      - now exists acc0.
      - destruct (Hall m (or_introl eq_refl))
          as (t & l & cl & r & _ & _ & _ & _ & _ & Ht & _).
        rewrite Ht. apply IHms. intros m' Hm'. apply Hall. now right. }
    destruct (Hk acc) as [acc1 Hacc1]. destruct (IH acc1) as [acc' Hacc'].
    exists acc'. intros fuel Hf. simpl.
    rewrite Hms by lia. rewrite Hacc1. now apply Hacc'.
Qed.

Lemma extractConstraints_total (text : string)
    (patterns : list ConstraintPattern.t) (type : ConstraintType) :
  Forall ruleOk patterns ->
  exists cs, forall fuel,
    String.length text < fuel ->
    extractConstraints fuel text patterns type = Some cs.
Proof.
  intros H. destruct (collect_total text patterns type H ([], []))
    as [acc Hacc].
  exists (snd acc). intros fuel Hf. unfold extractConstraints.
  now rewrite Hacc.
Qed.

End RuleFacts.

(* ------------------------------------------------------------------ *)
(** ** The constraint lists of the intent *)

(** A constraint of four characters is kept: the lengths are not strictly
    between 4 and 99. *)
Lemma constraint_of_four_characters :
  exists r c,
    normalize 50 "It must test" = Some r
    /\ In c (hardOf r)
    /\ ~ (4 < String.length (Constraint.text c) < 99).
Proof.
  eexists. exists (Constraint.mk "test" Hard).
  split; [vm_compute; reflexivity|].
  split; [now left | simpl; lia].
Qed.

(** C3, amended.  In the intent [normalize] returns, every constraint
    text of the hard list and of the soft list has at least 4 and at most
    99 characters; no two entries of one list have the same text up to
    case, and the entry kept is the first candidate with that text in scan
    order.  The two lists are deduplicated apart: one text can be in
    both. *)
Theorem constraints_bounded_deduplicated :
  (forall fuel input r,
     normalize fuel input = Some r ->
     (forall c, In c (hardOf r) \/ In c (softOf r) ->
        4 <= String.length (Constraint.text c) <= 99)
     /\ NoDup (List.map lowerText (hardOf r))
     /\ NoDup (List.map lowerText (softOf r))
     /\ (exists ts,
           candidates fuel input HARD_CONSTRAINT_PATTERNS = Some ts
           /\ keepsFirst ts (hardOf r))
     /\ (exists ts,
           candidates fuel input SOFT_CONSTRAINT_PATTERNS = Some ts
           /\ keepsFirst ts (softOf r)))
  /\ (exists fuel input r t,
        normalize fuel input = Some r
        /\ In (Constraint.mk t Hard) (hardOf r)
        /\ In (Constraint.mk t Soft) (softOf r)).
Proof.
  split.
  - intros fuel input r H. apply normalize_inv in H as (Hh & Hs & _).
    apply ExtractFacts.extractConstraints_invariant in Hh
      as (th & Hth & Hbh & Hnh & Hfh & _).
    apply ExtractFacts.extractConstraints_invariant in Hs
      as (ts & Hts & Hbs & Hns & Hfs & _).
    fold (hardOf r) in *. fold (softOf r) in *.
    split; [|split; [exact Hnh | split; [exact Hns | split]]].
    + intros c [Hc | Hc]; [now apply Hbh | now apply Hbs].
    + now exists th.
    + now exists ts.
  - exists 50, "It must be fast. It should be fast". eexists. exists "fast".
    split; [vm_compute; reflexivity|]. split; now left.
Qed.

Lemma constraints_bounded_deduplicated_witness :
  exists r,
    normalize 50 "It must be FAST. It must be fast, ok" = Some r
    /\ hardOf r = [Constraint.mk "FAST" Hard]
    /\ NoDup (List.map lowerText (hardOf r)).
Proof.
  eexists. split; [vm_compute; reflexivity|].
  split; [reflexivity|].
  eapply (proj1 constraints_bounded_deduplicated 50
            "It must be FAST. It must be fast, ok").
  vm_compute. reflexivity.
Defined.

(** A comma ends a clause and an exclamation mark does not. *)
Lemma clause_ends_at_comma_not_at_exclamation :
  (exists r,
     normalize 50 "It must include tests, and docs" = Some r
     /\ hardOf r = [Constraint.mk "include tests" Hard]
     /\ clauseAsStated " include tests, and docs" = "include tests, and docs"
     /\ ~ In (Constraint.mk (clauseAsStated " include tests, and docs") Hard)
            (hardOf r))
  /\ (exists r,
        normalize 50 "It must run fast! Now" = Some r
        /\ hardOf r = [Constraint.mk "run fast! Now" Hard]
        /\ clauseAsStated " run fast! Now" = "run fast"
        /\ ~ In (Constraint.mk (clauseAsStated " run fast! Now") Hard)
               (hardOf r)).
Proof.
  split; eexists; (split; [vm_compute; reflexivity|]);
    (split; [reflexivity|]); (split; [reflexivity|]);
    vm_compute; intros [H | []]; discriminate.
Qed.

Lemma extractConstraints_scanned (fuel : nat) (input : string)
    (patterns : list ConstraintPattern.t) (type : ConstraintType)
    (cs : list Constraint.t) :
  Forall Clause.ruleOk patterns ->
  extractConstraints fuel input patterns type = Some cs ->
  (forall c, In c cs ->
     exists p m,
       In p patterns /\ Clause.clauseOf p input m (Constraint.text c))
  /\ (forall p, In p patterns -> scanned fuel input p cs).
Proof.
  intros Hok H. rewrite Forall_forall in Hok.
  apply ExtractFacts.extractConstraints_invariant in H
    as (ts & Hts & _ & _ & Hfirst & Hall).
  apply RuleFacts.candidates_In in Hts as [Hfrom Hto].
  split.
  - intros c Hc. destruct (Hfirst c Hc) as (b & l & Hsplit & _).
    destruct (Hfrom (Constraint.text c)) as (p & ms & m & Hp & Hms & Hm & Ht).
    { rewrite Hsplit. apply in_app_iff. right. now left. }
    exists p, m. split; [exact Hp|].
    apply (ReFacts.execLoop_chained _ _ (Clause.rule_global p (Hok p Hp)))
      in Hms.
    apply (RuleFacts.chained_facts p input ms 0 (Hok p Hp)) in Hms as [_ Hms].
    destruct (Hms m Hm) as (t & Hcl).
    replace (Constraint.text c) with t; [exact Hcl|].
    destruct Hcl as (? & ? & ? & _ & _ & _ & _ & _ & Ht' & _). congruence.
  - intros p Hp. destruct (Hto p Hp) as (ms & Hms & Hts).
    exists ms. split; [exact Hms|].
    pose proof (ReFacts.execLoop_chained _ _
                  (Clause.rule_global p (Hok p Hp)) _ _ _ Hms) as Hch.
    apply (RuleFacts.chained_facts p input ms 0 (Hok p Hp)) in Hch
      as [Hord Hcl].
    split; [exact Hord|]. split.
    + intros j Hj.
      apply (ReFacts.execLoop_complete _ _
               (Clause.rule_global p (Hok p Hp)) fuel 0 ms
               (RuleFacts.rule_minLen p (Hok p Hp)) Hms j); [lia | exact Hj].
    + intros m Hm. destruct (Hcl m Hm) as (t & Ht). exists t.
      split; [exact Ht|]. intros Hb. apply Hall; [|exact Hb].
      destruct (Hts m Hm) as (t' & Hin & Et').
      destruct Ht as (? & ? & ? & _ & _ & _ & _ & _ & Et & _). congruence.
Qed.

(* ------------------------------------------------------------------ *)
(** ** The structure loop *)

Lemma structurePatterns_head :
  exists include, structurePatterns = [withSections; include]
                  /\ global include = true
                  /\ 0 < Scan.minLen (source include).
Proof. eexists. split; [reflexivity|]. split; [reflexivity | cbn; lia]. Qed.

(** On a regex without the [g] flag [exec] starts from 0 each time: a
    loop over its matches ends only when there is none. *)
Lemma execLoop_not_global (re : RegExp) (text : string) :
  global re = false ->
  (test re text = true ->
   forall fuel lastIndex, execLoop fuel re text lastIndex = None)
  /\ (test re text = false ->
      forall fuel lastIndex, execLoop (S fuel) re text lastIndex = Some []).
Proof.
  intros Hg. unfold test. split.
  - intros Ht fuel. induction fuel as [|fuel IH]; intros li; simpl;
      [reflexivity|].
    unfold exec. rewrite Hg.
    destruct (search _ _ None text 0); [|discriminate]. now rewrite IH.
  - intros Ht fuel li. simpl. unfold exec. rewrite Hg.
    now destruct (search _ _ None text 0).
Qed.

(** [normalize] returns on a text exactly when the text has no
    "with sections", "with parts" or "with chapters". *)
Lemma normalize_diverges (text : string) :
  test withSections text = true ->
  forall fuel, normalize fuel text = None.
Proof.
  intros Ht fuel. unfold normalize, parseIntent.
  destruct (extractConstraints fuel text HARD_CONSTRAINT_PATTERNS Hard);
    [|reflexivity].
  destruct (extractConstraints fuel text SOFT_CONSTRAINT_PATTERNS Soft);
    [|reflexivity].
  unfold extractOutputExpectations.
  destruct structurePatterns_head as (include & -> & _).
  cbn [collectStructures].
  now rewrite (proj1 (execLoop_not_global withSections text eq_refl) Ht).
Qed.

Lemma normalize_returns (text : string) :
  test withSections text = false ->
  exists r, forall fuel,
    String.length text < fuel -> normalize fuel text = Some r.
Proof.
  intros Ht.
  destruct (RuleFacts.extractConstraints_total text HARD_CONSTRAINT_PATTERNS
              Hard RuleFacts.HARD_rules_ok) as [hard Hhard].
  destruct (RuleFacts.extractConstraints_total text SOFT_CONSTRAINT_PATTERNS
              Soft RuleFacts.SOFT_rules_ok) as [soft Hsoft].
  destruct structurePatterns_head as (include & Hsp & Hg & Hmin).
  destruct (ReFacts.execLoop_total include text Hg 0 Hmin) as [ms Hms].
  assert (Hout : exists o, forall fuel, String.length text < fuel ->
                   extractOutputExpectations fuel text = Some o).
  { unfold extractOutputExpectations. rewrite Hsp. cbn [collectStructures].
    eexists. intros [|fuel] Hf; [lia|].
    rewrite (proj2 (execLoop_not_global withSections text eq_refl) Ht).
    rewrite Hms by lia. reflexivity. }
  destruct Hout as [o Ho].
  eexists. intros fuel Hf. unfold normalize, parseIntent.
  rewrite Hhard, Hsoft, Ho by assumption. reflexivity.
Qed.

(** C8: an input on which [normalize] does not return.  The loop over the
    matches of [withSections], a regex without the [g] flag, finds the
    same match in every turn, whatever the fuel. *)
Theorem normalize_with_sections_never_returns :
  test withSections "Write a report with sections" = true
  /\ (forall fuel lastIndex,
        execLoop fuel withSections "Write a report with sections" lastIndex
        = None)
  /\ forall fuel, normalize fuel "Write a report with sections" = None.
Proof.
  assert (H : test withSections "Write a report with sections" = true)
    by (vm_compute; reflexivity).
  split; [exact H|]. split.
  - now apply execLoop_not_global.
  - now apply normalize_diverges.
Qed.

(* ------------------------------------------------------------------ *)
(** ** The notation *)

Lemma join_In (sep x : string) (parts : list string) :
  In x parts ->
  exists a b, Str.join sep parts = (a ++ x ++ b)%string.
Proof.
  induction parts as [|p parts IH]; intros H; [destruct H|].
  destruct H as [-> | H].
  - destruct parts as [|q parts].
    + exists "", "". simpl. now rewrite StrFacts.app_nil_r.
    + exists "", (sep ++ Str.join sep (q :: parts))%string. reflexivity.
  - destruct (IH H) as (a & b & E). destruct parts as [|q parts];
      [destruct H|].
    exists (p ++ sep ++ a)%string, b.
    change (Str.join sep (p :: q :: parts))
      with (p ++ sep ++ Str.join sep (q :: parts))%string.
    now rewrite E, !StrFacts.app_assoc.
Qed.

(** C6: the notation of an intent whose output expectations have the
    length "any" has the line [- Length: any]. *)
Theorem generateIRL_prints_any_length (intent : Intent.t)
    (e : OutputExpectation.t) :
  Intent.outputExpectations intent = Some e ->
  OutputExpectation.length e = Some Any ->
  Str.includes (generateIRL intent) "- Length: any" = true.
Proof.
  intros He Hl. apply StrFacts.includes_iff. unfold generateIRL.
  apply join_In. rewrite He, Hl.
  do 6 (apply in_or_app; right). apply in_or_app; left.
  simpl. auto.
Qed.

Lemma generateIRL_prints_any_length_witness :
  exists r e,
    normalize 50 "Reply in JSON" = Some r
    /\ Intent.outputExpectations (NormalizeResponse.intent r) = Some e
    /\ OutputExpectation.length e = Some Any
    /\ Str.includes (generateIRL (NormalizeResponse.intent r))
         "- Length: any" = true.
Proof.
  eexists. eexists. split; [vm_compute; reflexivity|].
  split; [reflexivity|]. split; [reflexivity|].
  eapply (generateIRL_prints_any_length _ _); reflexivity.
Defined.

(* ------------------------------------------------------------------ *)
(** ** The primary goal *)

(** Two stacked filler phrases are both removed. *)
Lemma stacked_fillers_both_removed :
  extractPrimaryGoal "Please help me write code. Thanks" = "Write code"
  /\ goalAsStated "Please help me write code. Thanks" = "Help me write code"
  /\ extractPrimaryGoal "Please help me write code. Thanks"
     <> goalAsStated "Please help me write code. Thanks".
Proof. repeat split; vm_compute; congruence. Qed.

Module GoalFacts.

Import Scan Track ReFacts.
Local Open Scope string_scope.

Lemma rejectsSpace_lenient (f : string -> option string) :
  rejectsSpace f -> lenient f.
Proof. intros H c r Hc _. now apply H. Qed.

Lemma Some_lenient : lenient Some.
Proof. intros c r _ H. discriminate. Qed.

Lemma tracks_Some : tracks Some Some.
Proof. intros st. reflexivity. Qed.

Lemma toUpper_space (c : ascii) :
  Char.isSpace c = true -> Char.toUpper c = c.
Proof.
  destruct c as [[] [] [] [] [] [] [] []]; vm_compute;
    first [reflexivity | discriminate].
Qed.

Lemma isSpace_toUpper (a : ascii) :
  Char.isSpace (Char.toUpper a) = Char.isSpace a.
Proof. destruct a as [[] [] [] [] [] [] [] []]; reflexivity. Qed.

Lemma sameLetter_space (a c : ascii) :
  Char.isSpace a = false -> Char.isSpace c = true -> sameLetter a c = false.
Proof.
  intros Ha Hc. unfold sameLetter. rewrite (toUpper_space c Hc).
  destruct (Ascii.eqb (Char.toUpper a) c) eqn:E; [|reflexivity].
  apply Ascii.eqb_eq in E. rewrite <- E, isSpace_toUpper in Hc. congruence.
Qed.

Lemma afterWord_rejectsSpace (w : string) (f : string -> option string) :
  wordy w -> rejectsSpace (fun r => bind (afterWord w r) f).
Proof.
  intros Hw c r Hc. destruct w as [|a w]; [destruct Hw|]. simpl in *.
  now rewrite (sameLetter_space a c Hw Hc).
Qed.

Section Tracking.

Variables (k : cursor -> option cursor) (f : string -> option string).
Hypothesis k_tracks : tracks k f.

Lemma lit_tracks (w : string) (p : option ascii) (r : string) (i : nat)
    (cs : list (nat * string)) :
  option_map rest
    (lit true w p r i (fun p' r' i' => k (mkCursor p' r' i' cs)))
  = bind (afterWord w r) f.
Proof.
  revert p r i; induction w as [|a w IH]; intros p r i; simpl.
  - apply k_tracks.
  - destruct r as [|c r]; [reflexivity|].
    unfold sameLetter, canonicalize.
    destruct (Ascii.eqb (Char.toUpper a) (Char.toUpper c)); [apply IH|].
    reflexivity.
Qed.

Lemma star_space_tracks (p : option ascii) (r : string) (i : nat)
    (cs : list (nat * string)) :
  lenient f ->
  option_map rest
    (star true Space p r i (fun p' r' i' => k (mkCursor p' r' i' cs)))
  = f (Str.trimStart r).
Proof.
  intros Hf. revert p i; induction r as [|c r IH]; intros p i; simpl.
  - apply k_tracks.
  - destruct (Char.isSpace c) eqn:Hc; [|apply k_tracks].
    specialize (IH (Some c) (S i)).
    destruct (star true Space (Some c) r (S i) _) as [res|].
    + exact IH.
    + rewrite k_tracks. cbn [rest]. simpl in IH. rewrite <- IH.
      apply Hf; [exact Hc | now symmetry].
Qed.

Lemma run_Lit_tracks (w : string) (st : cursor) :
  option_map rest (run true (Lit w) st k) = bind (afterWord w (rest st)) f.
Proof. apply lit_tracks. Qed.

Lemma run_spaces_tracks (st : cursor) :
  lenient f ->
  option_map rest (run true (Plus Space) st k)
  = bind (afterSpaces (rest st)) f.
Proof.
  intros Hf. cbn [run]. unfold plus, afterSpaces.
  destruct (rest st) as [|c r]; [reflexivity|]. cbn [mem].
  destruct (Char.isSpace c); [|reflexivity].
  now apply star_space_tracks.
Qed.

End Tracking.

(** [w\s+] and then [tail] *)
Lemma word_then_tracks (w : string) (tail : regex)
    (F : string -> option string) (k : cursor -> option cursor) :
  tracks (fun st => run true tail st k) F -> lenient F ->
  tracks (fun st => run true (Seq (Lit w) (Seq (Plus Space) tail)) st k)
    (fun r => bind (afterWord w r) (fun r1 => bind (afterSpaces r1) F)).
Proof.
  intros Ht Hl st. cbn [run].
  apply (run_Lit_tracks
           (fun st' => run true (Plus Space) st'
                         (fun st'' => run true tail st'' k))
           (fun r1 => bind (afterSpaces r1) F)).
  intros st'. now apply (run_spaces_tracks _ F Ht).
Qed.

(** [w\s+] at the end of a pattern *)
Lemma word_last_tracks (w : string) (f : string -> option string)
    (k : cursor -> option cursor) :
  tracks k f -> lenient f ->
  tracks (fun st => run true (Seq (Lit w) (Plus Space)) st k)
    (fun r => bind (afterWord w r) (fun r1 => bind (afterSpaces r1) f)).
Proof.
  intros Ht Hl st. cbn [run].
  apply (run_Lit_tracks
           (fun st' => run true (Plus Space) st' k)
           (fun r1 => bind (afterSpaces r1) f)).
  intros st'. now apply run_spaces_tracks.
Qed.

Lemma group_tracks (n : nat) (a : regex) (F f : string -> option string)
    (k : cursor -> option cursor) :
  (forall k', tracks k' f -> tracks (fun st => run true a st k') F) ->
  tracks k f ->
  tracks (fun st => run true (Group n a) st k) F.
Proof.
  intros Ha Hk st. cbn [run].
  apply (Ha (fun st' =>
               k (mkCursor (prev st') (rest st') (pos st')
                    ((n, Str.take (pos st' - pos st) (rest st))
                     :: caps st')))).
  intros st'. exact (Hk (mkCursor _ _ _ _)).
Qed.

Lemma opt_tracks (a : regex) (F f : string -> option string)
    (k : cursor -> option cursor) :
  tracks (fun st => run true a st k) F -> tracks k f ->
  tracks (fun st => run true (Opt a) st k)
    (fun r => match F r with Some x => Some x | None => f r end).
Proof.
  intros Ha Hk st. cbn [run]. specialize (Ha st). simpl in Ha.
  destruct (run true a st k) as [res|]; simpl in *.
  - now rewrite <- Ha.
  - rewrite <- Ha. apply Hk.
Qed.

(** With [^] in front, a pattern matches at position 0 or nowhere. *)
Lemma search_Bos_later (g : regex) (p : option ascii) (r : string) (i : nat) :
  search true (Seq Bos g) p r (S i) = None.
Proof.
  revert p i; induction r as [|c r IH]; intros p i; simpl; auto.
Qed.

Lemma drop_app (w r : string) : Str.drop (String.length w) (w ++ r) = r.
Proof. induction w as [|c w IH]; simpl; auto. Qed.

(** Removing the match of [^(g)] leaves what the matcher had not read. *)
Lemma removeFirst_Bos (g : regex) (F : string -> option string) (s : string) :
  tracks (fun st => run true g st Some) F ->
  removeFirst (flagI (Seq Bos g)) s
  = match F s with Some s' => s' | None => s end.
Proof.
  intros Hg. unfold removeFirst. cbn [ignoreCase source flagI].
  specialize (Hg (mkCursor None s 0 [])). cbn [rest] in Hg. rewrite <- Hg.
  destruct s as [|c s]; cbn [search run pos Nat.eqb].
  - destruct (run true g (mkCursor None "" 0 []) Some) as [st|] eqn:E;
      [|reflexivity].
    cbn [index lastPos option_map].
    apply run_inv in E as (w & r' & caps' & Hr & _ & E).
    injection E as <-. cbn [rest pos] in *.
    rewrite Hr. simpl. apply drop_app.
  - destruct (run true g (mkCursor None (String c s) 0 []) Some)
      as [st|] eqn:E.
    + cbn [index lastPos option_map].
      apply run_inv in E as (w & r' & caps' & Hr & _ & E).
      injection E as <-. cbn [rest pos] in *.
      rewrite Hr. simpl. apply drop_app.
    + now rewrite search_Bos_later.
Qed.

Lemma tracks_ext (k : cursor -> option cursor)
    (F F' : string -> option string) :
  tracks k F -> (forall r, F r = F' r) -> tracks k F'.
Proof. intros H E st. rewrite <- E. apply H. Qed.

(** [^(w\s+)] *)
Lemma oneWord_removed (w : string) (s : string) :
  removeFirst (flagI (Seq Bos (Group 1 (Seq (Lit w) (Plus Space))))) s
  = dropFiller [[w]] s.
Proof.
  rewrite (removeFirst_Bos _ (afterPhrase [w])); [reflexivity|].
  apply (group_tracks 1 _ _ Some); [|exact tracks_Some].
  intros k' Hk'. eapply tracks_ext.
  - apply (word_last_tracks w Some k' Hk' Some_lenient).
  - intros r. simpl. unfold bind.
    destruct (afterWord w r) as [r1|]; [|reflexivity].
    now destruct (afterSpaces r1).
Qed.

(** [^(w1\s+w2\s+)] *)
Lemma twoWords_removed (w1 w2 : string) (s : string) :
  wordy w2 ->
  removeFirst
    (flagI (Seq Bos (Group 1 (Seq (Lit w1) (Seq (Plus Space)
                                (Seq (Lit w2) (Plus Space))))))) s
  = dropFiller [[w1; w2]] s.
Proof.
  intros Hw2.
  rewrite (removeFirst_Bos _ (afterPhrase [w1; w2])); [reflexivity|].
  apply (group_tracks 1 _ _ Some); [|exact tracks_Some].
  intros k' Hk'. eapply tracks_ext.
  - apply word_then_tracks.
    + apply (word_last_tracks w2 Some k' Hk' Some_lenient).
    + apply rejectsSpace_lenient. now apply afterWord_rejectsSpace.
  - intros r. simpl. unfold bind.
    destruct (afterWord w1 r) as [r1|]; [|reflexivity].
    destruct (afterSpaces r1) as [r2|]; [|reflexivity].
    destruct (afterWord w2 r2) as [r3|]; [|reflexivity].
    now destruct (afterSpaces r3).
Qed.

(** [^(i\s+w\s+(you\s+)?to\s+)] *)
Lemma youTo_removed (w : string) (s : string) :
  wordy w ->
  removeFirst
    (flagI (Seq Bos (Group 1
       (Seq (Lit "i") (Seq (Plus Space) (Seq (Lit w) (Seq (Plus Space)
          (Seq (Opt (Group 2 (Seq (Lit "you") (Plus Space))))
               (Seq (Lit "to") (Plus Space)))))))))) s
  = dropFiller [["i"; w; "you"; "to"]; ["i"; w; "to"]] s.
Proof.
  intros Hw.
  rewrite (removeFirst_Bos _
             (fun r => match afterPhrase ["i"; w; "you"; "to"] r with
                       | Some x => Some x
                       | None => afterPhrase ["i"; w; "to"] r
                       end)).
  { cbn [dropFiller].
    now destruct (afterPhrase ["i"; w; "you"; "to"] s). }
  apply (group_tracks 1 _ _ Some); [|exact tracks_Some].
  intros k' Hk'.
  pose (Fto := fun r => bind (afterWord "to" r)
                          (fun r1 => bind (afterSpaces r1) Some)).
  pose (Fyou := fun r => bind (afterWord "you" r)
                           (fun r1 => bind (afterSpaces r1) Fto)).
  pose (Ftail := fun r => match Fyou r with
                          | Some x => Some x
                          | None => Fto r
                          end).
  assert (Hto : forall k'', tracks k'' Some ->
            tracks (fun st => run true (Seq (Lit "to") (Plus Space)) st k'')
              Fto).
  { intros k'' Hk''. apply (word_last_tracks "to" Some k'' Hk'' Some_lenient). }
  assert (Rto : rejectsSpace Fto).
  { apply afterWord_rejectsSpace. reflexivity. }
  assert (Ryou : rejectsSpace Fyou).
  { apply afterWord_rejectsSpace. reflexivity. }
  assert (Htail : tracks
            (fun st => run true
               (Seq (Opt (Group 2 (Seq (Lit "you") (Plus Space))))
                    (Seq (Lit "to") (Plus Space))) st k') Ftail).
  { intros st. cbn [run].
    apply (opt_tracks (Group 2 (Seq (Lit "you") (Plus Space))) Fyou Fto
             (fun st' => run true (Seq (Lit "to") (Plus Space)) st' k')).
    - apply (group_tracks 2 _ _ Fto); [|now apply Hto].
      intros k'' Hk''.
      apply (word_last_tracks "you" Fto k'' Hk'').
      now apply rejectsSpace_lenient.
    - now apply Hto. }
  assert (Rtail : rejectsSpace Ftail).
  { intros c r Hc. unfold Ftail. now rewrite Ryou, Rto. }
  eapply tracks_ext.
  - apply word_then_tracks.
    + apply word_then_tracks; [exact Htail|].
      now apply rejectsSpace_lenient.
    + apply rejectsSpace_lenient. now apply afterWord_rejectsSpace.
  - intros r. cbn [afterPhrase]. unfold bind.
    destruct (afterWord "i" r) as [r1|]; [|reflexivity].
    destruct (afterSpaces r1) as [r2|]; [|reflexivity].
    destruct (afterWord w r2) as [r3|]; [|reflexivity].
    destruct (afterSpaces r3) as [r4|]; [|reflexivity].
    unfold Ftail, Fyou, Fto, bind.
    destruct (afterWord "you" r4) as [r5|]; [|now destruct (afterWord "to" r4)].
    destruct (afterSpaces r5) as [r6|]; [|now destruct (afterWord "to" r4)].
    destruct (afterWord "to" r6) as [r7|]; [|now destruct (afterWord "to" r4)].
    destruct (afterSpaces r7) as [r8|]; [reflexivity|].
    now destruct (afterWord "to" r4).
Qed.

(** The five replacements of [extractPrimaryGoal], one after the other,
    are one pass over the fillers. *)
Lemma fillers_removed (sentence : string) :
  List.fold_left (fun goal re => removeFirst re goal) fillerPatterns sentence
  = dropFillers sentence.
Proof.
  unfold dropFillers, fillers. cbn [List.fold_left].
  rewrite <- (youTo_removed "want") by reflexivity.
  rewrite <- (oneWord_removed "please").
  rewrite <- (twoWords_removed "can" "you") by reflexivity.
  rewrite <- (twoWords_removed "help" "me") by reflexivity.
  rewrite <- (youTo_removed "need") by reflexivity.
  reflexivity.
Qed.

End GoalFacts.

(** C5, amended.  The primary goal is the first non-empty sentence of the
    input (split at [.], [!], [?], trimmed) from which the leading filler
    phrases are removed in one pass over the list "I want (you) to",
    "please", "can you", "help me", "I need (you) to": each phrase in turn
    is removed, with the white space after it, when what the phrases
    before it left starts with it; then the first letter is capitalized.
    Stacked fillers that come in list order are all removed; without a
    sentence the goal is the trimmed input. *)
Theorem primaryGoal_removes_fillers_in_turn (text : string) :
  extractPrimaryGoal text
  = match sentences text with
    | sentence :: _ => capitalize (dropFillers sentence)
    | [] => Str.trim text
    end.
Proof.
  unfold extractPrimaryGoal. fold (sentences text).
  destruct (sentences text) as [|sentence rest]; [reflexivity|].
  now rewrite GoalFacts.fillers_removed.
Qed.

(* ------------------------------------------------------------------ *)
(** ** What the matcher finds *)

Module SemFacts.

Import Scan Sem ReFacts.
Local Open Scope string_scope.

Lemma spells_length (ic : bool) (s w : string) :
  spells ic s w = true -> String.length w = String.length s.
Proof.
  revert w; induction s as [|a s IH]; intros [|c w] H; simpl in *;
    try discriminate; auto.
  apply andb_true_iff in H as [_ H]. now rewrite (IH w H).
Qed.

Section Matcher.

Variable ic : bool.

Lemma lit_spells (s : string) (p : option ascii) (r : string) (i : nat)
    (k : cont) (res : cursor) :
  lit ic s p r i k = Some res ->
  exists w r', r = w ++ r' /\ spells ic s w = true
               /\ k (after p w) r' (i + String.length w) = Some res.
Proof.
  revert p r i; induction s as [|a s IH]; intros p r i H; simpl in H.
  - exists "", r. simpl. now rewrite Nat.add_0_r.
  - destruct r as [|c r]; [discriminate|].
    destruct (Ascii.eqb _ _) eqn:E; [|discriminate].
    apply IH in H as (w & r' & -> & Hs & Hk).
    exists (String c w), r'. simpl. rewrite E, Hs, Nat.add_succ_r. auto.
Qed.

Lemma lit_complete (s w : string) (p : option ascii) (r : string) (i : nat)
    (k : cont) :
  spells ic s w = true ->
  lit ic s p (w ++ r) i k = k (after p w) r (i + String.length w).
Proof.
  revert w p i; induction s as [|a s IH]; intros [|c w] p i H; simpl in *;
    try discriminate.
  - now rewrite Nat.add_0_r.
  - apply andb_true_iff in H as [E H]. rewrite E, Nat.add_succ_r.
    now apply IH.
Qed.

Lemma star_complete (cs : cset) (w r : string) (p : option ascii) (i : nat)
    (k : cont) :
  Str.forallb (mem ic cs) w = true ->
  k (after p w) r (i + String.length w) <> None ->
  star ic cs p (w ++ r) i k <> None.
Proof.
  revert p i; induction w as [|c w IH]; intros p i Hw Hk; simpl in *.
  - rewrite Nat.add_0_r in Hk. destruct r as [|c r]; simpl; [exact Hk|].
    destruct (mem ic cs c); [|exact Hk].
    now destruct (star ic cs (Some c) r (S i) k).
  - apply andb_true_iff in Hw as [Hc Hw]. rewrite Hc.
    rewrite Nat.add_succ_r in Hk. specialize (IH (Some c) (S i) Hw Hk).
    now destruct (star ic cs (Some c) (w ++ r) (S i) k).
Qed.

Lemma starLazy_complete (cs : cset) (w r : string) (p : option ascii)
    (i : nat) (k : cont) :
  Str.forallb (mem ic cs) w = true ->
  k (after p w) r (i + String.length w) <> None ->
  starLazy ic cs p (w ++ r) i k <> None.
Proof.
  revert p i; induction w as [|c w IH]; intros p i Hw Hk; simpl in *.
  - rewrite Nat.add_0_r in Hk. destruct r as [|c r]; simpl;
      now destruct (k p _ i).
  - apply andb_true_iff in Hw as [Hc Hw]. rewrite Hc.
    rewrite Nat.add_succ_r in Hk.
    destruct (k p (String c (w ++ r)) i); [discriminate|].
    now apply IH.
Qed.

(** Soundness: what [run] returns comes from a match of the pattern. *)
Lemma run_sound (re : regex) (st : cursor) (k : cursor -> option cursor)
    (res : cursor) :
  run ic re st k = Some res ->
  exists w r' caps',
    rest st = w ++ r' /\ matches ic re (prev st) (pos st) w r'
    /\ k (mkCursor (after (prev st) w) r' (pos st + String.length w) caps')
       = Some res.
Proof.
  revert st k; induction re as
    [s|cs|cs|cs|cs| | | |a IHa b IHb|a IHa b IHb|a IHa|n a IHa];
    intros st k H; simpl in H.
  - apply lit_spells in H as (w & r' & Hr & Hs & Hk).
    exists w, r', (caps st). repeat split; auto. now constructor.
  - destruct (rest st) as [|c r'] eqn:Hr; [discriminate|].
    destruct (mem ic cs c) eqn:Hc; [|discriminate].
    exists (String c ""), r', (caps st). simpl. rewrite Nat.add_1_r.
    repeat split; auto. now constructor.
  - apply star_inv in H as (w & r' & Hr & Hw & Hk).
    exists w, r', (caps st). repeat split; auto. now constructor.
  - apply plus_inv in H as (w & r' & Hr & Hw & Hlen & Hk).
    exists w, r', (caps st). repeat split; auto.
    destruct w as [|c w]; [simpl in Hlen; lia|]. now constructor.
  - apply plusLazy_inv in H as (c & w & r' & Hr & Hw & Hk & _).
    exists (String c w), r', (caps st). repeat split; auto.
    now constructor.
  - destruct (atWordBoundary _ _) eqn:E; [|discriminate].
    exists "", (rest st), (caps st). simpl. rewrite Nat.add_0_r.
    repeat split; [now constructor | destruct st; auto].
  - destruct (pos st =? 0)%nat eqn:E; [|discriminate].
    apply Nat.eqb_eq in E.
    exists "", (rest st), (caps st). simpl. rewrite Nat.add_0_r.
    repeat split; [rewrite E; constructor | destruct st; auto].
  - destruct (rest st) eqn:Hr; [|discriminate].
    exists "", "", (caps st). simpl. rewrite Nat.add_0_r.
    repeat split; [constructor | destruct st; simpl in *; subst; auto].
  - apply IHa in H as (w1 & r1 & caps1 & Hr1 & Hm1 & H).
    apply IHb in H as (w2 & r2 & caps2 & Hr2 & Hm2 & H). simpl in *.
    exists (w1 ++ w2), r2, caps2. subst r1.
    rewrite StrFacts.app_assoc, after_app, StrFacts.length_app, Nat.add_assoc.
    repeat split; auto. now constructor.
  - destruct (run ic a st k) eqn:E.
    + injection H as ->. apply IHa in E as (w & r' & caps' & ? & ? & ?).
      exists w, r', caps'. repeat split; auto. now apply m_AltL.
    + apply IHb in H as (w & r' & caps' & ? & ? & ?).
      exists w, r', caps'. repeat split; auto. now apply m_AltR.
  - destruct (run ic a st k) eqn:E.
    + injection H as ->. apply IHa in E as (w & r' & caps' & ? & ? & ?).
      exists w, r', caps'. repeat split; auto. now apply m_OptSome.
    + exists "", (rest st), (caps st). simpl. rewrite Nat.add_0_r.
      repeat split; [apply m_OptNone | destruct st; auto].
  - apply IHa in H as (w & r' & caps' & Hr & Hm & H). simpl in H.
    eexists w, r', _. repeat split; eauto. now constructor.
Qed.

(** Completeness: where the pattern can match and the continuation
    accepts the position after the match, [run] finds something. *)
Lemma run_complete (re : regex) (p : option ascii) (i : nat)
    (w r : string) :
  matches ic re p i w r ->
  forall cs (k : cursor -> option cursor),
    (forall cs', k (mkCursor (after p w) r (i + String.length w) cs')
                 <> None) ->
    run ic re (mkCursor p (w ++ r) i cs) k <> None.
Proof.
  induction 1 as
    [s p i w r Hs|cs c p i r Hc|cs p i w r Hw|cs p i c w r Hw
    |cs p i c w r Hw|p i r Hb|p r|p i
    |a b p i w1 w2 r _ IHa _ IHb|a b p i w r _ IH|a b p i w r _ IH
    |a p i r|a p i w r _ IH|n a p i w r _ IH];
    intros cs0 k Hk; cbn [run prev rest pos caps].
  - rewrite (lit_complete s w p r i _ Hs). apply Hk.
  - simpl. rewrite Hc. specialize (Hk cs0). simpl in Hk.
    now rewrite Nat.add_1_r in Hk.
  - apply star_complete; [exact Hw | apply Hk].
  - simpl in Hw. apply andb_true_iff in Hw as [Hc Hw].
    unfold plus. simpl. rewrite Hc. apply star_complete; [exact Hw|].
    specialize (Hk cs0). simpl in Hk. now rewrite Nat.add_succ_r in Hk.
  - simpl in Hw. apply andb_true_iff in Hw as [Hc Hw].
    unfold plusLazy. simpl. rewrite Hc. apply starLazy_complete; [exact Hw|].
    specialize (Hk cs0). simpl in Hk. now rewrite Nat.add_succ_r in Hk.
  - simpl. rewrite Hb. specialize (Hk cs0). simpl in Hk.
    now rewrite Nat.add_0_r in Hk.
  - simpl. specialize (Hk cs0). now simpl in Hk.
  - simpl. specialize (Hk cs0). simpl in Hk. now rewrite Nat.add_0_r in Hk.
  - rewrite StrFacts.app_assoc. apply IHa. intros cs'. apply IHb.
    intros cs''. specialize (Hk cs'').
    now rewrite after_app, StrFacts.length_app, Nat.add_assoc in Hk.
  - specialize (IH cs0 k Hk).
    now destruct (run ic a (mkCursor p (w ++ r) i cs0) k).
  - destruct (run ic a (mkCursor p (w ++ r) i cs0) k); [discriminate|].
    now apply IH.
  - simpl. destruct (run ic a (mkCursor p r i cs0) k); [discriminate|].
    specialize (Hk cs0). simpl in Hk. now rewrite Nat.add_0_r in Hk.
  - specialize (IH cs0 k Hk).
    now destruct (run ic a (mkCursor p (w ++ r) i cs0) k).
  - apply IH. intros cs'. cbn [prev rest pos caps]. apply Hk.
Qed.

Lemma search_complete (re : regex) (pre r : string) (p : option ascii)
    (i : nat) :
  run ic re (mkCursor (after p pre) r (i + String.length pre) []) Some
  <> None ->
  search ic re p (pre ++ r) i <> None.
Proof.
  revert p i; induction pre as [|c pre IH]; intros p i H; simpl in *.
  - rewrite Nat.add_0_r in H.
    destruct r as [|c r]; simpl;
      now destruct (run ic re (mkCursor p _ i []) Some).
  - destruct (run ic re (mkCursor p (String c (pre ++ r)) i []) Some);
      [discriminate|].
    apply IH. now rewrite Nat.add_succ_r in H.
Qed.

End Matcher.

(** [test] says whether the pattern matches somewhere. *)
Lemma test_iff (re : RegExp) (text : string) :
  test re text = true <-> matchesIn re text.
Proof.
  unfold test, matchesIn. split.
  - destruct (search _ _ None text 0) as [m|] eqn:E; [|discriminate].
    intros _.
    apply search_inv in E as (sk & r0 & st & Ht & Hi & Hrun & _).
    apply run_sound in Hrun as (w & r' & caps' & Hr & Hm & _).
    cbn [prev rest pos] in *. exists sk, w, r'.
    rewrite Ht, Hr. split; [reflexivity|]. now rewrite Hi in Hm.
  - intros (pre & w & post & -> & Hm).
    assert (H : search (ignoreCase re) (source re) None
                  (pre ++ w ++ post) 0 <> None).
    { apply search_complete. simpl.
      apply (run_complete _ _ _ _ _ _ Hm). discriminate. }
    now destruct (search _ _ None (pre ++ w ++ post) 0).
Qed.

End SemFacts.

(* ------------------------------------------------------------------ *)
(** ** The word tables *)

Module TableFacts.

Import Scan Sem ReFacts SemFacts.
Local Open Scope string_scope.

Lemma matches_alt (ic : bool) (rs : list regex) (p : option ascii) (i : nat)
    (w r : string) :
  matches ic (alt rs) p i w r <-> exists a, In a rs /\ matches ic a p i w r.
Proof.
  induction rs as [|a rs IH].
  - simpl. split.
    + intros H. inversion H; subst. discriminate.
    + intros (a & [] & _).
  - destruct rs as [|b rs].
    + simpl. split.
      * intros H. exists a. auto.
      * intros (x & [<- | []] & H). exact H.
    + change (alt (a :: b :: rs)) with (Alt a (alt (b :: rs))). split.
      * intros H. inversion H; subst.
        -- exists a. split; [now left | assumption].
        -- apply IH in H6 as (x & Hx & Hm). exists x. split; [now right|].
           exact Hm.
      * intros (x & [<- | Hx] & Hm).
        -- now apply m_AltL.
        -- apply m_AltR. apply IH. now exists x.
Qed.

Lemma matches_WordB (ic : bool) (p : option ascii) (i : nat) (w r : string) :
  matches ic WordB p i w r <-> w = "" /\ atWordBoundary p r = true.
Proof.
  split.
  - intros H. inversion H; subst. auto.
  - intros [-> H]. now constructor.
Qed.

Lemma matches_Seq (ic : bool) (a b : regex) (p : option ascii) (i : nat)
    (w r : string) :
  matches ic (Seq a b) p i w r
  <-> exists w1 w2,
        w = w1 ++ w2 /\ matches ic a p i w1 (w2 ++ r)
        /\ matches ic b (after p w1) (i + String.length w1) w2 r.
Proof.
  split.
  - intros H. inversion H; subst. now exists w1, w2.
  - intros (w1 & w2 & -> & Ha & Hb). now constructor.
Qed.

Lemma matches_Group (ic : bool) (n : nat) (a : regex) (p : option ascii)
    (i : nat) (w r : string) :
  matches ic (Group n a) p i w r <-> matches ic a p i w r.
Proof.
  split; [intros H; now inversion H | now constructor].
Qed.

Lemma matches_Lit (ic : bool) (s : string) (p : option ascii) (i : nat)
    (w r : string) :
  matches ic (Lit s) p i w r <-> spells ic s w = true.
Proof.
  split; [intros H; now inversion H | now constructor].
Qed.

Lemma matches_Opt (ic : bool) (a : regex) (p : option ascii) (i : nat)
    (w r : string) :
  matches ic (Opt a) p i w r <-> w = "" \/ matches ic a p i w r.
Proof.
  split.
  - intros H. inversion H; subst; auto.
  - intros [-> | H]; [apply m_OptNone | now apply m_OptSome].
Qed.

(** [\b(a1|a2|...)\b] *)
Lemma matches_wholeWord (ic : bool) (alts : list regex) (p : option ascii)
    (i : nat) (w r : string) :
  matches ic (wholeWord alts) p i w r
  <-> atWordBoundary p (w ++ r) = true
      /\ (exists a, In a alts /\ matches ic a p i w r)
      /\ atWordBoundary (after p w) r = true.
Proof.
  unfold wholeWord. cbn [seq].
  rewrite matches_Seq. split.
  - intros (w1 & w2 & -> & H1 & H2).
    apply matches_WordB in H1 as [-> Hb1]. simpl in *.
    apply matches_Seq in H2 as (w3 & w4 & -> & H3 & H4).
    apply matches_WordB in H4 as [-> Hb2]. simpl in H3.
    apply matches_Group, matches_alt in H3.
    rewrite Nat.add_0_r in H3. rewrite StrFacts.app_nil_r in *.
    auto.
  - intros (Hb1 & Ha & Hb2). exists "", w. simpl.
    split; [reflexivity|]. split; [now apply matches_WordB|].
    apply matches_Seq. exists w, "". rewrite StrFacts.app_nil_r.
    simpl. rewrite Nat.add_0_r. split; [reflexivity|].
    split; [|now apply matches_WordB].
    now apply matches_Group, matches_alt.
Qed.

(** A row of literal words. *)
Lemma rowOf_words (ic g : bool) (ws : list string) :
  rowOf (mkRegExp (wholeWord (List.map Lit ws)) g ic) ws.
Proof.
  intros text. rewrite test_iff. unfold matchesIn, triggered, occursAsWord.
  cbn [ignoreCase source]. split.
  - intros (pre & w & post & Ht & Hm).
    apply matches_wholeWord in Hm as (Hb1 & (a & Ha & Hm) & Hb2).
    apply in_map_iff in Ha as (s & <- & Hs). apply matches_Lit in Hm.
    exists s. split; [exact Hs|]. exists pre, w, post.
    rewrite after_app. auto.
  - intros (s & Hs & pre & w & post & Ht & Hsp & Hb1 & Hb2).
    exists pre, w, post. split; [exact Ht|].
    apply matches_wholeWord. rewrite after_app in Hb2.
    split; [exact Hb1|]. split; [|exact Hb2].
    exists (Lit s). split; [now apply in_map | now apply matches_Lit].
Qed.

(** The first row of a table whose pattern matches. *)
Lemma firstMatch_Some {A : Type} (table : list (RegExp * A)) (text : string)
    (label : A) :
  firstMatch table text = Some label
  <-> exists before re later,
        table = (before ++ (re, label) :: later)%list
        /\ test re text = true
        /\ forall re' l', In (re', l') before -> test re' text = false.
Proof.
  induction table as [|[re l] table IH]; simpl.
  - split; [discriminate | intros ([|] & ? & ? & H & _); discriminate].
  - destruct (test re text) eqn:E.
    + split.
      * intros H. injection H as ->. exists [], re, table.
        repeat split; auto. intros ? ? [].
      * intros ([|[re0 l0] before] & re1 & later & H & Ht & Hb).
        -- simpl in H. now injection H as _ ->.
        -- simpl in H. injection H as <- <- _.
           rewrite (Hb re l (or_introl eq_refl)) in E. discriminate.
    + rewrite IH. split.
      * intros (before & re1 & later & -> & Ht & Hb).
        exists ((re, l) :: before), re1, later. repeat split; auto.
        intros re' l' [H | H]; [now injection H as <- <- | eauto].
      * intros ([|[re0 l0] before] & re1 & later & H & Ht & Hb).
        -- simpl in H. injection H as <- <-. congruence.
        -- simpl in H. injection H as <- <- ->.
           exists before, re1, later. repeat split; auto.
           intros re' l' Hin. apply (Hb re' l'). now right.
Qed.

Lemma firstMatch_None {A : Type} (table : list (RegExp * A)) (text : string) :
  firstMatch table text = None
  <-> forall re l, In (re, l) table -> test re text = false.
Proof.
  induction table as [|[re l] table IH]; simpl.
  - split; [intros _ ? ? [] | reflexivity].
  - destruct (test re text) eqn:E.
    + split; [discriminate|]. intros H.
      rewrite (H re l (or_introl eq_refl)) in E. discriminate.
    + rewrite IH. split.
      * intros H re' l' [H' | H']; [now injection H' as <- <- | eauto].
      * intros H re' l' Hin. apply (H re' l'). now right.
Qed.

(** A row [\b(a1|a2|...)\b] whose alternatives spell the words [ws]. *)
Lemma rowOf_alts (ic g : bool) (alts : list regex) (ws : list string) :
  (forall p i w r,
     (exists a, In a alts /\ matches ic a p i w r)
     <-> exists s, In s ws /\ spells ic s w = true) ->
  rowOf (mkRegExp (wholeWord alts) g ic) ws.
Proof.
  intros Halts text. rewrite test_iff.
  unfold matchesIn, triggered, occursAsWord. cbn [ignoreCase source]. split.
  - intros (pre & w & post & Ht & Hm).
    apply matches_wholeWord in Hm as (Hb1 & Ha & Hb2).
    apply Halts in Ha as (s & Hs & Hsp).
    exists s. split; [exact Hs|]. exists pre, w, post.
    rewrite after_app. auto.
  - intros (s & Hs & pre & w & post & Ht & Hsp & Hb1 & Hb2).
    exists pre, w, post. split; [exact Ht|].
    apply matches_wholeWord. rewrite after_app in Hb2.
    split; [exact Hb1|]. split; [|exact Hb2].
    apply Halts. now exists s.
Qed.

Lemma spells_app (ic : bool) (a b w : string) :
  spells ic (a ++ b) w = true
  <-> exists w1 w2, w = w1 ++ w2 /\ spells ic a w1 = true
                    /\ spells ic b w2 = true.
Proof.
  revert w; induction a as [|x a IH]; intros w; simpl.
  - split.
    + intros H. now exists "", w.
    + intros ([|] & w2 & -> & H1 & H2); [exact H2 | discriminate].
  - destruct w as [|c w].
    + split; [discriminate|].
      intros ([|] & [|] & H & H1 & _); discriminate.
    + rewrite andb_true_iff, IH. split.
      * intros (E & w1 & w2 & -> & H1 & H2).
        exists (String c w1), w2. simpl. now rewrite E, H1.
      * intros ([|d w1] & w2 & H & H1 & H2); [discriminate|].
        simpl in H. injection H as <- ->.
        apply andb_true_iff in H1 as [E H1]. split; [exact E|].
        now exists w1, w2.
Qed.

Lemma spells_nil (ic : bool) (w : string) :
  spells ic "" w = true <-> w = "".
Proof. destruct w; simpl; split; congruence. Qed.

(** [e-?commerce] *)
Lemma matches_ecommerce (ic : bool) (p : option ascii) (i : nat)
    (w r : string) :
  matches ic (seq [Lit "e"; Opt (Lit "-"); Lit "commerce"]) p i w r
  <-> spells ic "ecommerce" w = true \/ spells ic "e-commerce" w = true.
Proof.
  cbn [seq]. rewrite matches_Seq.
  change "ecommerce" with ("e" ++ "" ++ "commerce").
  change "e-commerce" with ("e" ++ "-" ++ "commerce").
  rewrite !spells_app. split.
  - intros (w1 & w2 & -> & H1 & H2). apply matches_Lit in H1.
    apply matches_Seq in H2 as (w3 & w4 & -> & H3 & H4).
    apply matches_Lit in H4. apply matches_Opt in H3 as [-> | H3].
    + left. exists w1, w4. simpl. auto.
    + right. apply matches_Lit in H3. exists w1, (w3 ++ w4).
      repeat split; auto. apply spells_app. now exists w3, w4.
  - intros [(w1 & w2 & -> & H1 & H2) | (w1 & w2 & -> & H1 & H2)];
      apply spells_app in H2 as (w3 & w4 & -> & H3 & H4);
      exists w1, (w3 ++ w4); (split; [reflexivity|]);
      (split; [now apply matches_Lit|]);
      apply matches_Seq; exists w3, w4; (split; [reflexivity|]);
      (split; [|now apply matches_Lit]); apply matches_Opt.
    + left. now apply spells_nil in H3.
    + right. now apply matches_Lit.
Qed.

(** A table of patterns read row by row against a table of conditions:
    the label is that of the first row whose condition holds. *)
Lemma firstMatch_rows {A W : Type} (holds : W -> Prop)
    (table : list (RegExp * A)) (rows : list (W * A)) (text : string) :
  Forall2 (fun row wrow =>
             snd row = snd wrow
             /\ (test (fst row) text = true <-> holds (fst wrow)))
    table rows ->
  (forall label,
     firstMatch table text = Some label
     <-> exists before ws later,
           rows = (before ++ (ws, label) :: later)%list
           /\ holds ws
           /\ forall ws' l', In (ws', l') before -> ~ holds ws')
  /\ (firstMatch table text = None
      <-> forall ws l, In (ws, l) rows -> ~ holds ws).
Proof.
  induction 1 as [|[re l] [ws0 l0] table rows (Hl & Hrow) _ [IHs IHn]];
    simpl in *.
  - split.
    + intros label. split; [discriminate|].
      intros ([|] & ? & ? & H & _); discriminate.
    + split; [intros _ ? ? [] | reflexivity].
  - subst l0. destruct (test re text) eqn:E.
    + split.
      * intros label. split.
        -- intros H. injection H as ->. exists [], ws0, rows.
           repeat split; [now apply Hrow | intros ? ? []].
        -- intros ([|[ws1 l1] before] & ws2 & later & H & Ht & Hb);
             simpl in H.
           ++ now injection H as _ ->.
           ++ injection H as <- <- _. exfalso.
              apply (Hb ws0 l (or_introl eq_refl)). now apply Hrow.
      * split; [discriminate|]. intros H. exfalso.
        apply (H ws0 l (or_introl eq_refl)). now apply Hrow.
    + assert (Hno : ~ holds ws0).
      { intros H. apply Hrow in H. discriminate. }
      split.
      * intros label. rewrite IHs. split.
        -- intros (before & ws & later & -> & Ht & Hb).
           exists ((ws0, l) :: before), ws, later. repeat split; auto.
           intros ws' l' [H | H]; [now injection H as <- <- | eauto].
        -- intros ([|[ws1 l1] before] & ws2 & later & H & Ht & Hb);
             simpl in H.
           ++ injection H as <- <-. contradiction.
           ++ injection H as <- <- ->. exists before, ws2, later.
              repeat split; auto. intros ws' l' Hin.
              apply (Hb ws' l'). now right.
      * rewrite IHn. split.
        -- intros H ws l' [H' | H']; [now injection H' as <- <- | eauto].
        -- intros H ws l' Hin. apply (H ws l'). now right.
Qed.

Ltac words_row :=
  split; [reflexivity | apply (rowOf_words true false)].

Lemma ecommerce_row :
  rowOf (flagI (wholeWord [seq [Lit "e"; Opt (Lit "-"); Lit "commerce"];
                           Lit "shopping"; Lit "retail"]))
    ["ecommerce"; "e-commerce"; "shopping"; "retail"].
Proof.
  apply rowOf_alts. intros p i w r. split.
  - intros (a & [<- | [<- | [<- | []]]] & H).
    + apply matches_ecommerce in H as [H | H].
      * exists "ecommerce". split; [cbn [In]; auto 10 | exact H].
      * exists "e-commerce". split; [cbn [In]; auto 10 | exact H].
    + apply matches_Lit in H. exists "shopping".
      split; [cbn [In]; auto 10 | exact H].
    + apply matches_Lit in H. exists "retail".
      split; [cbn [In]; auto 10 | exact H].
  - intros (s & [<- | [<- | [<- | [<- | []]]]] & H).
    + eexists. split; [left; reflexivity|].
      apply matches_ecommerce. now left.
    + eexists. split; [left; reflexivity|].
      apply matches_ecommerce. now right.
    + exists (Lit "shopping"). split; [cbn [In]; auto 10|].
      now apply matches_Lit.
    + exists (Lit "retail"). split; [cbn [In]; auto 10|].
      now apply matches_Lit.
Qed.

Lemma DOMAIN_rows (text : string) :
  Forall2 (fun row wrow =>
             snd row = snd wrow
             /\ (test (fst row) text = true
                 <-> triggered true text (fst wrow)))
    DOMAIN_PATTERNS DOMAIN_WORDS.
Proof.
  unfold DOMAIN_PATTERNS, DOMAIN_WORDS.
  do 8 (constructor; [words_row|]).
  constructor; [split; [reflexivity | apply ecommerce_row]|].
  constructor; [words_row | constructor].
Qed.

Lemma extractTaskTypeFrom_words (table : list (string * list string))
    (text : string) :
  (forall ty,
     extractTaskTypeFrom (List.map taskRow table) text = Some ty
     <-> exists before ws later,
           table = (before ++ (ty, ws) :: later)%list
           /\ triggered true text ws
           /\ forall ty' ws', In (ty', ws') before ->
                ~ triggered true text ws')
  /\ (extractTaskTypeFrom (List.map taskRow table) text = None
      <-> forall ty ws, In (ty, ws) table -> ~ triggered true text ws).
Proof.
  induction table as [|[ty0 ws0] table [IHs IHn]]; simpl.
  - split.
    + intros ty. split; [discriminate|].
      intros ([|] & ? & ? & H & _); discriminate.
    + split; [intros _ ? ? [] | reflexivity].
  - rewrite orb_false_r.
    pose proof (rowOf_words true false ws0 text) as Hrow.
    cbn [ignoreCase] in Hrow. fold (flagI (wholeWord (List.map Lit ws0))) in Hrow.
    destruct (test (flagI (wholeWord (List.map Lit ws0))) text) eqn:E.
    + split.
      * intros ty. split.
        -- intros H. injection H as ->. exists [], ws0, table.
           repeat split; [now apply Hrow | intros ? ? []].
        -- intros ([|[ty1 ws1] before] & ws2 & later & H & Ht & Hb);
             simpl in H.
           ++ now injection H as -> _.
           ++ injection H as <- <- _. exfalso.
              apply (Hb ty0 ws0 (or_introl eq_refl)). now apply Hrow.
      * split; [discriminate|]. intros H. exfalso.
        apply (H ty0 ws0 (or_introl eq_refl)). now apply Hrow.
    + assert (Hno : ~ triggered true text ws0).
      { intros H. apply Hrow in H. discriminate. }
      split.
      * intros ty. rewrite IHs. split.
        -- intros (before & ws & later & -> & Ht & Hb).
           exists ((ty0, ws0) :: before), ws, later. repeat split; auto.
           intros ty' ws' [H | H]; [now injection H as <- <- | eauto].
        -- intros ([|[ty1 ws1] before] & ws2 & later & H & Ht & Hb);
             simpl in H.
           ++ injection H as <- <-. contradiction.
           ++ injection H as <- <- ->. exists before, ws2, later.
              repeat split; auto. intros ty' ws' Hin.
              apply (Hb ty' ws'). now right.
      * rewrite IHn. split.
        -- intros H ty ws [H' | H']; [now injection H' as <- <- | eauto].
        -- intros H ty ws Hin. apply (H ty ws). now right.
Qed.

End TableFacts.

(** X1.  The task type is that of the first category, in the order generate,
    analyze, explain, fix, optimize, convert, summarize, one of whose
    trigger words occurs in the text as a whole word, in any casing; it is
    null exactly when no trigger word of any category occurs. *)
Theorem taskType_by_priority (text : string) :
  (forall ty,
     extractTaskType text = Some ty
     <-> exists before ws later,
           TASK_WORDS = before ++ (ty, ws) :: later
           /\ triggered true text ws
           /\ forall ty' ws', In (ty', ws') before ->
                ~ triggered true text ws')
  /\ (extractTaskType text = None
      <-> forall ty ws, In (ty, ws) TASK_WORDS -> ~ triggered true text ws).
Proof.
  unfold extractTaskType.
  change TASK_TYPE_PATTERNS with (List.map taskRow TASK_WORDS).
  apply TableFacts.extractTaskTypeFrom_words.
Qed.

(** X2.  The domain is that of the first row of the domain table one of whose
    words occurs in the text as a whole word, in any casing; it is null
    exactly when none occurs. *)
Theorem domain_by_priority (text : string) :
  (forall domain,
     extractDomain text = Some domain
     <-> exists before ws later,
           DOMAIN_WORDS = before ++ (ws, domain) :: later
           /\ triggered true text ws
           /\ forall ws' d', In (ws', d') before ->
                ~ triggered true text ws')
  /\ (extractDomain text = None
      <-> forall ws d, In (ws, d) DOMAIN_WORDS -> ~ triggered true text ws).
Proof.
  unfold extractDomain.
  apply (TableFacts.firstMatch_rows (triggered true text)).
  apply TableFacts.DOMAIN_rows.
Qed.

(* ------------------------------------------------------------------ *)
(** ** Output expectations and assumptions *)

Module OutputFacts.

Import Scan Sem ReFacts SemFacts TableFacts.

Lemma extractOutputExpectations_inv (fuel : nat) (text : string)
    (o : option OutputExpectation.t) :
  extractOutputExpectations fuel text = Some o ->
  exists structures,
    collectStructures fuel text structurePatterns [] = Some structures
    /\ o = if match firstMatch LENGTH_PATTERNS text with
              | Some _ => true
              | None => false
              end
              || given (firstMatch formatPatterns text)
              || nonEmpty structures
           then Some (OutputExpectation.mk
                  (Some match firstMatch LENGTH_PATTERNS text with
                        | Some l => l
                        | None => Any
                        end)
                  (firstMatch formatPatterns text)
                  (if nonEmpty structures then Some structures else None))
           else None.
Proof.
  unfold extractOutputExpectations.
  destruct (collectStructures fuel text structurePatterns []) as [ss|];
    [|discriminate].
  intros H. injection H as <-. now exists ss.
Qed.

Lemma firstMatch_In {A : Type} (table : list (RegExp * A)) (text : string)
    (label : A) :
  firstMatch table text = Some label -> In label (List.map snd table).
Proof.
  induction table as [|[re l] table IH]; simpl; [discriminate|].
  destruct (test re text).
  - intros H. injection H as ->. now left.
  - intros H. right. now apply IH.
Qed.

Lemma extractTaskTypeFrom_In (table : list (string * list RegExp))
    (text ty : string) :
  extractTaskTypeFrom table text = Some ty -> In ty (List.map fst table).
Proof.
  induction table as [|[t ps] table IH]; simpl; [discriminate|].
  destruct (existsb _ ps).
  - intros H. injection H as ->. now left.
  - intros H. right. now apply IH.
Qed.

(** A label of a table is never the empty string. *)
Lemma given_firstMatch (table : list (RegExp * string)) (text : string) :
  Forall (fun l => Str.truthy l = true) (List.map snd table) ->
  given (firstMatch table text)
  = match firstMatch table text with Some _ => true | None => false end.
Proof.
  intros Hall. destruct (firstMatch table text) as [l|] eqn:E;
    [|reflexivity].
  apply firstMatch_In in E. rewrite Forall_forall in Hall.
  simpl. now apply Hall.
Qed.

Lemma spells_exact (s w : string) : spells false s w = true <-> w = s.
Proof.
  revert w; induction s as [|a s IH]; intros [|c w]; simpl;
    try (split; congruence).
  rewrite andb_true_iff, IH, Ascii.eqb_eq. split.
  - intros [-> ->]. reflexivity.
  - intros H. injection H as -> ->. auto.
Qed.

Lemma occursAsWord_exact (text s : string) :
  occursAsWord false text s <-> occursExactly text s.
Proof.
  unfold occursAsWord, occursExactly. split.
  - intros (pre & w & post & Ht & Hs & Hb). apply spells_exact in Hs.
    subst w. now exists pre, post.
  - intros (pre & post & Ht & Hb). exists pre, s, post.
    split; [exact Ht|]. split; [now apply spells_exact | exact Hb].
Qed.

Lemma format_JSON (text : string) :
  firstMatch formatPatterns text = Some "JSON"
  <-> occursExactly text "json" \/ occursExactly text "JSON".
Proof.
  pose proof (rowOf_words false false ["json"; "JSON"] text) as Hrow.
  cbn [ignoreCase] in Hrow.
  fold (noFlags (wholeWord (List.map Lit ["json"; "JSON"]))) in Hrow.
  assert (Hw : triggered false text ["json"; "JSON"]
               <-> occursExactly text "json" \/ occursExactly text "JSON").
  { unfold triggered. split.
    - intros (s & [<- | [<- | []]] & H); apply occursAsWord_exact in H; auto.
    - intros [H | H]; apply occursAsWord_exact in H;
        eexists; (split; [|exact H]); simpl; auto. }
  rewrite <- Hw, <- Hrow. unfold formatPatterns. cbn [firstMatch List.map].
  destruct (test (noFlags (wholeWord [Lit "json"; Lit "JSON"])) text).
  - split; reflexivity.
  - split; [|discriminate].
    repeat match goal with
           | |- context [if test ?re text then _ else _] =>
               destruct (test re text)
           end; discriminate.
Qed.

Lemma length_cases (text : string) :
  let short := triggered true text SHORT_WORDS in
  let long := triggered true text LONG_WORDS in
  let medium := triggered true text MEDIUM_WORDS in
  let found := firstMatch LENGTH_PATTERNS text in
  (found = Some Short <-> short)
  /\ (found = Some Long <-> ~ short /\ long)
  /\ (found = Some Medium <-> ~ short /\ ~ long /\ medium)
  /\ (found = None <-> ~ short /\ ~ long /\ ~ medium).
Proof.
  intros short long medium found. subst short long medium found.
  pose proof (rowOf_words true false SHORT_WORDS text) as H1.
  pose proof (rowOf_words true false LONG_WORDS text) as H2.
  pose proof (rowOf_words true false MEDIUM_WORDS text) as H3.
  cbn [ignoreCase] in H1, H2, H3. rewrite <- H1, <- H2, <- H3.
  unfold LENGTH_PATTERNS, flagI, SHORT_WORDS, LONG_WORDS, MEDIUM_WORDS.
  cbn [firstMatch].
  destruct (test _ text); [|destruct (test _ text); [|destruct (test _ text)]];
    intuition (try discriminate; try congruence).
Qed.

End OutputFacts.

(** X3.  The length of the output expectations goes by priority: "short" when
    a short word (brief, short, concise, quick, simple) occurs as a whole
    word, else "long" when a long word occurs, else "medium" when a medium
    word occurs, else "any"; without any length word the whole record can
    be null. *)
Theorem outputLength_by_priority (fuel : nat) (text : string)
    (o : option OutputExpectation.t) :
  extractOutputExpectations fuel text = Some o ->
  let short := triggered true text SHORT_WORDS in
  let long := triggered true text LONG_WORDS in
  let medium := triggered true text MEDIUM_WORDS in
  match o with
  | Some e =>
      (OutputExpectation.length e = Some Short <-> short)
      /\ (OutputExpectation.length e = Some Long <-> ~ short /\ long)
      /\ (OutputExpectation.length e = Some Medium
          <-> ~ short /\ ~ long /\ medium)
      /\ (OutputExpectation.length e = Some Any
          <-> ~ short /\ ~ long /\ ~ medium)
  | None => ~ short /\ ~ long /\ ~ medium
  end.
Proof.
  intros H short long medium.
  apply OutputFacts.extractOutputExpectations_inv in H as (ss & _ & ->).
  destruct (OutputFacts.length_cases text) as (Hs & Hl & Hm & Hn).
  fold short long medium in Hs, Hl, Hm, Hn.
  destruct (firstMatch LENGTH_PATTERNS text) as [[| | |]|] eqn:E; cbn [orb].
  - cbn [OutputExpectation.length].
    intuition (try discriminate; try congruence).
  - cbn [OutputExpectation.length].
    intuition (try discriminate; try congruence).
  - cbn [OutputExpectation.length].
    intuition (try discriminate; try congruence).
  - exfalso. apply OutputFacts.firstMatch_In in E. simpl in E.
    intuition discriminate.
  - destruct (given _ || nonEmpty ss).
    + cbn [OutputExpectation.length].
      intuition (try discriminate; try congruence).
    + now apply Hn.
Qed.

Lemma outputLength_by_priority_witness :
  exists e,
    extractOutputExpectations 50 "a short but detailed note" = Some (Some e)
    /\ (OutputExpectation.length e = Some Short
        <-> triggered true "a short but detailed note" SHORT_WORDS).
Proof.
  eexists. split; [vm_compute; reflexivity|].
  eapply (outputLength_by_priority 50 "a short but detailed note" (Some _)).
  vm_compute. reflexivity.
Defined.

(** X4.  The format is "JSON" exactly when the text has the whole word "json"
    or "JSON" in one of these two spellings: the pattern has no [i] flag,
    so "Json" is not recognised. *)
Theorem format_JSON_exact_case (fuel : nat) (text : string)
    (e : OutputExpectation.t) :
  extractOutputExpectations fuel text = Some (Some e) ->
  OutputExpectation.format e = Some "JSON"
  <-> occursExactly text "json" \/ occursExactly text "JSON".
Proof.
  intros H.
  apply OutputFacts.extractOutputExpectations_inv in H as (ss & _ & H).
  rewrite <- OutputFacts.format_JSON.
  destruct (_ || nonEmpty ss); [|discriminate].
  injection H as ->. reflexivity.
Qed.

Lemma format_JSON_exact_case_witness :
  exists e,
    extractOutputExpectations 50 "Reply in Json or JSON" = Some (Some e)
    /\ (OutputExpectation.format e = Some "JSON"
        <-> occursExactly "Reply in Json or JSON" "json"
            \/ occursExactly "Reply in Json or JSON" "JSON").
Proof.
  eexists. split; [vm_compute; reflexivity|].
  eapply (format_JSON_exact_case 50 "Reply in Json or JSON").
  vm_compute. reflexivity.
Defined.

(** What [normalize] puts into the intent and the response. *)
Lemma normalize_fields (fuel : nat) (input : string)
    (r : NormalizeResponse.t) :
  normalize fuel input = Some r ->
  let i := NormalizeResponse.intent r in
  Intent.taskType i = extractTaskType input
  /\ Intent.audience i = extractAudience input
  /\ Intent.domain i = extractDomain input
  /\ extractOutputExpectations fuel input = Some (Intent.outputExpectations i)
  /\ Intent.assumptions i
     = generateAssumptions (Intent.audience i) (Intent.domain i)
         (Intent.outputExpectations i)
  /\ Intent.requiresClarification i
     = List.existsb isBlocking (Intent.conflicts i)
  /\ NormalizeResponse.irl r = generateIRL i
  /\ NormalizeResponse.compiled r = compilePrompt i.
Proof.
  unfold normalize, parseIntent.
  destruct (extractConstraints fuel input HARD_CONSTRAINT_PATTERNS Hard);
    [|discriminate].
  destruct (extractConstraints fuel input SOFT_CONSTRAINT_PATTERNS Soft);
    [|discriminate].
  destruct (extractOutputExpectations fuel input); [|discriminate].
  intros H. injection H as <-.
  cbn [NormalizeResponse.intent NormalizeResponse.irl
       NormalizeResponse.compiled Intent.taskType Intent.audience
       Intent.domain Intent.outputExpectations Intent.assumptions
       Intent.requiresClarification Intent.conflicts
       ParsedIntent.taskType ParsedIntent.audience ParsedIntent.domain
       ParsedIntent.outputExpectations ParsedIntent.assumptions].
  repeat split.
Qed.

(** X5.  The assumptions of the intent are the notes for its null fields, in
    the order audience, output expectations, domain.  The note on the
    medium length is made exactly when the output expectations are null
    as a whole: a record with the length "any" gets none. *)
Theorem assumptions_for_null_fields (fuel : nat) (input : string)
    (r : NormalizeResponse.t) :
  normalize fuel input = Some r ->
  Intent.assumptions (NormalizeResponse.intent r)
  = match Intent.audience (NormalizeResponse.intent r) with
    | None => [NOTE_AUDIENCE]
    | Some _ => []
    end
    ++ match Intent.outputExpectations (NormalizeResponse.intent r) with
       | None => [NOTE_LENGTH]
       | Some _ => []
       end
    ++ match Intent.domain (NormalizeResponse.intent r) with
       | None => [NOTE_DOMAIN]
       | Some _ => []
       end.
Proof.
  intros H. apply normalize_fields in H as (_ & Ha & Hd & Ho & -> & _).
  rewrite Ha, Hd. unfold generateAssumptions.
  rewrite (OutputFacts.given_firstMatch AUDIENCE_PATTERNS)
    by (repeat constructor).
  unfold extractDomain.
  rewrite (OutputFacts.given_firstMatch DOMAIN_PATTERNS)
    by (repeat constructor).
  apply OutputFacts.extractOutputExpectations_inv in Ho as (ss & _ & ->).
  unfold extractAudience.
  destruct (firstMatch AUDIENCE_PATTERNS input),
    (firstMatch DOMAIN_PATTERNS input),
    (_ || nonEmpty ss); reflexivity.
Qed.

Lemma assumptions_for_null_fields_witness :
  exists r,
    normalize 50 "Reply in JSON" = Some r
    /\ Intent.assumptions (NormalizeResponse.intent r)
       = [NOTE_AUDIENCE; NOTE_DOMAIN].
Proof.
  eexists. split; [vm_compute; reflexivity|].
  apply (assumptions_for_null_fields 50 "Reply in JSON").
  vm_compute. reflexivity.
Defined.

(** X6.  The intent never carries a label from outside the tables: the task
    type is one of the seven categories, the audience and the domain are
    labels of their tables, and output expectations, when present, have a
    length, a format of the format table or none, and a structure list
    that is null or not empty. *)
Theorem labels_closed (fuel : nat) (input : string)
    (r : NormalizeResponse.t) :
  normalize fuel input = Some r ->
  let i := NormalizeResponse.intent r in
  (forall ty, Intent.taskType i = Some ty -> In ty TASK_LABELS)
  /\ (forall a, Intent.audience i = Some a ->
        In a (List.map snd AUDIENCE_PATTERNS))
  /\ (forall d, Intent.domain i = Some d ->
        In d (List.map snd DOMAIN_WORDS))
  /\ (forall e, Intent.outputExpectations i = Some e ->
        OutputExpectation.length e <> None
        /\ (forall f, OutputExpectation.format e = Some f ->
              In f FORMAT_LABELS)
        /\ OutputExpectation.structure e <> Some []).
Proof.
  intros H i. apply normalize_fields in H as (Ht & Ha & Hd & Ho & _).
  fold i in Ht, Ha, Hd, Ho. rewrite Ht, Ha, Hd.
  split; [|split; [|split]].
  - intros ty E. apply OutputFacts.extractTaskTypeFrom_In in E. exact E.
  - intros a E. now apply OutputFacts.firstMatch_In in E.
  - intros d E. apply OutputFacts.firstMatch_In in E. exact E.
  - intros e E. rewrite E in Ho.
    apply OutputFacts.extractOutputExpectations_inv in Ho as (ss & _ & Ho).
    destruct (_ || nonEmpty ss); [|discriminate].
    injection Ho as ->.
    cbn [OutputExpectation.length OutputExpectation.format
         OutputExpectation.structure].
    split; [discriminate|]. split.
    + intros f E'. exact (OutputFacts.firstMatch_In formatPatterns _ _ E').
    + destruct ss; simpl; discriminate.
Qed.

Lemma labels_closed_witness :
  exists r,
    normalize 50 "Write a backend API guide for developers" = Some r
    /\ forall ty, Intent.taskType (NormalizeResponse.intent r) = Some ty ->
         In ty TASK_LABELS.
Proof.
  eexists. split; [vm_compute; reflexivity|].
  eapply (labels_closed 50 "Write a backend API guide for developers").
  vm_compute. reflexivity.
Defined.

(* ------------------------------------------------------------------ *)
(** ** The audience table *)

Module AudienceFacts.

Import Scan Sem ReFacts SemFacts TableFacts.
Local Open Scope string_scope.

Lemma matches_Plus (ic : bool) (cs : cset) (p : option ascii) (i : nat)
    (w r : string) :
  matches ic (Plus cs) p i w r
  <-> w <> "" /\ Str.forallb (mem ic cs) w = true.
Proof.
  split.
  - intros H. inversion H; subst. split; [discriminate | assumption].
  - intros [Hne Hw]. destruct w as [|c w]; [contradiction|].
    now constructor.
Qed.

(** [ss?], a word with an optional last letter "s" *)
Lemma matches_plural (ic : bool) (s : string) (p : option ascii) (i : nat)
    (u r : string) :
  matches ic (plural s) p i u r
  <-> exists t, In t [s; s ++ "s"] /\ spells ic t u = true.
Proof.
  unfold plural. rewrite matches_Seq. split.
  - intros (w1 & w2 & -> & H1 & H2). apply matches_Lit in H1.
    apply matches_Opt in H2 as [-> | H2].
    + exists s. rewrite StrFacts.app_nil_r. simpl. auto.
    + apply matches_Lit in H2. exists (s ++ "s"). split; [simpl; auto|].
      apply spells_app. now exists w1, w2.
  - intros (t & [<- | [<- | []]] & H).
    + exists u, "". rewrite StrFacts.app_nil_r. split; [reflexivity|].
      split; [now apply matches_Lit | apply matches_Opt; now left].
    + apply spells_app in H as (w1 & w2 & -> & H1 & H2).
      exists w1, w2. split; [reflexivity|].
      split; [now apply matches_Lit|].
      apply matches_Opt. right. now apply matches_Lit.
Qed.

Lemma matches_word (ic : bool) (s : string) (p : option ascii) (i : nat)
    (u r : string) :
  matches ic (Lit s) p i u r <-> exists t, In t [s] /\ spells ic t u = true.
Proof.
  rewrite matches_Lit. split.
  - intros H. exists s. simpl. auto.
  - intros (t & [<- | []] & H). exact H.
Qed.

(** Alternatives that spell words. *)
Lemma alts_spell (ic : bool) (alts : list regex) (wss : list (list string)) :
  Forall2 (fun a ws => forall p i u r,
             matches ic a p i u r
             <-> exists t, In t ws /\ spells ic t u = true) alts wss ->
  forall p i u r,
    (exists a, In a alts /\ matches ic a p i u r)
    <-> exists t, In t (List.concat wss) /\ spells ic t u = true.
Proof.
  induction 1 as [|a ws alts wss Ha _ IH]; intros p i u r; simpl.
  - split; [intros (? & [] & _) | intros (? & [] & _)].
  - split.
    + intros (x & [<- | Hx] & Hm).
      * apply Ha in Hm as (t & Ht & Hs). exists t.
        split; [apply in_or_app; now left | exact Hs].
      * destruct (proj1 (IH p i u r)) as (t & Ht & Hs); [now exists x|].
        exists t. split; [apply in_or_app; now right | exact Hs].
    + intros (t & Ht & Hs). apply in_app_or in Ht as [Ht | Ht].
      * exists a. split; [now left|]. apply Ha. now exists t.
      * destruct (proj2 (IH p i u r)) as (x & Hx & Hm); [now exists t|].
        exists x. split; [now right | exact Hm].
Qed.

(** [\bword\s+(a1|a2|...)\b] *)
Lemma matches_afterThe (ic : bool) (word : string) (alts : list regex)
    (p : option ascii) (i : nat) (w r : string) :
  matches ic (afterThe word alts) p i w r
  <-> exists f sp u,
        w = f ++ sp ++ u
        /\ spells ic word f = true
        /\ sp <> "" /\ Str.forallb Char.isSpace sp = true
        /\ (exists a, In a alts
                      /\ matches ic a (after p (f ++ sp))
                           (i + String.length (f ++ sp)) u r)
        /\ atWordBoundary p (w ++ r) = true
        /\ atWordBoundary (after p w) r = true.
Proof.
  unfold afterThe. cbn [seq]. rewrite matches_Seq. split.
  - intros (w1 & w2 & -> & H1 & H2).
    apply matches_WordB in H1 as [-> Hb1]. simpl in *.
    rewrite Nat.add_0_r in H2.
    apply matches_Seq in H2 as (f & w3 & -> & Hf & H3).
    apply matches_Lit in Hf.
    apply matches_Seq in H3 as (sp & w4 & -> & Hsp & H4).
    apply matches_Plus in Hsp as [Hne Hsp]. cbn [mem] in Hsp.
    apply matches_Seq in H4 as (u & w5 & -> & Hu & H5).
    apply matches_WordB in H5 as [-> Hb2].
    apply matches_Group, matches_alt in Hu.
    rewrite StrFacts.app_nil_r in *.
    exists f, sp, u. split; [reflexivity|].
    rewrite <- after_app, <- Nat.add_assoc, <- StrFacts.length_app in Hu.
    rewrite <- !after_app in Hb2. simpl in Hu.
    repeat (split; [assumption|]). assumption.
  - intros (f & sp & u & -> & Hf & Hne & Hsp & Hu & Hb1 & Hb2).
    exists "", (f ++ sp ++ u). split; [reflexivity|].
    split; [now apply matches_WordB|]. simpl. rewrite Nat.add_0_r.
    apply matches_Seq. exists f, (sp ++ u). split; [reflexivity|].
    split; [now apply matches_Lit|].
    apply matches_Seq. exists sp, u. split; [reflexivity|].
    split; [now apply matches_Plus|].
    apply matches_Seq. exists u, "". rewrite StrFacts.app_nil_r.
    split; [reflexivity|].
    rewrite <- after_app, <- Nat.add_assoc, <- StrFacts.length_app.
    split; [now apply matches_Group, matches_alt|].
    apply matches_WordB. split; [reflexivity|].
    rewrite <- after_app. now rewrite StrFacts.app_assoc.
Qed.

Lemma afterRow (word : string) (alts : list regex)
    (wss : list (list string)) (ws : list string) (text : string) :
  Forall2 (fun a ws => forall p i u r,
             matches true a p i u r
             <-> exists t, In t ws /\ spells true t u = true) alts wss ->
  ws = List.concat wss ->
  test (flagI (afterThe word alts)) text = true
  <-> triggeredAfter word text ws.
Proof.
  intros Halts ->. pose proof (alts_spell true alts wss Halts) as Hsp.
  rewrite test_iff. unfold matchesIn, triggeredAfter, occursAfter.
  cbn [ignoreCase source flagI]. split.
  - intros (pre & w & post & Ht & Hm).
    apply matches_afterThe in Hm
      as (f & sp & u & -> & Hf & Hne & Hs & Ha & Hb1 & Hb2).
    apply Hsp in Ha as (t & Hin & Hu). exists t. split; [exact Hin|].
    exists pre, f, sp, u, post.
    rewrite <- after_app in Hb2.
    rewrite !StrFacts.app_assoc in Ht, Hb1.
    repeat (split; [assumption|]). assumption.
  - intros (t & Hin & pre & f & sp & u & post & Ht & Hf & Hne & Hs & Hu
              & Hb1 & Hb2).
    exists pre, (f ++ sp ++ u), post.
    split; [now rewrite !StrFacts.app_assoc|].
    apply matches_afterThe. exists f, sp, u.
    split; [reflexivity|]. repeat (split; [assumption|]).
    split; [apply Hsp; now exists t|].
    rewrite <- after_app, !StrFacts.app_assoc. auto.
Qed.

Ltac for_row :=
  split;
  [ reflexivity
  | eapply (afterRow "for");
    [ repeat (constructor;
              [first [apply matches_plural | apply matches_word]|]);
      constructor
    | reflexivity ] ].

Lemma AUDIENCE_rows (text : string) :
  Forall2 (fun row wrow =>
             snd row = snd wrow
             /\ (test (fst row) text = true
                 <-> triggeredAfterFor text (fst wrow)))
    (List.firstn 9 AUDIENCE_PATTERNS) AUDIENCE_WORDS.
Proof.
  unfold AUDIENCE_PATTERNS, AUDIENCE_WORDS. cbn [List.firstn].
  repeat (constructor; [for_row|]). constructor.
Qed.

Lemma firstMatch_app {A : Type} (t1 t2 : list (RegExp * A)) (text : string) :
  firstMatch (t1 ++ t2)%list text
  = match firstMatch t1 text with
    | Some l => Some l
    | None => firstMatch t2 text
    end.
Proof.
  induction t1 as [|[re l] t1 IH]; simpl; [reflexivity|].
  now destruct (test re text).
Qed.

End AudienceFacts.

(** X7.  The audiences named after "for": the audience is that of the first
    row of the table one of whose words, singular or plural, occurs in the
    text after the whole word "for" and white space, in any casing, and
    ends at a word boundary. *)
Theorem audience_by_priority (text label : string) :
  In label (List.map snd AUDIENCE_WORDS) ->
  extractAudience text = Some label
  <-> exists before ws later,
        AUDIENCE_WORDS = before ++ (ws, label) :: later
        /\ triggeredAfterFor text ws
        /\ forall ws' l', In (ws', l') before ->
             ~ triggeredAfterFor text ws'.
Proof.
  intros Hlabel. unfold extractAudience.
  rewrite <- (firstn_skipn 9 AUDIENCE_PATTERNS).
  rewrite AudienceFacts.firstMatch_app.
  destruct (TableFacts.firstMatch_rows (triggeredAfterFor text) _ _ text
              (AudienceFacts.AUDIENCE_rows text)) as [Hs Hn].
  rewrite <- Hs.
  destruct (firstMatch (firstn 9 AUDIENCE_PATTERNS) text) as [l|];
    [reflexivity|].
  split; [|discriminate].
  intros H. apply OutputFacts.firstMatch_In in H. exfalso.
  simpl in H, Hlabel.
  destruct H as [<- | [<- | []]];
    repeat (destruct Hlabel as [Hlabel | Hlabel]; [discriminate|]);
    exact Hlabel.
Qed.

Lemma audience_by_priority_witness :
  extractAudience "A guide for   Advanced Users and for kids"
  = Some "experts"
  <-> exists before ws later,
        AUDIENCE_WORDS = before ++ (ws, "experts") :: later
        /\ triggeredAfterFor "A guide for   Advanced Users and for kids" ws
        /\ forall ws' l', In (ws', l') before ->
             ~ triggeredAfterFor
                 "A guide for   Advanced Users and for kids" ws'.
Proof.
  apply (audience_by_priority "A guide for   Advanced Users and for kids"
           "experts").
  simpl. auto.
Defined.

(* ------------------------------------------------------------------ *)
(** ** Trimming *)

Module TrimFacts.

Local Open Scope string_scope.

Lemma forallb_app (P : ascii -> bool) (a b : string) :
  Str.forallb P (a ++ b) = Str.forallb P a && Str.forallb P b.
Proof.
  induction a as [|c a IH]; simpl; [reflexivity|].
  now rewrite IH, andb_assoc.
Qed.

Lemma trimStart_clean (s : string) : startsClean (Str.trimStart s).
Proof.
  induction s as [|c s IH]; simpl; [exact I|].
  destruct (Char.isSpace c) eqn:E; [exact IH | exact E].
Qed.

Lemma trimStart_id (s : string) : startsClean s -> Str.trimStart s = s.
Proof. destruct s as [|c s]; simpl; [reflexivity|]. now intros ->. Qed.

Lemma trimStart_split (s : string) :
  exists a, s = a ++ Str.trimStart s /\ Str.forallb Char.isSpace a = true.
Proof.
  induction s as [|c s (a & Ha & Hsp)]; simpl.
  - now exists "".
  - destruct (Char.isSpace c) eqn:E.
    + exists (String c a). simpl. rewrite E, Hsp. split; [now f_equal|auto].
    + now exists "".
Qed.

Lemma trimEnd_split (s : string) :
  exists b, s = Str.trimEnd s ++ b /\ Str.forallb Char.isSpace b = true.
Proof.
  induction s as [|c s (b & Hb & Hsp)]; simpl.
  - now exists "".
  - destruct (Str.trimEnd s) as [|d t] eqn:E.
    + destruct (Char.isSpace c) eqn:Ec.
      * exists (String c b). simpl in *. rewrite Ec, Hsp. now subst.
      * exists b. simpl in *. now subst.
    + exists b. split; [|exact Hsp]. simpl. now f_equal.
Qed.

Lemma trimEnd_idem (s : string) : Str.trimEnd (Str.trimEnd s) = Str.trimEnd s.
Proof.
  induction s as [|c s IH]; simpl; [reflexivity|].
  destruct (Str.trimEnd s) as [|d t] eqn:E.
  - destruct (Char.isSpace c) eqn:Ec; simpl; [reflexivity|now rewrite Ec].
  - change (Str.trimEnd (String c (String d t)))
      with (match Str.trimEnd (String d t) with
            | "" => if Char.isSpace c then "" else String c ""
            | t' => String c t'
            end).
    now rewrite IH.
Qed.

Lemma trimEnd_clean (s : string) : startsClean s -> startsClean (Str.trimEnd s).
Proof.
  destruct s as [|c s]; simpl; [auto|]. intros Hc.
  destruct (Str.trimEnd s); [rewrite Hc|]; exact Hc.
Qed.

Lemma trimEnd_blank (s : string) :
  Str.forallb Char.isSpace s = true -> Str.trimEnd s = "".
Proof.
  induction s as [|c s IH]; simpl; [reflexivity|].
  intros H. apply andb_true_iff in H as [Hc Hs]. now rewrite IH, Hc.
Qed.

(** A string that does not end with white space has no suffix that does. *)
Lemma trimEnd_suffix (w r : string) :
  Str.trimEnd (w ++ r) = w ++ r -> Str.trimEnd r = r.
Proof.
  induction w as [|c w IH]; simpl; [auto|].
  destruct (Str.trimEnd (w ++ r)) as [|d t] eqn:E.
  - destruct (Char.isSpace c); [discriminate|].
    intros H. injection H as H. symmetry in H.
    destruct w; [|discriminate]. simpl in H. now subst.
  - intros H. injection H as H. apply IH. now rewrite <- H.
Qed.

Lemma trim_idem (s : string) : Str.trim (Str.trim s) = Str.trim s.
Proof.
  unfold Str.trim.
  rewrite (trimStart_id (Str.trimEnd _))
    by apply trimEnd_clean, trimStart_clean.
  apply trimEnd_idem.
Qed.

Lemma trimmed_iff (s : string) :
  Str.trim s = s <-> startsClean s /\ Str.trimEnd s = s.
Proof.
  split.
  - intros H. split.
    + rewrite <- H. apply trimEnd_clean, trimStart_clean.
    + rewrite <- H at 1. unfold Str.trim. rewrite trimEnd_idem. exact H.
  - intros [H1 H2]. unfold Str.trim. now rewrite trimStart_id.
Qed.

Lemma trim_split (s : string) :
  exists a b,
    s = a ++ Str.trim s ++ b
    /\ Str.forallb Char.isSpace a = true
    /\ Str.forallb Char.isSpace b = true.
Proof.
  destruct (trimStart_split s) as (a & Ha & Hsa).
  destruct (trimEnd_split (Str.trimStart s)) as (b & Hb & Hsb).
  exists a, b. unfold Str.trim. now rewrite <- Hb.
Qed.

Lemma trim_empty_iff (s : string) :
  Str.trim s = "" <-> Str.forallb Char.isSpace s = true.
Proof.
  split.
  - intros H. destruct (trim_split s) as (a & b & Hs & Ha & Hb).
    rewrite H in Hs. rewrite Hs. simpl. now rewrite forallb_app, Ha, Hb.
  - intros H. destruct (trimStart_split s) as (a & Ha & _).
    unfold Str.trim. apply trimEnd_blank.
    rewrite Ha, forallb_app in H. now apply andb_true_iff in H.
Qed.

Lemma trim_length (s : string) : String.length (Str.trim s) <= String.length s.
Proof.
  destruct (trim_split s) as (a & b & Hs & _). rewrite Hs at 2.
  rewrite !StrFacts.length_app. lia.
Qed.

Lemma trim_forallb (P : ascii -> bool) (s : string) :
  Str.forallb P s = true -> Str.forallb P (Str.trim s) = true.
Proof.
  destruct (trim_split s) as (a & b & Hs & _). rewrite Hs at 1.
  rewrite !forallb_app. intros H.
  apply andb_true_iff in H as [_ H]. now apply andb_true_iff in H.
Qed.

End TrimFacts.

(* ------------------------------------------------------------------ *)
(** ** The shape of the primary goal *)

Module ShapeFacts.

Import TrimFacts.
Local Open Scope string_scope.

Lemma space_not_end (c : ascii) :
  Char.isSpace c = true -> isSentenceEnd c = false.
Proof.
  destruct c as [[] [] [] [] [] [] [] []]; vm_compute;
    first [reflexivity | discriminate].
Qed.

Lemma end_not_lower (c : ascii) :
  isSentenceEnd c = true -> Char.isLower c = false.
Proof.
  destruct c as [[] [] [] [] [] [] [] []]; vm_compute;
    first [reflexivity | discriminate].
Qed.

Lemma toUpper_not_lower (c : ascii) : Char.isLower (Char.toUpper c) = false.
Proof. destruct c as [[] [] [] [] [] [] [] []]; reflexivity. Qed.

Lemma toUpper_end (c : ascii) :
  isSentenceEnd (Char.toUpper c) = isSentenceEnd c.
Proof. destruct c as [[] [] [] [] [] [] [] []]; reflexivity. Qed.

(** *** The pieces of [split] *)

Lemma splitFrom_plain (s cur : string) (inRun : bool) (piece : string) :
  plain cur -> In piece (splitFrom s cur inRun) -> plain piece.
Proof.
  unfold plain. revert cur inRun.
  induction s as [|c s IH]; intros cur inRun Hcur; simpl.
  - now intros [<- | []].
  - destruct (isSentenceEnd c) eqn:Ec.
    + destruct inRun; [apply IH; reflexivity|].
      intros [<- | H]; [exact Hcur|]. revert H. apply IH. reflexivity.
    + apply IH. rewrite forallb_app, Hcur. simpl. now rewrite Ec.
Qed.

Lemma splitFrom_length (s cur : string) (inRun : bool) (piece : string) :
  In piece (splitFrom s cur inRun) ->
  String.length piece <= String.length cur + String.length s.
Proof.
  revert cur inRun. induction s as [|c s IH]; intros cur inRun; simpl.
  - intros [<- | []]. lia.
  - destruct (isSentenceEnd c).
    + destruct inRun.
      * intros H. apply IH in H. simpl in H. lia.
      * intros [<- | H]; [lia|]. apply IH in H. simpl in H. lia.
    + intros H. apply IH in H.
      rewrite StrFacts.length_app in H. simpl in H. lia.
Qed.

(** Without a sentence, the text is blank. *)
Lemma splitFrom_blank (s cur : string) (inRun : bool) :
  (inRun = true -> cur = "") ->
  List.filter Str.truthy (List.map Str.trim (splitFrom s cur inRun)) = [] ->
  Str.forallb Char.isSpace cur = true /\ blank s.
Proof.
  unfold blank. revert cur inRun.
  induction s as [|c s IH]; intros cur inRun Hrun; simpl.
  - destruct (Str.trim cur) eqn:E; simpl; [|discriminate].
    intros _. split; [now apply trim_empty_iff | reflexivity].
  - destruct (isSentenceEnd c) eqn:Ec.
    + rewrite orb_true_r. simpl. destruct inRun.
      * rewrite (Hrun eq_refl). intros H. apply IH in H as [_ H]; auto.
      * simpl. destruct (Str.trim cur) eqn:E; simpl; [|discriminate].
        intros H. apply IH in H as [_ H]; [|auto].
        split; [now apply trim_empty_iff | exact H].
    + intros H. apply IH in H as [Hcur H]; [|discriminate].
      rewrite forallb_app in Hcur. simpl in Hcur.
      apply andb_true_iff in Hcur as [Hcur Hc].
      rewrite andb_true_r in Hc. rewrite Hc, H. auto.
Qed.

(** A text of white space is one piece. *)
Lemma splitFrom_spaces (s cur : string) (inRun : bool) :
  Str.forallb Char.isSpace s = true ->
  List.map Str.trim (splitFrom s cur inRun) = [Str.trim (cur ++ s)].
Proof.
  revert cur inRun. induction s as [|c s IH]; intros cur inRun Hs; simpl.
  - now rewrite StrFacts.app_nil_r.
  - simpl in Hs. apply andb_true_iff in Hs as [Hc Hs].
    rewrite (space_not_end c Hc), IH by exact Hs.
    now rewrite StrFacts.app_assoc.
Qed.

Lemma sentences_In (text s : string) :
  In s (sentences text) ->
  s <> "" /\ Str.trim s = s /\ plain s
  /\ String.length s <= String.length text.
Proof.
  unfold sentences, splitSentences. intros H.
  apply filter_In in H as [H Hne]. apply in_map_iff in H as (piece & <- & H).
  split; [now destruct (Str.trim piece)|].
  split; [apply trim_idem|].
  split.
  - apply trim_forallb. now apply (splitFrom_plain text "" false).
  - apply splitFrom_length in H. simpl in H.
    pose proof (trim_length piece). lia.
Qed.

Lemma sentences_nil (text : string) : sentences text = [] -> blank text.
Proof.
  intros H. apply splitFrom_blank in H as [_ H]; [exact H | discriminate].
Qed.

Lemma sentences_spaces (text : string) :
  Str.forallb Char.isSpace text = true -> sentences text = [].
Proof.
  intros H. unfold sentences, splitSentences.
  rewrite splitFrom_spaces by exact H.
  apply trim_empty_iff in H. simpl. now rewrite H.
Qed.

(** *** What the fillers leave *)

Lemma afterWord_suffix (w s r : string) :
  afterWord w s = Some r -> exists u, s = u ++ r.
Proof.
  revert s. induction w as [|a w IH]; intros s; simpl.
  - intros H. injection H as <-. now exists "".
  - destruct s as [|c s]; [discriminate|].
    destruct (sameLetter a c); [|discriminate].
    intros H. apply IH in H as (u & ->). now exists (String c u).
Qed.

Lemma afterSpaces_clean (s r : string) :
  Str.trimEnd s = s -> afterSpaces s = Some r ->
  clean r /\ exists u, s = u ++ r.
Proof.
  destruct s as [|c s]; simpl; [discriminate|].
  destruct (Char.isSpace c) eqn:Ec; [|discriminate].
  intros Hend H. injection H as <-.
  destruct (trimStart_split s) as (a & Ha & Hsa).
  assert (Hs : Str.trimEnd s = s /\ s <> "").
  { destruct (Str.trimEnd s) as [|d t] eqn:E; [discriminate|].
    injection Hend as <-. split; [reflexivity | discriminate]. }
  destruct Hs as [Hs Hne].
  split; [|exists (String c a); simpl; now f_equal].
  split; [|split].
  - intros E. rewrite E, StrFacts.app_nil_r in Ha. subst a.
    apply trimEnd_blank in Hsa. congruence.
  - apply trimStart_clean.
  - apply (trimEnd_suffix a). now rewrite <- Ha.
Qed.

Lemma afterPhrase_clean (ws : list string) (s r : string) :
  ws <> [] -> Str.trimEnd s = s -> afterPhrase ws s = Some r ->
  clean r /\ exists u, s = u ++ r.
Proof.
  revert s. induction ws as [|w ws IH]; intros s Hne Hend; [contradiction|].
  simpl. destruct (afterWord w s) as [s1|] eqn:E1; [|discriminate].
  destruct (afterSpaces s1) as [s2|] eqn:E2; [|discriminate].
  apply afterWord_suffix in E1 as (u1 & ->).
  apply afterSpaces_clean in E2 as [Hc (u2 & ->)];
    [|now apply (trimEnd_suffix u1)].
  destruct ws as [|w' ws].
  - simpl. intros H. injection H as <-. split; [exact Hc|].
    exists (u1 ++ u2). now rewrite StrFacts.app_assoc.
  - intros H. apply IH in H as [Hr (u3 & ->)]; [|discriminate|apply Hc].
    split; [exact Hr|]. exists (u1 ++ u2 ++ u3).
    now rewrite !StrFacts.app_assoc.
Qed.

Lemma dropFiller_clean (phrases : list (list string)) (s : string) :
  Forall (fun ws => ws <> []) phrases -> clean s ->
  clean (dropFiller phrases s) /\ exists u, s = u ++ dropFiller phrases s.
Proof.
  intros Hp Hs. induction Hp as [|ws phrases Hws _ IH]; simpl.
  - split; [exact Hs | now exists ""].
  - destruct (afterPhrase ws s) as [r|] eqn:E; [|exact IH].
    apply afterPhrase_clean in E; [exact E | exact Hws | apply Hs].
Qed.

Lemma dropFillers_clean (s : string) :
  clean s -> clean (dropFillers s) /\ exists u, s = u ++ dropFillers s.
Proof.
  unfold dropFillers.
  assert (Hf : Forall (Forall (fun ws : list string => ws <> [])) fillers)
    by (repeat constructor; discriminate).
  revert s. induction Hf as [|phrases rest Hp _ IH]; intros s Hs; simpl.
  - split; [exact Hs | now exists ""].
  - destruct (dropFiller_clean phrases s Hp Hs) as [Hc (u & Hu)].
    destruct (IH _ Hc) as [Hc' (u' & Hu')].
    split; [exact Hc'|]. exists (u ++ u').
    rewrite StrFacts.app_assoc, <- Hu'. exact Hu.
Qed.

Lemma capitalize_clean (s : string) : clean s -> clean (capitalize s).
Proof.
  intros (Hne & Hstart & Hend). destruct s as [|c s]; [contradiction|].
  simpl in *. split; [discriminate|]. split.
  - simpl. now rewrite GoalFacts.isSpace_toUpper.
  - simpl. rewrite GoalFacts.isSpace_toUpper.
    destruct (Str.trimEnd s); [rewrite Hstart in *|]; congruence.
Qed.

Lemma capitalize_length (s : string) :
  String.length (capitalize s) = String.length s.
Proof. now destruct s. Qed.

Lemma capitalize_plain (s : string) : plain s -> plain (capitalize s).
Proof.
  unfold plain. destruct s as [|c s]; simpl; [auto|].
  now rewrite toUpper_end.
Qed.

Lemma goal_shape (text : string) :
  let goal := extractPrimaryGoal text in
  Str.trim goal = goal
  /\ (goal = "" <-> Str.forallb Char.isSpace text = true)
  /\ (forall c rest, goal = String c rest -> Char.isLower c = false)
  /\ String.length goal <= String.length text
  /\ (sentences text <> [] -> plain goal).
Proof.
  unfold extractPrimaryGoal. fold (sentences text).
  destruct (sentences text) as [|sentence others] eqn:E.
  - cbv zeta. split; [apply trim_idem|].
    split; [apply trim_empty_iff|].
    split; [|split; [apply trim_length | congruence]].
    intros c rest Hg. apply sentences_nil in E.
    destruct (trim_split text) as (a & b & Ht & _).
    pose proof (trimEnd_clean _ (trimStart_clean text))
      as Hc.
    fold (Str.trim text) in Hc. rewrite Hg in Ht, Hc. simpl in Hc.
    unfold blank in E. rewrite Ht, forallb_app in E.
    apply andb_true_iff in E as [_ E]. simpl in E.
    apply andb_true_iff in E as [E _]. rewrite Hc in E.
    now apply end_not_lower.
  - cbv zeta. rewrite GoalFacts.fillers_removed.
    destruct (sentences_In text sentence) as (Hne & Htr & Hpl & Hlen);
      [rewrite E; now left|].
    apply trimmed_iff in Htr as [Hstart Hend].
    destruct (dropFillers_clean sentence
                (conj Hne (conj Hstart Hend))) as [Hc (u & Hu)].
    pose proof (capitalize_clean _ Hc) as (Hne' & Hstart' & Hend').
    split; [now apply trimmed_iff|].
    split.
    { split; [intros H; contradiction|].
      intros H. apply sentences_spaces in H. congruence. }
    split.
    { intros c rest Hg. destruct (dropFillers sentence) as [|d r];
        [discriminate|].
      simpl in Hg. injection Hg as <- _.
      apply toUpper_not_lower. }
    split.
    { rewrite capitalize_length.
      rewrite Hu, StrFacts.length_app in Hlen. lia. }
    intros _. apply capitalize_plain.
    unfold plain in *. rewrite Hu, forallb_app in Hpl.
    now apply andb_true_iff in Hpl.
Qed.

End ShapeFacts.

(* ------------------------------------------------------------------ *)
(** ** Constraint texts *)

Module TextFacts.

Import TrimFacts.
Local Open Scope string_scope.

Lemma trim_prefixed (word cl : string) :
  clean word ->
  Str.trim cl <> "" ->
  Str.trim (word ++ " " ++ Str.trim cl) = word ++ " " ++ Str.trim cl.
Proof.
  intros (Hne & Hstart & _) Hcl. apply trimmed_iff. split.
  - destruct word; [contradiction | exact Hstart].
  - assert (H : forall t, t <> "" -> Str.trimEnd t = t ->
                 forall w, Str.trimEnd (w ++ t) = w ++ t).
    { intros t Ht Hend w. induction w as [|c w IH]; simpl; [exact Hend|].
      rewrite IH. destruct (w ++ t) eqn:E; [|reflexivity].
      destruct w; [simpl in E; contradiction | discriminate]. }
    rewrite <- StrFacts.app_assoc. apply H; [exact Hcl|].
    pose proof (trim_idem cl) as Hi. now apply trimmed_iff in Hi.
Qed.

Lemma soft_extract (p : ConstraintPattern.t) :
  In p SOFT_CONSTRAINT_PATTERNS -> ConstraintPattern.extract p = trimmed1.
Proof.
  simpl. intros H.
  repeat (destruct H as [<- | H]; [reflexivity|]). contradiction.
Qed.

Lemma hard_extract (p : ConstraintPattern.t) :
  In p HARD_CONSTRAINT_PATTERNS ->
  ConstraintPattern.extract p = trimmed1
  \/ ConstraintPattern.extract p = prefixed1 "no"
  \/ ConstraintPattern.extract p = prefixed1 "without".
Proof.
  simpl. intros H.
  repeat (destruct H as [<- | H]; [simpl; auto|]). contradiction.
Qed.

End TextFacts.

(** X9.  A constraint text has no white space at either end, with one
    exception: the rule of "without" makes the hard constraint "without "
    of a clause of white space. *)
Theorem constraint_texts_trimmed (fuel : nat) (input : string)
    (r : NormalizeResponse.t) :
  normalize fuel input = Some r ->
  (forall c, In c (softOf r) ->
     Str.trim (Constraint.text c) = Constraint.text c)
  /\ (forall c, In c (hardOf r) ->
        Str.trim (Constraint.text c) = Constraint.text c
        \/ Constraint.text c = "without ").
Proof.
  intros H. apply normalize_inv in H as (Hh & Hs & _).
  pose proof (ExtractFacts.extractConstraints_invariant _ _ _ _ _ Hh)
    as (_ & _ & Hbh & _).
  apply (extractConstraints_scanned _ _ _ _ _ RuleFacts.HARD_rules_ok) in Hh
    as [Hh _].
  apply (extractConstraints_scanned _ _ _ _ _ RuleFacts.SOFT_rules_ok) in Hs
    as [Hs _].
  split.
  - intros c Hc. destruct (Hs c Hc) as (p & m & Hp & Hcl).
    destruct Hcl as (l & cl & rt & _ & _ & _ & Hg & _ & He & _).
    rewrite (TextFacts.soft_extract p Hp) in He. unfold trimmed1 in He.
    rewrite Hg in He. injection He as <-. apply TrimFacts.trim_idem.
  - intros c Hc. destruct (Hh c Hc) as (p & m & Hp & Hcl).
    destruct (Hbh c Hc) as [[Hlen _] _].
    destruct Hcl as (l & cl & rt & _ & _ & _ & Hg & _ & He & _).
    destruct (TextFacts.hard_extract p Hp) as [E | [E | E]];
      rewrite E in He; unfold prefixed1, trimmed1 in He; rewrite Hg in He;
      injection He as He; rewrite <- He in *.
    + left. apply TrimFacts.trim_idem.
    + left. destruct (Str.trim cl) eqn:Et; [simpl in Hlen; lia|].
      rewrite <- Et. apply (TextFacts.trim_prefixed "no" cl).
      * repeat split; discriminate.
      * rewrite Et. discriminate.
    + destruct (Str.trim cl) eqn:Et; [now right|].
      left. rewrite <- Et. apply (TextFacts.trim_prefixed "without" cl).
      * repeat split; discriminate.
      * rewrite Et. discriminate.
Qed.

Lemma constraint_texts_trimmed_witness :
  exists r,
    normalize 50 "Ship it without  " = Some r
    /\ hardOf r = [Constraint.mk "without " Hard]
    /\ forall c, In c (hardOf r) ->
         Str.trim (Constraint.text c) = Constraint.text c
         \/ Constraint.text c = "without ".
Proof.
  eexists. split; [vm_compute; reflexivity|].
  split; [reflexivity|].
  eapply (constraint_texts_trimmed 50 "Ship it without  ").
  vm_compute. reflexivity.
Defined.

(* ------------------------------------------------------------------ *)
(** ** Conflicts and larger inputs *)

Lemma containsCI_within (text text' term : string) :
  containsCI text' (Str.toLowerCase text) -> containsCI text term ->
  containsCI text' term.
Proof.
  intros (a & u & b & -> & Hu) (x & v & y & -> & <-).
  unfold Str.toLowerCase in Hu. rewrite !StrFacts.map_app in Hu.
  apply StrFacts.map_app_inv in Hu as (s1 & s23 & -> & _ & Hu).
  apply StrFacts.map_app_inv in Hu as (s2 & s3 & -> & Hv & _).
  exists (a ++ s1)%string, s2, (s3 ++ b)%string.
  split; [now rewrite !StrFacts.app_assoc | exact Hv].
Qed.

(** X10.  The detector never loses a conflict when the input grows or changes
    case: every conflict of [text] is a conflict of every input that
    contains [text] up to case.  Words such as "not" before a term take no
    conflict away. *)
Theorem conflicts_persist (text text' : string) (c : Conflict.t) :
  containsCI text' (Str.toLowerCase text) ->
  In c (detectConflicts text) -> In c (detectConflicts text').
Proof.
  unfold detectConflicts. rewrite !detectIn_filter. intros Hin Hc.
  apply in_map_iff in Hc as (rule & <- & Hr).
  apply filter_In in Hr as [Hr Hf]. apply in_map, filter_In.
  split; [exact Hr|]. apply fires_iff in Hf as [H1 H2]. apply fires_iff.
  split; eapply containsCI_within; eauto.
Qed.

Lemma conflicts_persist_witness :
  In (Conflict.mk OfOutput
        "Request asks for both short and comprehensive output"
        Warning ("short", "comprehensive"))
     (detectConflicts "Not SHORT and comprehensive at all").
Proof.
  apply (conflicts_persist "short and Comprehensive"
           "Not SHORT and comprehensive at all").
  - exists "Not ", "SHORT and comprehensive", " at all".
    split; reflexivity.
  - vm_compute. auto.
Defined.

(* ------------------------------------------------------------------ *)
(** ** The two renderers *)

Module RenderFacts.

Local Open Scope string_scope.

Lemma total_app (a b : list string) : total (a ++ b) = total a + total b.
Proof. induction a as [|x a IH]; simpl; [reflexivity | rewrite IH; lia]. Qed.

Lemma join_length (sep : string) (parts : list string) :
  String.length (Str.join sep parts)
  = total parts + String.length sep * (List.length parts - 1).
Proof.
  induction parts as [|p parts IH]; [simpl; lia|].
  destruct parts as [|q parts]; [simpl; lia|].
  change (Str.join sep (p :: q :: parts))
    with (p ++ sep ++ Str.join sep (q :: parts)).
  rewrite !StrFacts.length_app, IH. simpl. lia.
Qed.

End RenderFacts.

(* ------------------------------------------------------------------ *)
(** ** The demo limiter *)

Module DemoFacts.

Import Demo.

Lemma set_same (m : requests) (ip : string) (r : record) :
  set m ip r ip = Some r.
Proof. unfold set. now rewrite String.eqb_refl. Qed.

Lemma set_other (m : requests) (ip ip' : string) (r : record) :
  ip' <> ip -> set m ip r ip' = m ip'.
Proof.
  intros H. unfold set. destruct (String.eqb ip' ip) eqn:E; [|reflexivity].
  apply String.eqb_eq in E. contradiction.
Qed.

(** A call reads and writes the record of its own address only. *)
Lemma check_local (now : Z) (ip : string) (m1 m2 : requests) :
  m1 ip = m2 ip ->
  fst (checkDemoRateLimit now ip m1) = fst (checkDemoRateLimit now ip m2)
  /\ snd (checkDemoRateLimit now ip m1) ip
     = snd (checkDemoRateLimit now ip m2) ip.
Proof.
  intros H. unfold checkDemoRateLimit. rewrite <- H.
  destruct (m1 ip) as [r|] eqn:E; cbn [fst snd]; [|now rewrite !set_same].
  destruct (resetAt r <? now)%Z; cbn [fst snd]; [now rewrite !set_same|].
  destruct (DEMO_RATE_LIMIT <=? count r); cbn [fst snd];
    [split; congruence|].
  now rewrite !set_same.
Qed.

Lemma check_frame (now : Z) (ip ip' : string) (m : requests) :
  ip' <> ip -> snd (checkDemoRateLimit now ip m) ip' = m ip'.
Proof.
  intros H. unfold checkDemoRateLimit.
  destruct (m ip) as [r|]; cbn [fst snd]; [|now apply set_other].
  destruct (resetAt r <? now)%Z; cbn [fst snd]; [now apply set_other|].
  destruct (DEMO_RATE_LIMIT <=? count r); cbn [fst snd]; [reflexivity|].
  now apply set_other.
Qed.

Lemma serve_local (calls : list (Z * string)) (ip : string)
    (m1 m2 : requests) :
  m1 ip = m2 ip ->
  List.filter (fun a => fromAddress ip (fst a)) (serve calls m1)
  = serve (List.filter (fromAddress ip) calls) m2.
Proof.
  revert m1 m2. induction calls as [|[now ip'] calls IH]; intros m1 m2 H;
    [reflexivity|].
  cbn [serve List.filter]. unfold fromAddress at 2. cbn [snd].
  destruct (checkDemoRateLimit now ip' m1) as [ok m1'] eqn:E1.
  cbn [List.filter fst]. unfold fromAddress at 1. cbn [snd fst].
  destruct (String.eqb ip' ip) eqn:Eip.
  - apply String.eqb_eq in Eip. subst ip'. cbn [serve].
    destruct (checkDemoRateLimit now ip m2) as [ok2 m2'] eqn:E2.
    destruct (check_local now ip m1 m2 H) as [Hok Hm].
    rewrite E1, E2 in Hok, Hm. simpl in Hok, Hm. subst ok2.
    f_equal. now apply IH.
  - apply IH. rewrite <- H.
    change m1' with (snd (ok, m1')). rewrite <- E1.
    apply check_frame. intros ->. now rewrite String.eqb_refl in Eip.
Qed.

(** Inside an open window the [k]-th next call passes while the count is
    below the limit. *)
Lemma serve_window (ip : string) (reset : Z) (ts : list Z) (n : nat)
    (m : requests) :
  m ip = Some (mkRecord n reset) ->
  Forall (fun t => (t <= reset)%Z) ts ->
  List.map snd (serve (List.map (fun t => (t, ip)) ts) m)
  = List.map (fun k => n + k <? DEMO_RATE_LIMIT) (List.seq 0 (List.length ts)).
Proof.
  revert n m. induction ts as [|t ts IH]; intros n m Hm Hts; [reflexivity|].
  inversion Hts as [|? ? Ht Hts']; subst.
  cbn [List.map serve List.length List.seq]. unfold checkDemoRateLimit.
  rewrite Hm. cbn [resetAt count].
  replace (reset <? t)%Z with false by (symmetry; apply Z.ltb_ge; lia).
  rewrite Nat.add_0_r.
  destruct (DEMO_RATE_LIMIT <=? n) eqn:E.
  - cbn [List.map snd]. apply Nat.leb_le in E.
    replace (n <? DEMO_RATE_LIMIT) with false
      by (symmetry; apply Nat.ltb_ge; lia).
    f_equal. rewrite (IH n m Hm Hts'). rewrite <- seq_shift, map_map.
    apply map_ext. intros k.
    transitivity false; [|symmetry]; apply Nat.ltb_ge; lia.
  - cbn [List.map snd]. apply Nat.leb_gt in E.
    replace (n <? DEMO_RATE_LIMIT) with true
      by (symmetry; apply Nat.ltb_lt; lia).
    f_equal. rewrite (IH (n + 1) _ (set_same _ _ _) Hts').
    rewrite <- seq_shift, map_map. apply map_ext. intros k.
    f_equal. lia.
Qed.

End DemoFacts.

(** X12.  A window of the demo limiter: when no window of the address is open
    at the time [t0], a call at [t0] passes and opens a window that lasts
    up to [t0 + 60000] inclusive; of the calls of this address at times up
    to that bound, the first nine after the opening call pass and all
    later ones are refused. *)
Theorem demo_window_of_ten (ip : string) (t0 : Z) (ts : list Z)
    (ipRequests : Demo.requests) :
  noWindow ipRequests ip t0 ->
  Forall (fun t => (t <= t0 + Demo.WINDOW_MS)%Z) ts ->
  List.map snd (serve (List.map (fun t => (t, ip)) (t0 :: ts)) ipRequests)
  = List.map (fun k => k <? Demo.DEMO_RATE_LIMIT)
      (List.seq 0 (S (List.length ts))).
Proof.
  intros Hfresh Hts. cbn [List.map serve List.seq].
  assert (E : Demo.checkDemoRateLimit t0 ip ipRequests
              = (true, Demo.set ipRequests ip
                         (Demo.mkRecord 1 (t0 + Demo.WINDOW_MS)%Z))).
  { unfold Demo.checkDemoRateLimit, noWindow in *.
    destruct (ipRequests ip) as [r|]; [|reflexivity].
    now apply Z.ltb_lt in Hfresh as ->. }
  rewrite E. cbn [List.map snd]. f_equal.
  rewrite (DemoFacts.serve_window ip (t0 + Demo.WINDOW_MS)%Z ts 1 _
             (DemoFacts.set_same _ _ _) Hts).
  rewrite <- seq_shift, map_map. reflexivity.
Qed.

Lemma demo_window_of_ten_witness :
  List.map snd
    (serve (List.map (fun t => (t, "10.0.0.1"))
              (1000 :: [1001; 1002; 1003; 1004; 1005; 1006; 1007; 1008;
                        1009; 61000; 61000])%Z)
       Demo.empty)
  = [true; true; true; true; true; true; true; true; true; true;
     false; false].
Proof.
  apply (demo_window_of_ten "10.0.0.1" 1000%Z
           [1001; 1002; 1003; 1004; 1005; 1006; 1007; 1008; 1009; 61000;
            61000]%Z Demo.empty).
  - exact I.
  - repeat (constructor; [vm_compute; discriminate|]). constructor.
Defined.

(** X13.  Addresses do not share a budget: in a run of calls from any
    addresses, the answers to the calls of one address are the answers
    this address would get if it were the only caller. *)
Theorem demo_addresses_independent (calls : list (Z * string))
    (ip : string) (ipRequests : Demo.requests) :
  List.filter (fun a => fromAddress ip (fst a)) (serve calls ipRequests)
  = serve (List.filter (fromAddress ip) calls) ipRequests.
Proof. now apply DemoFacts.serve_local. Qed.

(* ------------------------------------------------------------------ *)
(** ** Time stamps as text *)

Module StampFacts.

Local Open Scope string_scope.

Lemma digit_compare (a b : nat) :
  a < 10 -> b < 10 ->
  Ascii.compare (Date.digit a) (Date.digit b) = Nat.compare a b.
Proof.
  intros Ha Hb.
  do 10 (destruct a as [|a]; [do 10 (destruct b as [|b]; [reflexivity|]); lia|]).
  lia.
Qed.

Lemma compare_by_tens (a b : nat) :
  Nat.compare a b
  = match Nat.compare (a / 10) (b / 10) with
    | Eq => Nat.compare (a mod 10) (b mod 10)
    | c => c
    end.
Proof.
  pose proof (Nat.div_mod_eq a 10) as Ha.
  pose proof (Nat.div_mod_eq b 10) as Hb.
  pose proof (Nat.mod_upper_bound a 10) as Ha'.
  pose proof (Nat.mod_upper_bound b 10) as Hb'.
  destruct (Nat.compare_spec (a / 10) (b / 10)) as [E | E | E].
  - destruct (Nat.compare_spec (a mod 10) (b mod 10)) as [E' | E' | E'].
    + apply Nat.compare_eq_iff. lia.
    + apply Nat.compare_lt_iff. lia.
    + apply Nat.compare_gt_iff. lia.
  - apply Nat.compare_lt_iff. lia.
  - apply Nat.compare_gt_iff. lia.
Qed.

(** Numbers of the same width compare as their digits do. *)
Lemma digits_compare (w a b : nat) (s t : string) :
  a < 10 ^ w -> b < 10 ^ w ->
  String.compare (Date.digits w a ++ s) (Date.digits w b ++ t)
  = match Nat.compare a b with
    | Eq => String.compare s t
    | c => c
    end.
Proof.
  revert a b s t. induction w as [|w IH]; intros a b s t Ha Hb.
  - simpl in *. assert (a = 0) as -> by lia. assert (b = 0) as -> by lia.
    reflexivity.
  - cbn [Date.digits]. rewrite !StrFacts.app_assoc.
    rewrite Nat.pow_succ_r' in Ha, Hb.
    rewrite IH by (apply Nat.Div0.div_lt_upper_bound; lia).
    rewrite (compare_by_tens a b).
    destruct (Nat.compare (a / 10) (b / 10)); try reflexivity.
    cbn [append String.compare].
    rewrite digit_compare by (apply Nat.mod_upper_bound; lia).
    reflexivity.
Qed.

Lemma compare_same (c : ascii) (s t : string) :
  String.compare (String c s) (String c t) = String.compare s t.
Proof.
  cbn [String.compare].
  replace (Ascii.compare c c) with Eq; [reflexivity|].
  symmetry. unfold Ascii.compare. apply N.compare_refl.
Qed.

(** A time stamp of the table against an ISO string: the days decide, and
    on the same day the time stamp is the smaller text. *)
Lemma stamp_ge_iso (a b : Date.t) :
  validDate a -> validDate b ->
  Sql.textGe (Date.CURRENT_TIMESTAMP a) (Date.toISOString b) = laterDay a b.
Proof.
  intros (Hy & Hm & Hd & _) (Hy' & Hm' & Hd' & _).
  unfold Sql.textGe, Date.CURRENT_TIMESTAMP, Date.toISOString, laterDay.
  rewrite digits_compare by (simpl; lia).
  destruct (Nat.compare_spec (Date.year a) (Date.year b)) as [E | E | E].
  - rewrite E, Nat.ltb_irrefl, Nat.eqb_refl. cbn [orb andb].
    change ("-" ++ ?x) with (String "-" x). rewrite compare_same.
    rewrite digits_compare by (simpl; lia).
    destruct (Nat.compare_spec (Date.month a) (Date.month b)) as [F | F | F].
    + rewrite F, Nat.ltb_irrefl, Nat.eqb_refl. cbn [orb andb].
      change ("-" ++ ?x) with (String "-" x). rewrite compare_same.
      rewrite digits_compare by (simpl; lia).
      destruct (Nat.compare_spec (Date.day a) (Date.day b)) as [G | G | G].
      * rewrite G, Nat.ltb_irrefl. reflexivity.
      * symmetry. apply Nat.ltb_ge. lia.
      * symmetry. apply Nat.ltb_lt. lia.
    + replace (Date.month b <? Date.month a)%nat with false
        by (symmetry; apply Nat.ltb_ge; lia).
      replace (Date.month a =? Date.month b)%nat with false
        by (symmetry; apply Nat.eqb_neq; lia).
      reflexivity.
    + replace (Date.month b <? Date.month a)%nat with true
        by (symmetry; apply Nat.ltb_lt; lia).
      reflexivity.
  - replace (Date.year b <? Date.year a)%nat with false
      by (symmetry; apply Nat.ltb_ge; lia).
    replace (Date.year a =? Date.year b)%nat with false
      by (symmetry; apply Nat.eqb_neq; lia).
    reflexivity.
  - replace (Date.year b <? Date.year a)%nat with true
      by (symmetry; apply Nat.ltb_lt; lia).
    reflexivity.
Qed.

End StampFacts.

(* ------------------------------------------------------------------ *)
(** ** The key store *)

Module KeyFacts.

Import ApiKeys.
Local Open Scope string_scope.

Lemma countSince_logUsage (db : Db.t) (now : Date.t) (id id' : nat)
    (endpoint : string) (i o l : Z) (s : bool) (since : string) :
  countSince (logUsage db now id endpoint i o l s) id' since
  = (countSince db id' since
     + (if (id =? id')%nat && Sql.textGe (Date.CURRENT_TIMESTAMP now) since
        then 1 else 0))%Z.
Proof.
  unfold countSince, logUsage. cbn [Db.usage_logs].
  rewrite filter_app, length_app. cbn [List.filter UsageLog.api_key_id
    UsageLog.timestamp].
  destruct ((id =? id')%nat && Sql.textGe _ since); simpl; lia.
Qed.

Lemma getApiKeyById_logUsage (db : Db.t) (now : Date.t) (id id' : nat)
    (endpoint : string) (i o l : Z) (s : bool) :
  getApiKeyById (logUsage db now id endpoint i o l s) id'
  = getApiKeyById db id'.
Proof. reflexivity. Qed.

End KeyFacts.

(** X14.  How usage is counted against the limits.  The time stamp of a log is
    the text [YYYY-MM-DD HH:MM:SS] and the start of the window is the text
    [YYYY-MM-DDTHH:mm:ss.sssZ], and the query compares the two as text: a
    logged call counts exactly when its calendar day is after the day of
    the window start.  A call logged on the day of the window start, at
    whatever time, changes neither the verdict of the rate check nor that
    of the monthly check. *)
Theorem usage_counted_by_day (db : Db.t) (now start : Date.t)
    (id id' : nat) (endpoint : string) (i o l : Z) (s : bool) :
  validDate now -> validDate start ->
  let db' := ApiKeys.logUsage db now id endpoint i o l s in
  ApiKeys.countSince db' id' (Date.toISOString start)
  = (ApiKeys.countSince db id' (Date.toISOString start)
     + (if (id =? id')%nat && laterDay now start then 1 else 0))%Z
  /\ (laterDay now start = false ->
      ApiKeys.checkRateLimit db' start id' = ApiKeys.checkRateLimit db start id'
      /\ ApiKeys.checkMonthlyLimit db' start id'
         = ApiKeys.checkMonthlyLimit db start id').
Proof.
  intros Hnow Hstart db'.
  assert (E : ApiKeys.countSince db' id' (Date.toISOString start)
              = (ApiKeys.countSince db id' (Date.toISOString start)
                 + (if (id =? id')%nat && laterDay now start
                    then 1 else 0))%Z).
  { unfold db'. rewrite KeyFacts.countSince_logUsage.
    now rewrite StampFacts.stamp_ge_iso. }
  split; [exact E|]. intros Hday.
  rewrite Hday, andb_false_r, Z.add_0_r in E.
  unfold ApiKeys.checkRateLimit, ApiKeys.checkMonthlyLimit,
    ApiKeys.getUsageStats.
  cbn [ApiKeys.calls_this_month]. unfold db' in *. rewrite !KeyFacts.getApiKeyById_logUsage, !E.
  split; reflexivity.
Qed.

Lemma usage_counted_by_day_witness :
  let start := Date.mk 2024 5 17 10 0 0 0 in
  let now := Date.mk 2024 5 17 10 0 30 250 in
  let key := ApiKey.mk 1 "irl_k" "k" "2024-05-01 00:00:00" None 1 10 in
  let db := Db.mk [key] [] in
  let db' := ApiKeys.logUsage db now 1 "/normalize" 3 40 120 true in
  ApiKeys.checkRateLimit db' start 1 = ApiKeys.mkVerdict true 1.
Proof.
  intros start now key db db'.
  assert (Hnow : validDate now) by (unfold validDate; simpl; lia).
  assert (Hstart : validDate start) by (unfold validDate; simpl; lia).
  destruct (usage_counted_by_day db now start 1 1 "/normalize" 3 40 120 true
              Hnow Hstart) as [_ H].
  transitivity (ApiKeys.checkRateLimit db start 1);
    [exact (proj1 (H eq_refl)) | reflexivity].
Defined.

(** X15.  The two fields of a verdict agree: a call is allowed exactly when
    something remains, for the rate check and for the monthly check, and
    for an unknown key nothing is allowed. *)
Theorem verdict_allowed_iff_remaining (db : Db.t) (start : Date.t)
    (id : nat) :
  (ApiKeys.allowed (ApiKeys.checkRateLimit db start id) = true
   <-> (0 < ApiKeys.remaining (ApiKeys.checkRateLimit db start id))%Z)
  /\ (ApiKeys.allowed (ApiKeys.checkMonthlyLimit db start id) = true
      <-> (0 < ApiKeys.remaining (ApiKeys.checkMonthlyLimit db start id))%Z)
  /\ (ApiKeys.getApiKeyById db id = None ->
      ApiKeys.checkRateLimit db start id = ApiKeys.mkVerdict false 0
      /\ ApiKeys.checkMonthlyLimit db start id = ApiKeys.mkVerdict false 0).
Proof.
  unfold ApiKeys.checkRateLimit, ApiKeys.checkMonthlyLimit.
  destruct (ApiKeys.getApiKeyById db id) as [k|];
    cbn [ApiKeys.allowed ApiKeys.remaining].
  - rewrite !Z.ltb_lt. repeat split; try lia; discriminate.
  - repeat split; try discriminate; lia.
Qed.

(* ------------------------------------------------------------------ *)
(** ** The key check *)

Module AuthFacts.

Import Auth.
Local Open Scope string_scope.

Lemma bearer_iff (h : string) :
  String.prefix "Bearer " h = true <-> bearer (Some h).
Proof.
  rewrite StrFacts.prefix_iff. unfold bearer. split.
  - intros (b & ->). now exists b.
  - intros (b & E). injection E as ->. now exists b.
Qed.

Lemma requireApiKey_Next (db : Db.t) (now : Z) (req req' : request) :
  requireApiKey db now req = Next req'
  <-> exists key a,
        key <> "" /\ presents req key
        /\ ApiKeys.validateApiKey db key = Some a
        /\ req' = mkRequest (authorization req) (x_api_key req)
                    (Some a) (Some now).
Proof.
  unfold requireApiKey, presents.
  destruct (authorization req) as [h|] eqn:Eh.
  - destruct (String.prefix "Bearer " h) eqn:Ep.
    + apply StrFacts.prefix_iff in Ep as (b & ->). cbn [option_map].
      change (Str.drop 7 ("Bearer " ++ b)) with b. split.
      * destruct b as [|c b]; [discriminate|]. cbn [Str.truthy].
        destruct (ApiKeys.validateApiKey db (String c b)) as [a|] eqn:Ev;
          [|discriminate].
        intros H. injection H as <-. exists (String c b), a.
        repeat split; auto. discriminate.
      * intros (key & a & Hne & [E | [Hnb _]] & Hv & ->).
        -- injection E as <-. destruct b; [contradiction|].
           cbn [Str.truthy]. now rewrite Hv.
        -- exfalso. apply Hnb. now exists b.
    + assert (Hnb : ~ bearer (Some h)).
      { intros H. apply bearer_iff in H. congruence. }
      destruct (x_api_key req) as [[|c k]|]; cbn [Str.truthy].
      * split; [discriminate|].
        intros (key & a & Hne & [E | [_ E]] & _); exfalso.
        -- apply Hnb. exists key. exact E.
        -- injection E as <-. contradiction.
      * split.
        -- destruct (ApiKeys.validateApiKey db (String c k)) as [a|] eqn:Ev;
             [|discriminate].
           intros H. injection H as <-. exists (String c k), a.
           repeat split; auto. discriminate.
        -- intros (key & a & Hne & [E | [_ E]] & Hv & ->).
           ++ exfalso. apply Hnb. exists key. exact E.
           ++ injection E as <-. now rewrite Hv.
      * split; [discriminate|].
        intros (key & a & Hne & [E | [_ E]] & _); [|discriminate].
        exfalso. apply Hnb. exists key. exact E.
  - destruct (x_api_key req) as [[|c k]|]; cbn [Str.truthy].
    + split; [discriminate|].
      intros (key & a & Hne & [E | [_ E]] & _); [discriminate|].
      injection E as <-. contradiction.
    + split.
      * destruct (ApiKeys.validateApiKey db (String c k)) as [a|] eqn:Ev;
          [|discriminate].
        intros H. injection H as <-. exists (String c k), a.
        repeat split; auto; try discriminate.
        right. split; [|reflexivity]. intros (b & E). discriminate.
      * intros (key & a & Hne & [E | [_ E]] & Hv & ->); [discriminate|].
        injection E as <-. now rewrite Hv.
    + split; [discriminate|].
      intros (key & a & Hne & [E | [_ E]] & _); discriminate.
Qed.

Lemma requireApiKey_401 (db : Db.t) (now : Z) (req : request)
    (status : nat) (error message : string) :
  requireApiKey db now req = Json status error message -> status = 401.
Proof.
  unfold requireApiKey.
  destruct (if match authorization req with
               | Some h => String.prefix "Bearer " h
               | None => false
               end
            then option_map (Str.drop 7) (authorization req)
            else match x_api_key req with
                 | Some k => if Str.truthy k then Some k else None
                 | None => None
                 end) as [k|]; [|congruence].
  destruct (Str.truthy k); [|congruence].
  destruct (ApiKeys.validateApiKey db k); congruence.
Qed.

End AuthFacts.

(** X16.  The key check lets a request through exactly when the key it presents
    is not empty and is the key of a row that is not revoked: the key is
    the bearer token when [Authorization] starts with [Bearer ], and the
    header [X-API-Key] only when it does not, so that a wrong or empty
    bearer token is refused even beside a valid [X-API-Key].  The request
    goes on with the row found and the time of the check, and every
    refusal has the status 401. *)
Theorem requireApiKey_accepts (db : Db.t) (now : Z) (req : Auth.request) :
  (forall req',
     Auth.requireApiKey db now req = Auth.Next req'
     <-> exists key a,
           key <> EmptyString /\ presents req key
           /\ ApiKeys.validateApiKey db key = Some a
           /\ req' = Auth.mkRequest (Auth.authorization req)
                       (Auth.x_api_key req) (Some a) (Some now))
  /\ (forall status error message,
        Auth.requireApiKey db now req = Auth.Json status error message ->
        status = 401).
Proof.
  split; [intros req'; apply AuthFacts.requireApiKey_Next|].
  apply AuthFacts.requireApiKey_401.
Qed.

(* ------------------------------------------------------------------ *)
(** ** Revocation *)

Module RevokeFacts.

Import ApiKeys.

Lemma find_all_false {A : Type} (p : A -> bool) (l : list A) :
  (forall x, In x l -> p x = false) -> List.find p l = None.
Proof.
  induction l as [|x l IH]; intros H; simpl; [reflexivity|].
  rewrite (H x (or_introl eq_refl)). apply IH. intros y Hy. apply H.
  now right.
Qed.

Lemma filter_all_false {A : Type} (p : A -> bool) (l : list A) :
  (forall x, In x l -> p x = false) -> List.filter p l = [].
Proof.
  induction l as [|x l IH]; intros H; simpl; [reflexivity|].
  rewrite (H x (or_introl eq_refl)). apply IH. intros y Hy. apply H.
  now right.
Qed.

Lemma find_map {A : Type} (p : A -> bool) (f : A -> A) (l : list A) :
  (forall x, p (f x) = p x) ->
  List.find p (List.map f l) = option_map f (List.find p l).
Proof.
  intros H. induction l as [|x l IH]; simpl; [reflexivity|].
  rewrite H. now destruct (p x).
Qed.

Lemma find_map_same {A : Type} (p : A -> bool) (f : A -> A) (l : list A) :
  (forall x, In x l -> f x = x \/ (p (f x) = false /\ p x = false)) ->
  List.find p (List.map f l) = List.find p l.
Proof.
  induction l as [|x l IH]; intros H; simpl; [reflexivity|].
  rewrite IH by (intros y Hy; apply H; now right).
  destruct (H x (or_introl eq_refl)) as [-> | [-> ->]]; reflexivity.
Qed.

Lemma NoDup_map_inj {A B : Type} (f : A -> B) (l : list A) (a b : A) :
  NoDup (List.map f l) -> In a l -> In b l -> f a = f b -> a = b.
Proof.
  induction l as [|x l IH]; simpl; intros Hnd Ha Hb E; [contradiction|].
  inversion Hnd as [|? ? Hx Hnd']; subst.
  destruct Ha as [-> | Ha], Hb as [-> | Hb]; auto.
  - exfalso. apply Hx. rewrite E. now apply in_map.
  - exfalso. apply Hx. rewrite <- E. now apply in_map.
Qed.

Lemma revokeApiKey_rows (db : Db.t) (now : Date.t) (id : nat) :
  Db.api_keys (snd (revokeApiKey db now id))
  = List.map (revokeRow now id) (Db.api_keys db).
Proof. reflexivity. Qed.

End RevokeFacts.

(** X17.  Revocation by id.  For the id of a row, [revokeApiKey] answers true,
    stamps the row with the time of the call, also when the row was
    revoked before, and from then on the key of the row is not valid and
    no request is let through with it, while every other key is as valid
    as it was.  For an id of no row it answers false and changes
    nothing. *)
Theorem revokeApiKey_effective (db : Db.t) (now : Date.t) (id : nat) :
  keysUnique db ->
  let db' := snd (ApiKeys.revokeApiKey db now id) in
  match ApiKeys.getApiKeyById db id with
  | Some k =>
      fst (ApiKeys.revokeApiKey db now id) = true
      /\ ApiKeys.getApiKeyById db' id = Some (revokedAt now k)
      /\ ApiKeys.validateApiKey db' (ApiKey.key k) = None
      /\ (forall t req req',
            presents req (ApiKey.key k) ->
            Auth.requireApiKey db' t req <> Auth.Next req')
      /\ (forall key, key <> ApiKey.key k ->
            ApiKeys.validateApiKey db' key = ApiKeys.validateApiKey db key)
  | None => ApiKeys.revokeApiKey db now id = (false, db)
  end.
Proof.
  intros [Hids Hkeys] db'.
  destruct (ApiKeys.getApiKeyById db id) as [k|] eqn:Ek.
  - unfold ApiKeys.getApiKeyById in Ek.
    pose proof (find_some _ _ Ek) as [Hin Hid]. apply Nat.eqb_eq in Hid.
    assert (Honly : forall r, In r (Db.api_keys db) ->
                      (ApiKey.id r =? id) = true -> r = k).
    { intros r Hr E. apply Nat.eqb_eq in E.
      apply (RevokeFacts.NoDup_map_inj ApiKey.id (Db.api_keys db)); auto.
      congruence. }
    assert (Hgone : ApiKeys.validateApiKey db' (ApiKey.key k) = None).
    { unfold ApiKeys.validateApiKey, db'.
      rewrite RevokeFacts.revokeApiKey_rows.
      apply RevokeFacts.find_all_false. intros x Hx.
      apply in_map_iff in Hx as (r & <- & Hr). unfold revokeRow.
      destruct (ApiKey.id r =? id) eqn:E.
      - simpl. apply andb_false_r.
      - destruct (String.eqb (ApiKey.key r) (ApiKey.key k)) eqn:E';
          [|reflexivity].
        apply String.eqb_eq in E'.
        assert (r = k)
          by (apply (RevokeFacts.NoDup_map_inj ApiKey.key (Db.api_keys db));
              auto).
        subst r. rewrite Hid, Nat.eqb_refl in E. discriminate. }
    split; [|split; [|split; [exact Hgone|split]]].
    + unfold ApiKeys.revokeApiKey. cbn [fst]. apply Nat.ltb_lt.
      assert (Hk : In k (List.filter (fun row => ApiKey.id row =? id)
                           (Db.api_keys db)))
        by (apply filter_In; split; [exact Hin | now apply Nat.eqb_eq]).
      destruct (List.filter _ (Db.api_keys db)); [contradiction|].
      simpl. lia.
    + unfold ApiKeys.getApiKeyById, db'.
      rewrite RevokeFacts.revokeApiKey_rows.
      rewrite RevokeFacts.find_map.
      * rewrite Ek. cbn [option_map]. unfold revokeRow.
        now rewrite Hid, Nat.eqb_refl.
      * intros x. unfold revokeRow.
        destruct (ApiKey.id x =? id) eqn:E; [exact E | now rewrite E].
    + intros t req req' Hp H.
      apply AuthFacts.requireApiKey_Next in H
        as (key & a & Hne & Hp' & Hv & _).
      assert (key = ApiKey.key k) as ->; [|congruence].
      destruct Hp as [E | [Hn E]], Hp' as [E' | [Hn' E']]; try congruence.
      * rewrite E in E'. now injection E' as E'.
      * exfalso. apply Hn'. now exists (ApiKey.key k).
      * exfalso. apply Hn. now exists key.
    + intros key Hkey. unfold ApiKeys.validateApiKey, db'.
      rewrite RevokeFacts.revokeApiKey_rows.
      apply RevokeFacts.find_map_same. intros r Hr. unfold revokeRow.
      destruct (ApiKey.id r =? id) eqn:E; [|now left].
      right. rewrite (Honly r Hr E). simpl.
      assert (String.eqb (ApiKey.key k) key = false) as ->; [|auto].
      apply String.eqb_neq. congruence.
  - unfold ApiKeys.getApiKeyById in Ek.
    pose proof (find_none _ _ Ek) as Hnone.
    unfold ApiKeys.revokeApiKey. f_equal.
    + apply Nat.ltb_ge.
      assert (List.filter (fun row => ApiKey.id row =? id) (Db.api_keys db)
              = []) as ->; [|simpl; lia].
      apply RevokeFacts.filter_all_false, Hnone.
    + destruct db as [keys logs]. cbn [Db.api_keys Db.usage_logs] in *.
      f_equal. rewrite <- (map_id keys) at 2. apply map_ext_in.
      intros r Hr. now rewrite (Hnone r Hr).
Qed.

(* ------------------------------------------------------------------ *)
(** ** When the assembler returns *)

Lemma withSections_words (text : string) :
  test withSections text = true <-> triggeredAfter "with" text SECTION_WORDS.
Proof.
  eapply (AudienceFacts.afterRow "with");
    [ repeat (constructor; [apply AudienceFacts.matches_plural|]); constructor
    | reflexivity ].
Qed.

(** X18.  [normalize] returns on exactly the inputs that do not have the whole
    word "with", in any casing, followed by white space and one of
    "section(s)", "part(s)", "chapter(s)" up to a word boundary.  On such
    an input the structure loop never ends; on every other input a fuel
    above the length of the input is enough for all loops. *)
Theorem normalize_returns_unless_sections (text : string) :
  (triggeredAfter "with" text SECTION_WORDS ->
   forall fuel, normalize fuel text = None)
  /\ (~ triggeredAfter "with" text SECTION_WORDS ->
      exists r, forall fuel,
        String.length text < fuel -> normalize fuel text = Some r).
Proof.
  split.
  - intros H. apply normalize_diverges. now apply withSections_words.
  - intros H. apply normalize_returns.
    destruct (test withSections text) eqn:E; [|reflexivity].
    exfalso. apply H. now apply withSections_words.
Qed.

Lemma normalize_returns_unless_sections_witness :
  (forall fuel, normalize fuel "A long guide with  Chapters" = None)
  /\ exists r, forall fuel, 6 < fuel -> normalize fuel "Hello." = Some r.
Proof.
  split.
  - apply (proj1 (normalize_returns_unless_sections
                    "A long guide with  Chapters")).
    exists "chapters". split; [simpl; auto 10|].
    exists "A long guide ", "with", "  ", "Chapters", "".
    repeat split; try reflexivity. discriminate.
  - apply (proj2 (normalize_returns_unless_sections "Hello.")).
    intros H. apply withSections_words in H. vm_compute in H. discriminate.
Defined.

Lemma revokeApiKey_effective_witness :
  let a := ApiKey.mk 1 "irl_a" "first" "2024-05-01 00:00:00" None 100 10000 in
  let b := ApiKey.mk 2 "irl_b" "second" "2024-05-02 00:00:00" None 100 10000
  in
  let db := Db.mk [a; b] [] in
  let db' := snd (ApiKeys.revokeApiKey db (Date.mk 2024 5 17 10 0 0 0) 2) in
  ApiKeys.validateApiKey db "irl_b" = Some b
  /\ ApiKeys.validateApiKey db' "irl_b" = None
  /\ ApiKeys.validateApiKey db' "irl_a" = Some a.
Proof.
  intros a b db db'.
  assert (H : keysUnique db).
  { split; simpl; repeat (constructor; [simpl; intuition discriminate|]);
      constructor. }
  pose proof (revokeApiKey_effective db (Date.mk 2024 5 17 10 0 0 0) 2 H)
    as T.
  change (ApiKeys.getApiKeyById db 2) with (Some b) in T.
  destruct T as (_ & _ & Hgone & _ & Hother).
  split; [reflexivity|]. split; [exact Hgone|].
  unfold db'. rewrite (Hother "irl_a"); [reflexivity | discriminate].
Defined.

(* ------------------------------------------------------------------ *)
(** ** The key list *)

(** X19.  The masked key shows the first eight and the last four characters of
    a key of twelve characters or more, and nothing of what lies between
    them. *)
Theorem maskKey_hides_middle (first middle last : string) :
  String.length first = 8 -> String.length last = 4 ->
  Admin.maskKey (first ++ middle ++ last) = (first ++ "..." ++ last)%string.
Proof.
  intros Hf Hl. unfold Admin.maskKey, Admin.sliceLast. f_equal.
  - rewrite <- Hf. apply ClauseFacts.take_app.
  - f_equal. rewrite <- StrFacts.app_assoc, StrFacts.length_app, Hl.
    rewrite Nat.add_sub. apply GoalFacts.drop_app.
Qed.

Lemma maskKey_hides_middle_witness :
  Admin.maskKey "irl_V1StGXR8_Z5jdHi6B-myT0a9KpQx7LmN"
  = "irl_V1St...7LmN".
Proof.
  apply (maskKey_hides_middle "irl_V1St" "GXR8_Z5jdHi6B-myT0a9KpQx" "7LmN");
    reflexivity.
Defined.

(* ------------------------------------------------------------------ *)
(** ** What the notation lists *)

(** X20.  Nothing of the lists of an intent is left out of its notation: every
    hard and soft constraint, every conflict with its severity tag, and
    every assumption is there as a dashed entry. *)
Theorem notation_lists_all (intent : Intent.t) :
  (forall c,
     In c (Constraints.hard (Intent.constraints intent))
     \/ In c (Constraints.soft (Intent.constraints intent)) ->
     Str.includes (generateIRL intent) (dashed (Constraint.text c)) = true)
  /\ (forall c, In c (Intent.conflicts intent) ->
        Str.includes (generateIRL intent)
          (dashed ((if isBlocking c then "[BLOCKING]" else "[WARNING]")
                   ++ " " ++ Conflict.description c)) = true)
  /\ (forall a, In a (Intent.assumptions intent) ->
        Str.includes (generateIRL intent) (dashed a) = true).
Proof.
  assert (Hne : forall (A : Type) (x : A) (l : list A),
            In x l -> nonEmpty l = true).
  { intros A x [|y l] H; [contradiction | reflexivity]. }
  split; [|split].
  - intros c Hc. apply StrFacts.includes_iff. unfold generateIRL.
    apply join_In. destruct Hc as [Hc | Hc].
    + do 4 (apply in_or_app; right). apply in_or_app; left.
      rewrite (Hne _ c _ Hc). apply in_or_app; right.
      now apply (in_map (fun c => dashed (Constraint.text c))).
    + do 5 (apply in_or_app; right). apply in_or_app; left.
      rewrite (Hne _ c _ Hc). apply in_or_app; right.
      now apply (in_map (fun c => dashed (Constraint.text c))).
  - intros c Hc. apply StrFacts.includes_iff. unfold generateIRL.
    apply join_In. do 7 (apply in_or_app; right). apply in_or_app; left.
    rewrite (Hne _ c _ Hc). apply in_or_app; right.
    now apply (in_map (fun c => dashed
      ((if isBlocking c then "[BLOCKING]" else "[WARNING]")
       ++ " " ++ Conflict.description c)%string)).
  - intros a Ha. apply StrFacts.includes_iff. unfold generateIRL.
    apply join_In. do 8 (apply in_or_app; right).
    rewrite (Hne _ a _ Ha). apply in_or_app; right.
    now apply in_map.
Qed.

(* ------------------------------------------------------------------ *)
(** ** The goal in the two outputs *)

Module LeadFacts.

Import TrimFacts.
Local Open Scope string_scope.

(** Trimming the end of a longer text does not touch a prefix that does
    not end with white space. *)
Lemma trimEnd_keeps (g x : string) :
  Str.trimEnd g = g -> exists y, Str.trimEnd (g ++ x) = g ++ y.
Proof.
  induction g as [|c g IH]; intros H; [now exists (Str.trimEnd x)|].
  cbn [Str.trimEnd] in H. cbn [append Str.trimEnd].
  destruct (Str.trimEnd g) as [|d t] eqn:E.
  - destruct (Char.isSpace c) eqn:Ec; [discriminate|].
    injection H as <-. simpl.
    destruct (Str.trimEnd x) as [|e u]; [exists ""|exists (String e u)];
      now rewrite ?Ec.
  - injection H as <-. destruct (IH eq_refl) as (y & ->).
    exists y. reflexivity.
Qed.

Lemma trim_keeps (g x : string) :
  Str.trim g = g -> String.prefix g (Str.trim (g ++ x)) = true.
Proof.
  intros H. apply trimmed_iff in H as [Hs He].
  destruct g as [|c g];
    [apply StrFacts.prefix_iff; eexists; reflexivity|].
  unfold Str.trim. rewrite (trimStart_id (String c g ++ x)) by exact Hs.
  destruct (trimEnd_keeps (String c g) x He) as (y & ->).
  apply StrFacts.prefix_iff. now exists y.
Qed.

Lemma join_head (sep p : string) (parts : list string) :
  exists x, Str.join sep (p :: parts) = p ++ x.
Proof.
  destruct parts as [|q parts].
  - exists "". simpl. now rewrite StrFacts.app_nil_r.
  - now exists (sep ++ Str.join sep (q :: parts)).
Qed.

End LeadFacts.

(** X21.  Both outputs of [normalize] lead with the goal: the notation starts
    with [@goal ] and the primary goal, and the compiled instruction
    starts with the primary goal, which the final trim leaves whole. *)
Theorem outputs_lead_with_goal (fuel : nat) (input : string)
    (r : NormalizeResponse.t) :
  normalize fuel input = Some r ->
  let goal := Intent.primaryGoal (NormalizeResponse.intent r) in
  String.prefix ("@goal " ++ goal) (NormalizeResponse.irl r) = true
  /\ String.prefix goal (NormalizeResponse.compiled r) = true.
Proof.
  intros H goal.
  pose proof (normalize_inv _ _ _ H) as (_ & _ & Hg & _).
  apply normalize_fields in H as (_ & _ & _ & _ & _ & _ & -> & ->).
  split.
  - unfold generateIRL. cbn [app].
    match goal with
    | |- context [Str.join ?s (?p :: ?ps)] =>
        destruct (LeadFacts.join_head s p ps) as (x & Hx); rewrite Hx
    end.
    apply StrFacts.prefix_iff. now exists x.
  - unfold compilePrompt. cbn [app].
    match goal with
    | |- context [Str.join ?s (?p :: ?ps)] =>
        destruct (LeadFacts.join_head s p ps) as (x & Hx); rewrite Hx
    end.
    apply LeadFacts.trim_keeps. unfold goal. rewrite Hg.
    apply (ShapeFacts.goal_shape input).
Qed.

Lemma outputs_lead_with_goal_witness :
  exists r,
    normalize 50 "  please summarize this for beginners. It must be short"
    = Some r
    /\ Intent.primaryGoal (NormalizeResponse.intent r)
       = "Summarize this for beginners"
    /\ String.prefix (Intent.primaryGoal (NormalizeResponse.intent r))
         (NormalizeResponse.compiled r) = true.
Proof.
  eexists. split; [vm_compute; reflexivity|].
  split; [reflexivity|].
  refine (proj2 (outputs_lead_with_goal 50
            "  please summarize this for beginners. It must be short" _ _)).
  vm_compute. reflexivity.
Defined.

(* ------------------------------------------------------------------ *)
(** ** The sentence that makes the goal *)

Module FirstFacts.

Import TrimFacts ShapeFacts.
Local Open Scope string_scope.

Lemma trimStart_spaces (a s : string) :
  Str.forallb Char.isSpace a = true ->
  Str.trimStart (a ++ s) = Str.trimStart s.
Proof.
  induction a as [|c a IH]; simpl; [reflexivity|].
  intros H. apply andb_true_iff in H as [-> H]. now apply IH.
Qed.

(** A piece without marks is read in one go. *)
Lemma splitFrom_plain_run (s t cur : string) (inRun : bool) :
  plain s -> s <> "" ->
  splitFrom (s ++ t) cur inRun = splitFrom t (cur ++ s) false.
Proof.
  unfold plain. revert cur inRun.
  induction s as [|a s IH]; intros cur inRun Hs Hne; [contradiction|].
  simpl in Hs. apply andb_true_iff in Hs as [Ha Hs].
  apply negb_true_iff in Ha. cbn [append splitFrom]. rewrite Ha.
  destruct s as [|b s].
  - reflexivity.
  - rewrite IH by (auto; discriminate). now rewrite StrFacts.app_assoc.
Qed.

(** Blank text before a sentence leaves white space at most. *)
Lemma splitFrom_blank_lead (lead t cur : string) (inRun : bool) :
  blank lead -> Str.forallb Char.isSpace cur = true ->
  exists cur' inRun',
    Str.forallb Char.isSpace cur' = true
    /\ List.filter Str.truthy
         (List.map Str.trim (splitFrom (lead ++ t) cur inRun))
       = List.filter Str.truthy
           (List.map Str.trim (splitFrom t cur' inRun')).
Proof.
  unfold blank. revert cur inRun.
  induction lead as [|c lead IH]; intros cur inRun Hl Hc.
  - now exists cur, inRun.
  - simpl in Hl. apply andb_true_iff in Hl as [Hc' Hl].
    cbn [append splitFrom].
    destruct (isSentenceEnd c) eqn:Ec.
    + destruct inRun.
      * apply IH; auto.
      * cbn [List.map List.filter].
        apply trim_empty_iff in Hc. rewrite Hc. cbn [Str.truthy].
        apply IH; auto.
    + rewrite orb_false_r in Hc'. apply IH; [exact Hl|].
      rewrite forallb_app, Hc. simpl. now rewrite Hc'.
Qed.

Lemma sentences_first (lead s rest : string) (c : ascii) :
  blank lead -> plain s -> Str.trim s <> "" -> isSentenceEnd c = true ->
  exists others, sentences (lead ++ s ++ String c rest) = Str.trim s :: others.
Proof.
  intros Hl Hs Hne Hc. unfold sentences, splitSentences.
  destruct (splitFrom_blank_lead lead (s ++ String c rest) "" false Hl
              eq_refl) as (cur & inRun & Hcur & ->).
  assert (Hs' : s <> "") by (intros ->; now apply Hne).
  rewrite splitFrom_plain_run by assumption.
  cbn [splitFrom]. rewrite Hc. cbn [List.map List.filter].
  assert (E : Str.trim (cur ++ s) = Str.trim s)
    by (unfold Str.trim; now rewrite trimStart_spaces).
  rewrite E. destruct (Str.trim s) eqn:Et; [contradiction|].
  cbn [Str.truthy]. eexists. reflexivity.
Qed.

Lemma sentences_one (s : string) :
  plain s -> Str.trim s <> "" -> sentences s = [Str.trim s].
Proof.
  intros Hs Hne. unfold sentences, splitSentences.
  assert (Hs' : s <> "") by (intros ->; now apply Hne).
  rewrite <- (StrFacts.app_nil_r s) at 1.
  rewrite splitFrom_plain_run by assumption.
  cbn [splitFrom List.map List.filter append].
  destruct (Str.trim s); [contradiction | reflexivity].
Qed.

End FirstFacts.

(** X22.  Only the first sentence makes the goal.  When the input is a stretch
    of white space and marks, then a text [s] without marks that is not
    white space only, then one of [.], [!], [?], the primary goal is that of
    [s] alone: what comes before and after has no part in it. *)
Theorem primaryGoal_of_first_sentence (lead s rest : string) (c : ascii) :
  blank lead -> plain s -> Str.trim s <> EmptyString ->
  isSentenceEnd c = true ->
  extractPrimaryGoal (lead ++ s ++ String c rest) = extractPrimaryGoal s.
Proof.
  intros Hl Hs Hne Hc. unfold extractPrimaryGoal.
  fold (sentences (lead ++ s ++ String c rest)). fold (sentences s).
  destruct (FirstFacts.sentences_first lead s rest c Hl Hs Hne Hc)
    as (others & ->).
  now rewrite FirstFacts.sentences_one.
Qed.

Lemma primaryGoal_of_first_sentence_witness :
  extractPrimaryGoal "... Please fix the login bug! It should be quick."
  = extractPrimaryGoal "Please fix the login bug".
Proof.
  apply (primaryGoal_of_first_sentence "... " "Please fix the login bug"
           " It should be quick." "!"); try reflexivity.
  vm_compute. discriminate.
Defined.

(* ------------------------------------------------------------------ *)
(** ** The trigger phrases of the constraint rules *)

Module TriggerFacts.

Import Scan Sem Clause Trigger ReFacts SemFacts TableFacts.
Local Open Scope string_scope.

Lemma comma_mem (c : ascii) :
  mem true (Union (OneOf ",") Space) c = isBlankOrComma c.
Proof. destruct c as [[] [] [] [] [] [] [] []]; reflexivity. Qed.

Lemma forallb_ext (P Q : ascii -> bool) (w : string) :
  (forall c, P c = Q c) -> Str.forallb P w = Str.forallb Q w.
Proof.
  intros H. induction w as [|c w IH]; simpl; [reflexivity|].
  now rewrite H, IH.
Qed.

Lemma separator_reads (cs : cset) (it : item) (w : string) :
  separator cs = Some it -> w <> "" ->
  Str.forallb (mem true cs) w = true -> reads [it] w.
Proof.
  destruct cs as [| |ms|a b]; simpl; try discriminate.
  - intros H Hne Hw. injection H as <-. exists w, "".
    rewrite StrFacts.app_nil_r. simpl. auto.
  - destruct a as [| |s|]; try discriminate.
    destruct b; try discriminate.
    destruct (String.eqb s ",") eqn:E; [|discriminate].
    apply String.eqb_eq in E. subst s.
    intros H Hne Hw. injection H as <-. exists w, "".
    rewrite StrFacts.app_nil_r. simpl.
    rewrite <- (forallb_ext _ _ w comma_mem). auto.
Qed.

Lemma reads_app (x y : list item) (w1 w2 : string) :
  reads x w1 -> reads y w2 -> reads (x ++ y) (w1 ++ w2).
Proof.
  revert w1. induction x as [|[w| |] x IH]; intros w1 Hx Hy; simpl in *.
  - now subst w1.
  - destruct Hx as (u & rest & -> & Hu & Hx). exists u, (rest ++ w2).
    rewrite StrFacts.app_assoc. auto.
  - destruct Hx as (sp & rest & -> & Hne & Hsp & Hx). exists sp, (rest ++ w2).
    rewrite StrFacts.app_assoc. auto.
  - destruct Hx as (sp & rest & -> & Hne & Hsp & Hx). exists sp, (rest ++ w2).
    rewrite StrFacts.app_assoc. auto.
Qed.

(** Two words with nothing between them read as one. *)
Lemma reads_merge (a b : string) (l : list item) (t : string) :
  reads (Word a :: Word b :: l) t -> reads (Word (a ++ b) :: l) t.
Proof.
  simpl. intros (u & rest & -> & Hu & v & rest' & -> & Hv & Hl).
  exists (u ++ v), rest'. rewrite StrFacts.app_assoc.
  split; [reflexivity|]. split; [|exact Hl].
  apply spells_app. now exists u, v.
Qed.

(** What the parts of a pattern take reads as one of their forms. *)
Lemma expand_reads (re : regex) (p : option ascii) (i : nat)
    (w r : string) :
  plainTrigger re = true -> matches true re p i w r ->
  exists items, In items (expand re) /\ reads items w.
Proof.
  revert p i w r. induction re as
    [s|cs|cs|cs|cs| | | |a IHa b IHb|a IHa b IHb|a IHa|n a IHa];
    intros p i w r Hp Hm; simpl in Hp; try discriminate.
  - apply matches_Lit in Hm. exists [Word s]. split; [now left|].
    exists w, "". rewrite StrFacts.app_nil_r. simpl. auto.
  - inversion Hm; subst. simpl.
    destruct (separator cs) as [it|] eqn:E; [|discriminate].
    exists [it]. split; [now left|].
    apply (separator_reads cs); [exact E | discriminate | assumption].
  - apply andb_true_iff in Hp as [Ha Hb].
    apply matches_Seq in Hm as (w1 & w2 & -> & H1 & H2).
    destruct (IHa _ _ _ _ Ha H1) as (x & Hx & Rx).
    destruct (IHb _ _ _ _ Hb H2) as (y & Hy & Ry).
    exists (x ++ y)%list. split; [|now apply reads_app].
    simpl. apply in_flat_map. exists x. split; [exact Hx|].
    now apply (in_map (fun y => (x ++ y)%list)).
  - apply matches_Opt in Hm as [-> | Hm].
    + exists []. split; [now left | reflexivity].
    + destruct (IHa _ _ _ _ Hp Hm) as (x & Hx & Rx).
      exists x. split; [now right | exact Rx].
Qed.

(** The parts before the clause, then the clause and its end. *)
Lemma parts_run (parts : list regex) (st res : cursor) :
  parts <> [] ->
  run true (seq (parts ++ [clause; clauseEnd])) st Some = Some res ->
  exists trig cl right,
    rest st = trig ++ cl ++ right
    /\ matches true (seq parts) (prev st) (pos st) trig (cl ++ right)
    /\ clauseAt cl right
    /\ group 1 (caps res) = Some cl.
Proof.
  revert st. induction parts as [|a parts IH]; intros st Hne H;
    [contradiction|].
  destruct parts as [|b parts].
  - change (seq ([a] ++ [clause; clauseEnd]))
      with (Seq a (Seq clause clauseEnd)) in H.
    cbn [run] in H.
    apply run_sound in H as (w & r' & caps' & Hr & Hm & H).
    apply ClauseFacts.clause_run in H as (cl & right & Hr' & Hcl & Hg & _).
    cbn [rest] in Hr'. subst r'. exists w, cl, right. auto.
  - change (seq ((a :: b :: parts) ++ [clause; clauseEnd]))
      with (Seq a (seq ((b :: parts) ++ [clause; clauseEnd]))) in H.
    cbn [run] in H.
    apply run_sound in H as (w & r' & caps' & Hr & Hm & H).
    apply IH in H as (trig & cl & right & Hr' & Hm' & Hcl & Hg);
      [|discriminate].
    cbn [rest prev pos] in *. subst r'.
    exists (w ++ trig), cl, right.
    split; [now rewrite Hr, StrFacts.app_assoc|].
    split; [|auto].
    change (seq (a :: b :: parts)) with (Seq a (seq (b :: parts))).
    now constructor.
Qed.

Lemma trigger_run (parts : list regex) (st res : cursor) :
  parts <> [] ->
  run true (seq (WordB :: parts ++ [clause; clauseEnd])) st Some = Some res ->
  exists trig cl right,
    rest st = trig ++ cl ++ right
    /\ atWordBoundary (prev st) (rest st) = true
    /\ matches true (seq parts) (prev st) (pos st) trig (cl ++ right)
    /\ clauseAt cl right
    /\ group 1 (caps res) = Some cl.
Proof.
  intros Hne H.
  assert (E : seq (WordB :: parts ++ [clause; clauseEnd])
              = Seq WordB (seq (parts ++ [clause; clauseEnd]))).
  { destruct parts as [|a parts]; [contradiction|].
    destruct parts; reflexivity. }
  rewrite E in H. cbn [run] in H.
  destruct (atWordBoundary (prev st) (rest st)) eqn:Hb; [|discriminate].
  apply parts_run in H as (trig & cl & right & Hr & Hm & Hcl & Hg);
    [|exact Hne].
  exists trig, cl, right. auto.
Qed.

(** A match of a rule's pattern makes a text as the rule says. *)
Lemma sameRule_makes (p : ConstraintPattern.t) (r : rule) (text : string)
    (lastIndex : nat) (m : rmatch) :
  sameRule p r ->
  found (ConstraintPattern.pattern p) text lastIndex m ->
  exists t, ConstraintPattern.extract p m = Some t /\ makes r text t.
Proof.
  intros (parts & Hne & Hsrc & Hic & _ & Hplain & Hforms & Hex)
         (st & Hat & _ & Hg & _).
  unfold matchAt in Hat. rewrite Hic, Hsrc in Hat.
  destruct (seek None text (index m)) as [[q rs]|] eqn:Hseek; [|discriminate].
  apply seek_inv in Hseek as (pre & Htext & _ & Hq).
  apply trigger_run in Hat as (trig & cl & right & Hr & Hb & Hm & Hcl & Hg1);
    [|exact Hne].
  cbn [rest prev pos] in *. rewrite <- Hg in Hg1.
  destruct (expand_reads _ _ _ _ _ Hplain Hm) as (items & Hin & Hreads).
  destruct (Hforms items trig Hin Hreads) as (phrase & Hph & Hrp).
  exists (lead r ++ Str.trim cl). split; [now apply Hex|].
  exists pre, trig, cl, right, phrase. subst q text.
  rewrite <- Hr. auto 10.
Qed.

Lemma chained_found (re : RegExp) (text : string) (ms : list rmatch)
    (m : rmatch) (lastIndex : nat) :
  chained re text lastIndex ms -> In m ms ->
  exists lastIndex', found re text lastIndex' m.
Proof.
  revert lastIndex. induction ms as [|m' ms IH]; intros li H Hin;
    [contradiction|].
  destruct H as [Hm Hms]. destruct Hin as [<- | Hin].
  - now exists li.
  - now apply (IH (lastPos m')).
Qed.

(** A form is among the phrases of the rule, as it is or with two of its
    words read as one. *)
Ltac form_found :=
  first
    [ eexists; split; [|eassumption]; simpl; tauto
    | match goal with
      | H : reads _ _ |- _ => apply reads_merge in H; cbn [append] in H
      end;
      eexists; split; [|eassumption]; simpl; tauto ].

Ltac same_rule parts :=
  exists parts;
  split; [discriminate|];
  split; [reflexivity|];
  split; [reflexivity|];
  split; [reflexivity|];
  split; [reflexivity|];
  split;
  [ intros items trig Hin Hreads; simpl in Hin;
    repeat (destruct Hin as [<- | Hin]; [form_found|]); contradiction
  | intros m cl Hg; cbv [ConstraintPattern.extract prefixed1 trimmed1];
    rewrite Hg; reflexivity ].

Lemma HARD_same : Forall2 sameRule HARD_CONSTRAINT_PATTERNS HARD_RULES.
Proof.
  unfold HARD_CONSTRAINT_PATTERNS, HARD_RULES.
  constructor;
    [same_rule [Lit "must"; Plus Space; Opt (seq [Lit "be"; Plus Space])]|].
  constructor;
    [same_rule [Lit "require"; Opt (Lit "d");
                Opt (seq [Plus Space; Lit "to"]); Plus Space]|].
  constructor;
    [same_rule [Lit "has"; Plus Space; Lit "to"; Plus Space]|].
  constructor;
    [same_rule [Lit "need"; Opt (Lit "s"); Plus Space; Lit "to";
                Plus Space]|].
  constructor; [same_rule [Lit "ensure"; Plus Space]|].
  constructor; [same_rule [Lit "no"; Plus Space]|].
  constructor; [same_rule [Lit "without"; Plus Space]|].
  constructor.
Qed.

Lemma SOFT_same : Forall2 sameRule SOFT_CONSTRAINT_PATTERNS SOFT_RULES.
Proof.
  unfold SOFT_CONSTRAINT_PATTERNS, SOFT_RULES.
  constructor; [same_rule [Lit "preferably"; Plus Space]|].
  constructor; [same_rule [Lit "ideally"; Plus Space]|].
  constructor;
    [same_rule [Lit "should"; Plus Space; Opt (seq [Lit "be"; Plus Space])]|].
  constructor;
    [same_rule [Lit "would"; Plus Space; Lit "be"; Plus Space; Lit "nice";
                Plus Space; Opt (seq [Lit "to"; Plus Space])]|].
  constructor;
    [same_rule [Lit "if"; Plus Space; Lit "possible";
                Plus (Union (OneOf ",") Space)]|].
  constructor; [same_rule [Lit "optionally"; Plus Space]|].
  constructor.
Qed.

Lemma Forall2_In {A B : Type} (R : A -> B -> Prop) (l : list A)
    (l' : list B) (x : A) :
  Forall2 R l l' -> In x l -> exists y, In y l' /\ R x y.
Proof.
  induction 1 as [|a b l l' Hab _ IH]; intros Hin; [contradiction|].
  destruct Hin as [<- | Hin].
  - exists b. split; [now left | exact Hab].
  - destruct (IH Hin) as (y & Hy & Hxy). exists y. split; [now right|auto].
Qed.

(** Every constraint of a list is made by a rule of its table. *)
Lemma constraints_made (fuel : nat) (input : string)
    (patterns : list ConstraintPattern.t) (rules : list rule)
    (type : ConstraintType) (cs : list Constraint.t) :
  Forall2 sameRule patterns rules ->
  extractConstraints fuel input patterns type = Some cs ->
  forall c, In c cs ->
    exists r, In r rules /\ makes r input (Constraint.text c).
Proof.
  intros Hsame H c Hc.
  apply ExtractFacts.extractConstraints_invariant in H
    as (ts & Hts & _ & _ & Hfirst & _).
  apply RuleFacts.candidates_In in Hts as [Hfrom _].
  destruct (Hfirst c Hc) as (b & l & Hsplit & _).
  destruct (Hfrom (Constraint.text c)) as (p & ms & m & Hp & Hms & Hm & Ht).
  { rewrite Hsplit. apply in_app_iff. right. now left. }
  destruct (Forall2_In _ _ _ _ Hsame Hp) as (r & Hr & Hpr).
  exists r. split; [exact Hr|].
  assert (Hglobal : global (ConstraintPattern.pattern p) = true)
    by (destruct Hpr as (? & _ & _ & _ & Hgl & _); exact Hgl).
  apply (execLoop_chained _ _ Hglobal) in Hms.
  destruct (chained_found _ _ _ _ _ Hms Hm) as (li & Hfound).
  destruct (sameRule_makes p r input li m Hpr Hfound) as (t & Et & Hmk).
  congruence.
Qed.

End TriggerFacts.

(* ------------------------------------------------------------------ *)
(** ** The two pairs of renderers *)

Module SiblingFacts.

Import TrimFacts.
Local Open Scope string_scope.

Lemma join_snoc2 (sep a b : string) (l : list string) :
  l <> [] ->
  Str.join sep (l ++ [a; b]) = (Str.join sep l ++ sep ++ a ++ sep) ++ b.
Proof.
  induction l as [|x l IH]; intros H; [contradiction|].
  destruct l as [|y l].
  - simpl. now rewrite !StrFacts.app_assoc.
  - change (Str.join sep ((x :: y :: l) ++ [a; b]))
      with (x ++ sep ++ Str.join sep ((y :: l) ++ [a; b])).
    rewrite IH by discriminate.
    change (Str.join sep (x :: y :: l))
      with (x ++ sep ++ Str.join sep (y :: l)).
    now rewrite !StrFacts.app_assoc.
Qed.

Lemma trimStart_app (p x : string) :
  x <> "" -> startsClean x ->
  Str.trimStart (p ++ x) = Str.trimStart p ++ x.
Proof.
  intros Hne Hx. induction p as [|c p IH]; simpl.
  - now apply trimStart_id.
  - now destruct (Char.isSpace c).
Qed.

Lemma trimEnd_app (b x : string) :
  x <> "" -> Str.trimEnd x = x -> Str.trimEnd (b ++ x) = b ++ x.
Proof.
  intros Hne Hx. induction b as [|c b IH]; simpl; [exact Hx|].
  rewrite IH. destruct (b ++ x) eqn:E; [|reflexivity].
  destruct b; [simpl in E; contradiction | discriminate].
Qed.

Lemma trim_app (p x : string) :
  clean x -> Str.trim (p ++ x) = Str.trimStart p ++ x.
Proof.
  intros (Hne & Hs & He). unfold Str.trim.
  rewrite trimStart_app by assumption. now apply trimEnd_app.
Qed.

Lemma trimEnd_dot (y : string) : Str.trimEnd (y ++ ".") = y ++ ".".
Proof. apply trimEnd_app; [discriminate | reflexivity]. Qed.

Lemma clean_dot (c : ascii) (y : string) :
  Char.isSpace c = false -> clean (String c y ++ ".").
Proof.
  intros Hc. split; [discriminate|]. split; [exact Hc|].
  apply (trimEnd_dot (String c y)).
Qed.

Lemma app_inv (p x y : string) : p ++ x = p ++ y -> x = y.
Proof.
  induction p as [|c p IH]; simpl; [auto|].
  intros H. injection H as H. auto.
Qed.

(** Two texts that end in different last sections. *)
Lemma last_section (g x y : string) (c r : list string) :
  clean x -> clean y ->
  Str.trim (Str.join (String "010" "") (g :: c ++ r ++ [""; x]))
  = Str.trim (Str.join (String "010" "") (g :: c ++ r ++ [""; y]))
  <-> x = y.
Proof.
  intros Hx Hy. split; [|now intros ->].
  replace (g :: c ++ r ++ [""; x])%list
    with ((g :: c ++ r) ++ [""; x])%list
    by (simpl; now rewrite <- !app_assoc).
  replace (g :: c ++ r ++ [""; y])%list
    with ((g :: c ++ r) ++ [""; y])%list
    by (simpl; now rewrite <- !app_assoc).
  rewrite !join_snoc2 by discriminate.
  rewrite !trim_app by assumption. apply app_inv.
Qed.

Lemma lookup_truthy (inherited : string -> option string) (x t : string) :
  (forall x t, inherited x = Some t -> t <> "") ->
  Reply.lengthMapAt inherited x = Some t -> t <> "".
Proof.
  intros Hinh. unfold Reply.lengthMapAt.
  destruct (String.eqb x "short"); [intros H; injection H as <-; discriminate|].
  destruct (String.eqb x "medium");
    [intros H; injection H as <-; discriminate|].
  destruct (String.eqb x "long"); [intros H; injection H as <-; discriminate|].
  apply Hinh.
Qed.

Lemma generateIRL_agree (intent : Reply.Intent.t) :
  Llm.generateIRL intent = Reply.generateIRL intent
  <-> ~ lengthIs "any" intent.
Proof.
  unfold lengthIs. split.
  - intros H (e & He & Hl). apply (f_equal String.length) in H.
    unfold Llm.generateIRL, Reply.generateIRL in H. rewrite He, Hl in H.
    cbn [Str.truthy String.eqb Ascii.eqb Bool.eqb andb negb] in H.
    rewrite !RenderFacts.join_length in H.
    rewrite !RenderFacts.total_app, !length_app in H. simpl in H. lia.
  - intros H. unfold Llm.generateIRL, Reply.generateIRL.
    destruct (Reply.Intent.outputExpectations intent) as [e|]; [|reflexivity].
    destruct (Reply.OutputExpectation.length e) as [l|] eqn:E;
      [|reflexivity].
    destruct (String.eqb l "any") eqn:El.
    + apply String.eqb_eq in El. subst l. exfalso. apply H. now exists e.
    + now rewrite andb_true_r.
Qed.

Lemma schema_same (inherited : string -> option string) (intent : Intent.t) :
  Reply.generateIRL (replyOf intent) = generateIRL intent
  /\ Reply.compilePrompt inherited (replyOf intent) = compilePrompt intent.
Proof.
  unfold Reply.generateIRL, Reply.compilePrompt, generateIRL, compilePrompt,
    replyOf.
  cbn [Reply.Intent.primaryGoal Reply.Intent.taskType Reply.Intent.audience
       Reply.Intent.domain Reply.Intent.constraints
       Reply.Intent.outputExpectations Reply.Intent.conflicts
       Reply.Intent.assumptions].
  destruct (Intent.outputExpectations intent) as [e|]; cbn [option_map];
    [|split; reflexivity].
  cbn [Reply.OutputExpectation.length Reply.OutputExpectation.format
       Reply.OutputExpectation.structure].
  destruct (OutputExpectation.length e) as [[| | |]|]; split; reflexivity.
Qed.

Lemma clean_joined (c : ascii) (y : string) (rest : list string) :
  Char.isSpace c = false ->
  clean (Str.join ". " (String c y :: rest) ++ ".").
Proof.
  intros Hc.
  destruct (LeadFacts.join_head ". " (String c y) rest) as (x & ->).
  apply (clean_dot c (y ++ x) Hc).
Qed.

Lemma clean_joined_blank (o : string) (rest : list string) :
  clean (Str.join ". " ("" :: o :: rest) ++ ".").
Proof.
  change (Str.join ". " ("" :: o :: rest))
    with (String "." (" " ++ Str.join ". " (o :: rest))).
  now apply clean_dot.
Qed.

Lemma length_test (l : string) :
  Str.truthy l && negb (String.eqb l "any") = true
  <-> l <> "" /\ l <> "any".
Proof.
  destruct l as [|c l].
  - simpl. split; [discriminate | intros [H _]; now contradiction H].
  - change (Str.truthy (String c l)) with true.
    rewrite andb_true_l, negb_true_iff, String.eqb_neq.
    split; [intros H; split; [discriminate | exact H] | now intros [_ H]].
Qed.

(** No stray length, or no other part. *)
Ltac no_stray :=
  match goal with
  | Hs : exists x, (exists e, _ /\ _) /\ _ |- _ =>
      destruct Hs as (x & (e & He & Hl) & Hne & Hany & Hlook);
      injection He as <-;
      cbn [Reply.OutputExpectation.length] in Hl;
      first
        [ discriminate Hl
        | injection Hl as <-; congruence
        | injection Hl as <-;
          match goal with
          | El : Str.truthy ?y && negb (String.eqb ?y "any") = false |- _ =>
              rewrite (proj2 (length_test y) (conj Hne Hany)) in El;
              discriminate El
          end ]
  end.

Ltac no_other :=
  match goal with
  | Ho : exists e, _ /\ (_ \/ _) |- _ =>
      destruct Ho as (e & He & [(f & Hf & Hfne) | (s' & ss' & Hst)]);
      injection He as <-;
      cbn [Reply.OutputExpectation.format
           Reply.OutputExpectation.structure] in *;
      first [discriminate | injection Hf as <-; contradiction]
  end.

Ltac same_text :=
  split;
  [ intros _ [Hs Ho]; first [solve [no_stray] | solve [no_other]]
  | intros _; reflexivity ].

Lemma compilePrompt_agree (inherited : string -> option string)
    (intent : Reply.Intent.t) :
  (forall x t, inherited x = Some t -> t <> "") ->
  Llm.compilePrompt inherited intent = Reply.compilePrompt inherited intent
  <-> ~ (strayLength inherited intent /\ otherParts intent).
Proof.
  intros Hinh.
  unfold strayLength, otherParts, lengthIs, Llm.compilePrompt,
    Reply.compilePrompt.
  destruct (Reply.Intent.outputExpectations intent) as [[len fmt str]|];
    cbn [Reply.OutputExpectation.length Reply.OutputExpectation.format
         Reply.OutputExpectation.structure].
  2:{ split; [intros _ [_ (e & Hx & _)]; discriminate | reflexivity]. }
  cbv zeta.
  destruct len as [l|].
  - destruct (Str.truthy l && negb (String.eqb l "any")) eqn:El.
    + unfold Reply.lengthPart.
      destruct (Reply.lengthMapAt inherited l) as [t|] eqn:Et.
      * pose proof (lookup_truthy _ _ _ Hinh Et) as Ht.
        destruct t as [|ct t]; [contradiction|].
        destruct fmt as [[|cf f]|]; destruct str as [[|s ss]|]; same_text.
      * apply length_test in El as [Hne Hany].
        destruct fmt as [[|cf f]|]; destruct str as [[|s ss]|];
          cbn [List.filter Str.truthy app nonEmpty append];
          try solve [same_text].
        all: split;
          [ intros H; exfalso;
            apply last_section in H;
            [ cbn [Str.join append] in H; discriminate H
            | apply clean_joined; reflexivity
            | apply clean_joined_blank ]
          | intros H; exfalso; apply H; split;
            [ exists l; split; [eexists; split; reflexivity | auto]
            | eexists; split; [reflexivity|];
              first [ left; eexists; split; [reflexivity | discriminate]
                    | right; eexists; eexists; reflexivity ] ] ].
    + destruct fmt as [[|cf f]|]; destruct str as [[|s ss]|]; same_text.
  - destruct fmt as [[|cf f]|]; destruct str as [[|s ss]|]; same_text.
Qed.

End SiblingFacts.

(** X11.  The two pairs of sibling functions on the intent of a reply,
    whose length is any text.  The two [generateIRL] return the same
    notation exactly when the length is not "any".  The two
    [compilePrompt] return the same text except when the length is a text
    that [lengthMap] has nothing for (not empty, not "any", none of its
    keys) while a format or a structure is asked for: then
    modules/promptCompiler joins the empty part that
    modules/llmNormalizer filters out.  On the intents of the schema the
    functions are [generateIRL] and [compilePrompt] as modelled for the
    pipeline, so there the two compilers always agree. *)
Theorem sibling_renderers_agree_exactly_when
    (inherited : string -> option string) (intent : Reply.Intent.t) :
  (forall x t, inherited x = Some t -> t <> EmptyString) ->
  (Llm.generateIRL intent = Reply.generateIRL intent
   <-> ~ lengthIs "any" intent)
  /\ (Llm.compilePrompt inherited intent
      = Reply.compilePrompt inherited intent
      <-> ~ (strayLength inherited intent /\ otherParts intent))
  /\ (forall i : Intent.t,
        Reply.generateIRL (replyOf i) = generateIRL i
        /\ Reply.compilePrompt inherited (replyOf i) = compilePrompt i
        /\ Llm.compilePrompt inherited (replyOf i) = compilePrompt i).
Proof.
  intros Hinh. split; [apply SiblingFacts.generateIRL_agree|].
  split; [now apply SiblingFacts.compilePrompt_agree|].
  intros i. destruct (SiblingFacts.schema_same inherited i) as [Hg Hc].
  split; [exact Hg|]. split; [exact Hc|]. rewrite <- Hc.
  apply SiblingFacts.compilePrompt_agree; [exact Hinh|].
  intros [(x & (e & He & Hl) & Hne & Hany & Hlook) _].
  unfold replyOf in He. cbn [Reply.Intent.outputExpectations] in He.
  destruct (Intent.outputExpectations i) as [e'|]; [|discriminate].
  cbn [option_map] in He. injection He as <-.
  cbn [Reply.OutputExpectation.length] in Hl.
  destruct (OutputExpectation.length e') as [[| | |]|];
    cbn [option_map lengthName] in Hl; try discriminate;
    injection Hl as <-; try discriminate Hlook.
  now apply Hany.
Qed.

Lemma sibling_renderers_agree_exactly_when_witness :
  let intent :=
    Reply.Intent.mk "0.1.0" "Summarize the report" None None None
      (Constraints.mk [] [])
      (Some (Reply.OutputExpectation.mk (Some "huge") (Some "JSON") None))
      [] false "summarize the report as huge JSON" [] in
  Llm.generateIRL intent = Reply.generateIRL intent
  /\ Llm.compilePrompt (fun _ => None) intent
     <> Reply.compilePrompt (fun _ => None) intent.
Proof.
  intros intent.
  destruct (sibling_renderers_agree_exactly_when (fun _ => None) intent)
    as (Hg & Hc & _); [discriminate|].
  split.
  - apply Hg. intros (e & He & Hl). injection He as <-. discriminate.
  - intros E. apply Hc in E. apply E. split.
    + exists "huge". split; [eexists; split; reflexivity|].
      repeat split; discriminate.
    + eexists. split; [reflexivity|]. left. eexists.
      split; [reflexivity | discriminate].
Defined.

(** C4, amended.  Every constraint of the intent is made by a rule of its
    table from a clause of the input: the trigger phrase of the rule is
    read at a word boundary, its words in any casing and each followed by
    white space (after "if possible", white space and commas); the clause
    comes right after it, has at least one character, stays on one line,
    and runs up to the first full stop or comma after its first character
    or, failing both, to the end of the input; the constraint text is the
    clause trimmed, and the rules of "no" and "without", and only these,
    put "no " and "without " in front of it.  An exclamation or question
    mark does not end a clause.  Each rule is scanned over the whole
    input: all its matches that do not overlap are collected, not just the
    first. *)
Theorem clause_extent (fuel : nat) (input : string)
    (r : NormalizeResponse.t) :
  normalize fuel input = Some r ->
  (forall c, In c (hardOf r) ->
     exists rule,
       In rule Trigger.HARD_RULES
       /\ Trigger.makes rule input (Constraint.text c))
  /\ (forall c, In c (softOf r) ->
        exists rule,
          In rule Trigger.SOFT_RULES
          /\ Trigger.makes rule input (Constraint.text c))
  /\ (forall p, In p HARD_CONSTRAINT_PATTERNS ->
        scanned fuel input p (hardOf r))
  /\ (forall p, In p SOFT_CONSTRAINT_PATTERNS ->
        scanned fuel input p (softOf r)).
Proof.
  intros H. apply normalize_inv in H as (Hh & Hs & _).
  split; [|split].
  - apply (TriggerFacts.constraints_made _ _ _ _ _ _ TriggerFacts.HARD_same
             Hh).
  - apply (TriggerFacts.constraints_made _ _ _ _ _ _ TriggerFacts.SOFT_same
             Hs).
  - apply (extractConstraints_scanned _ _ _ _ _ RuleFacts.HARD_rules_ok) in Hh
      as [_ Hh].
    apply (extractConstraints_scanned _ _ _ _ _ RuleFacts.SOFT_rules_ok) in Hs
      as [_ Hs].
    split; assumption.
Qed.

Lemma clause_extent_witness :
  exists r,
    normalize 50 "It must run fast! Now, with no shortcuts" = Some r
    /\ hardOf r = [Constraint.mk "run fast! Now" Hard;
                   Constraint.mk "no shortcuts" Hard]
    /\ (forall c, In c (hardOf r) ->
          exists rule,
            In rule Trigger.HARD_RULES
            /\ Trigger.makes rule "It must run fast! Now, with no shortcuts"
                 (Constraint.text c))
    /\ forall p, In p HARD_CONSTRAINT_PATTERNS ->
         scanned 50 "It must run fast! Now, with no shortcuts" p (hardOf r).
Proof.
  eexists. split; [vm_compute; reflexivity|].
  split; [reflexivity|].
  assert (H : normalize 50 "It must run fast! Now, with no shortcuts"
              = Some _) by (vm_compute; reflexivity).
  destruct (clause_extent 50 "It must run fast! Now, with no shortcuts" _ H)
    as (Hhard & _ & Hscan & _).
  split; [exact Hhard | exact Hscan].
Defined.

(* ------------------------------------------------------------------ *)
(** ** The goal of a text of 7-bit characters *)

Module AsciiFacts.

Import TrimFacts.
Local Open Scope string_scope.

Lemma splitFrom_forallb (P : ascii -> bool) (s cur : string) (inRun : bool)
    (piece : string) :
  Str.forallb P s = true -> Str.forallb P cur = true ->
  In piece (splitFrom s cur inRun) -> Str.forallb P piece = true.
Proof.
  revert cur inRun. induction s as [|c s IH]; intros cur inRun Hs Hcur; simpl.
  - now intros [<- | []].
  - simpl in Hs. apply andb_true_iff in Hs as [Hc Hs].
    destruct (isSentenceEnd c).
    + destruct inRun.
      * now apply IH.
      * intros [<- | H]; [exact Hcur|]. revert H. now apply IH.
    + apply IH; [exact Hs|]. rewrite forallb_app, Hcur. simpl.
      now rewrite Hc.
Qed.

Lemma toUpper_ascii (c : ascii) :
  (Char.code c <? 128)%nat = true ->
  (Char.code (Char.toUpper c) <? 128)%nat = true.
Proof.
  destruct c as [[] [] [] [] [] [] [] []]; vm_compute; auto.
Qed.

Lemma goal_ascii (text : string) :
  asciiText text -> asciiText (extractPrimaryGoal text).
Proof.
  unfold asciiText, extractPrimaryGoal. intros Ht. fold (sentences text).
  destruct (sentences text) as [|sentence others] eqn:E.
  - now apply trim_forallb.
  - rewrite GoalFacts.fillers_removed.
    assert (Hs : Str.forallb (fun c => (Char.code c <? 128)%nat) sentence
                 = true).
    { assert (Hin : In sentence (sentences text)) by (rewrite E; now left).
      unfold sentences, splitSentences in Hin.
      apply filter_In in Hin as [Hin _].
      apply in_map_iff in Hin as (piece & <- & Hin).
      apply trim_forallb.
      now apply (splitFrom_forallb _ text "" false). }
    destruct (ShapeFacts.sentences_In text sentence) as (Hne & Htr & _);
      [rewrite E; now left|].
    apply trimmed_iff in Htr as [Hstart Hend].
    destruct (ShapeFacts.dropFillers_clean sentence
                (conj Hne (conj Hstart Hend))) as [_ (u & Hu)].
    rewrite Hu, forallb_app in Hs. apply andb_true_iff in Hs as [_ Hs].
    destruct (dropFillers sentence) as [|c rest]; [reflexivity|].
    simpl in *. apply andb_true_iff in Hs as [Hc Hs].
    now rewrite (toUpper_ascii c Hc).
Qed.

End AsciiFacts.

(** X8.  On a text of 7-bit ASCII characters, the primary goal is such a
    text too; it has no white space at either end; it is empty exactly
    when the input is white space only; it does not start with a
    lowercase letter; it is not longer than the input; and when the input
    has a sentence, the goal has none of the marks [.], [!] and [?]. *)
Theorem primaryGoal_shape (text : string) :
  asciiText text ->
  let goal := extractPrimaryGoal text in
  asciiText goal
  /\ Str.trim goal = goal
  /\ (goal = "" <-> Str.forallb Char.isSpace text = true)
  /\ (forall c rest, goal = String c rest -> Char.isLower c = false)
  /\ String.length goal <= String.length text
  /\ (sentences text <> [] -> plain goal).
Proof.
  intros Ht. split; [now apply AsciiFacts.goal_ascii|].
  apply ShapeFacts.goal_shape.
Qed.

Lemma primaryGoal_shape_witness :
  asciiText "  please summarize the report. Thanks!"
  /\ extractPrimaryGoal "  please summarize the report. Thanks!"
     = "Summarize the report"
  /\ asciiText (extractPrimaryGoal "  please summarize the report. Thanks!").
Proof.
  assert (Ht : asciiText "  please summarize the report. Thanks!")
    by reflexivity.
  split; [exact Ht|]. split; [reflexivity|].
  exact (proj1 (primaryGoal_shape _ Ht)).
Defined.
